(** * Automatic room-graph layout: [calculateAutoLayout]

    A shallow embedding of [calculateAutoLayout] (the layout engine of the
    room editor, [layout-utils]) and the properties of its root selection,
    breadth-first placement, fallback placement and edge-handle assignment.

    After it come its caller [loadRoomsFromApi] with the constructors of
    nodes and edges ([createNodeFromApiRoom], [createEdgeFromApiExit],
    [extractAttributes]), the copy of the layout that [loadRooms] has
    inline, and [applySchemaToNodeData].

    Modelling conventions.
    - JavaScript numbers are idealised as real numbers ([R]); [Math.cos],
      [Math.sin] and [Math.PI] are [cos], [sin] and [PI].  No rounding, no
      [NaN].
    - A plain object used as a dictionary ([Record<string, T>]) is a
      [gmap string T]; reading an absent key gives [undefined], modelled by
      [None].  Keys inherited from [Object.prototype] are not modelled.
    - A [Set<string>] is a [gset string]; arrays are lists.
    - Strings are compared as JavaScript does, code unit by code unit
      ([String.compare]); ids are strings of 8-bit characters.
    - Calling a method on [undefined] raises a [TypeError]; the outcome of
      the function is a [completion].
    - The [while] loop of the traversal is run with fuel; the fuel given
      by [calculateAutoLayout] is shown to be always sufficient
      ([calculateAutoLayout_fuel]). *)

From Stdlib Require Import Reals Lra Lia.
From stdpp Require Import base option list gmap sets strings fin_maps.
From stdpp Require Import pretty.

#[local] Open Scope R_scope.
#[local] Set Warnings "-clear-no-such-hyp".

(** Closes a goal [x ∉ [a; b; ...]] between strings that are written out. *)
Ltac absent_from_list :=
  let H := fresh "Hin" in
  intros H;
  repeat (apply elem_of_cons in H as [H|H]; [discriminate H|]);
  by apply elem_of_nil in H.

(** ** Data model *)

(** [interface NodePosition { x: number; y: number }] *)
Module NodePosition.
Record t : Type := mk { x : R; y : R }.
End NodePosition.

(** The part of reactflow's [Node] the engine reads: [id] and [position];
    everything else is carried in [data]. *)
Module Node.
Record t (D : Type) : Type := mk {
  id : string;
  position : NodePosition.t;
  data : D
}.
Arguments mk {D} _ _ _.
Arguments id {D} _.
Arguments position {D} _.
Arguments data {D} _.
End Node.

(** The part of reactflow's [Edge] the engine reads or writes; the fields it
    never touches ([data], [type], [markerEnd], ...) are carried in [data]. *)
Module Edge.
Record t (D : Type) : Type := mk {
  id : string;
  source : string;
  target : string;
  sourceHandle : option string;
  targetHandle : option string;
  data : D
}.
Arguments mk {D} _ _ _ _ _ _.
Arguments id {D} _.
Arguments source {D} _.
Arguments target {D} _.
Arguments sourceHandle {D} _.
Arguments targetHandle {D} _.
Arguments data {D} _.
End Edge.

(** [interface GraphConnections { [nodeId: string]: string[] }] *)
Abbreviation GraphConnections := (gmap string (list string)).

(** How a call ends: it returns a value, it raises a [TypeError], or the
    model ran out of fuel (never the case for [calculateAutoLayout], see
    [calculateAutoLayout_fuel]). *)
Inductive completion (A : Type) : Type :=
  | Returned (a : A)
  | TypeError
  | OutOfFuel.
Arguments Returned {A} a.
Arguments TypeError {A}.
Arguments OutOfFuel {A}.

Definition bind {A B} (c : completion A) (k : A -> completion B) : completion B :=
  match c with
  | Returned a => k a
  | TypeError => TypeError
  | OutOfFuel => OutOfFuel
  end.

(** ** Deciding the comparisons of numbers and strings *)

#[export] Instance Rle_decision (a b : R) : Decision (a <= b) := Rle_dec a b.
#[export] Instance Rlt_decision (a b : R) : Decision (a < b) := Rlt_dec a b.
#[export] Instance Rge_decision (a b : R) : Decision (a >= b) := Rge_dec a b.
#[export] Instance Rgt_decision (a b : R) : Decision (a > b) := Rgt_dec a b.

(** [a > b] on strings. *)
Definition string_gt (a b : string) : bool :=
  match String.compare a b with Gt => true | _ => false end.

(** ** Adjacency maps *)

Section Layout.
Context {ND ED : Type}.

#[local] Abbreviation Node := (Node.t ND).
#[local] Abbreviation Edge := (Edge.t ED).

(** [allNodes.forEach((node) => { graphIn[node.id] = []; graphOut[node.id] = [];
    nodePositions[node.id] = node.position; })], on the triple
    [(graphIn, graphOut, nodePositions)]. *)
Definition initNode
    (t : GraphConnections * GraphConnections * gmap string NodePosition.t)
    (node : Node) : GraphConnections * GraphConnections * gmap string NodePosition.t :=
  let '(gIn, gOut, np) := t in
  (<[Node.id node := []]> gIn,
   <[Node.id node := []]> gOut,
   <[Node.id node := Node.position node]> np).

Definition initTables (allNodes : list Node)
  : GraphConnections * GraphConnections * gmap string NodePosition.t :=
  foldl initNode (∅, ∅, ∅) allNodes.

(** [graphOut[edge.source].push(edge.target); graphIn[edge.target].push(edge.source);]
    Each access that finds no array raises. *)
Definition addEdge (g : GraphConnections * GraphConnections) (edge : Edge)
  : completion (GraphConnections * GraphConnections) :=
  let '(gIn, gOut) := g in
  match gOut !! Edge.source edge with
  | None => TypeError
  | Some outs =>
      let gOut' := <[Edge.source edge := outs ++ [Edge.target edge]]> gOut in
      match gIn !! Edge.target edge with
      | None => TypeError
      | Some ins =>
          Returned (<[Edge.target edge := ins ++ [Edge.source edge]]> gIn, gOut')
      end
  end.

Fixpoint fillConnections (g : GraphConnections * GraphConnections)
    (allEdges : list Edge) : completion (GraphConnections * GraphConnections) :=
  match allEdges with
  | [] => Returned g
  | edge :: rest => bind (addEdge g edge) (fun g' => fillConnections g' rest)
  end.

(** ** Root selection *)

(** [allNodes.some((node) => node.id === startNodeId)] *)
Definition hasNode (allNodes : list Node) (i : string) : bool :=
  existsb (fun node => String.eqb (Node.id node) i) allNodes.

(** A string is truthy when it is not empty. *)
Definition truthy (s : string) : bool := negb (String.eqb s "").

(** [startNodeId && allNodes.some(...)]: the start node that is used,
    if any. *)
Definition chosenStart (allNodes : list Node) (startNodeId : option string)
  : option string :=
  match startNodeId with
  | Some s => if truthy s && hasNode allNodes s then Some s else None
  | None => None
  end.

(** The nodes [node] with [graphIn[node.id].length === 0], in the order of
    [allNodes]. *)
Definition noIncoming (gIn : GraphConnections) (allNodes : list Node) : list string :=
  Node.id <$> filter (fun node => gIn !! Node.id node = Some []) allNodes.

Definition rootNodeIds (allNodes : list Node) (gIn : GraphConnections)
    (startNodeId : option string) : list string :=
  match chosenStart allNodes startNodeId with
  | Some s => [s]
  | None =>
      match noIncoming gIn allNodes, allNodes with
      | [], first :: _ => [Node.id first]
      | roots, _ => roots
      end
  end.

(** ** Placement *)

Definition horizontalSpacing : R := 300.
Definition verticalSpacing : R := 200.

(** [rootNodeIds.forEach((nodeId, index) => { nodePositions[nodeId] =
    { x: index * horizontalSpacing, y: 100 }; })] *)
Definition rootPosition (index : nat) : NodePosition.t :=
  {| NodePosition.x := INR index * horizontalSpacing; NodePosition.y := 100 |}.

Fixpoint placeRoots (index : nat) (roots : list string)
    (np : gmap string NodePosition.t) : gmap string NodePosition.t :=
  match roots with
  | [] => np
  | nodeId :: rest => placeRoots (S index) rest (<[nodeId := rootPosition index]> np)
  end.

(** The local variables of the traversal loop. *)
Record Walk : Type := mkWalk {
  positions : gmap string NodePosition.t;
  positionedIds : gset string;
  queue : list string
}.

(** The position computed for the child at [index] among [n] children:
    [angle = (Math.PI / (children.length + 1)) * (index + 1)],
    [x = parentPos.x + (horizontalSpacing / 2) * Math.cos(angle)],
    [y = parentPos.y + verticalSpacing * Math.sin(angle)]. *)
Definition childAngle (n index : nat) : R :=
  (PI / (INR n + 1)) * (INR index + 1).

Definition childPosition (parentPos : NodePosition.t) (n index : nat)
  : NodePosition.t :=
  let angle := childAngle n index in
  {| NodePosition.x := NodePosition.x parentPos + (horizontalSpacing / 2) * cos angle;
     NodePosition.y := NodePosition.y parentPos + verticalSpacing * sin angle |}.

(** [children.forEach((childId, index) => { ...; nodePositions[childId] = { x, y };
    positionedIds.add(childId); queue.push(childId); })], from [index] on;
    [n] is [children.length] of the whole array. *)
Fixpoint placeChildren (parentPos : NodePosition.t) (n index : nat)
    (children : list string) (w : Walk) : Walk :=
  match children with
  | [] => w
  | childId :: rest =>
      placeChildren parentPos n (S index) rest
        {| positions := <[childId := childPosition parentPos n index]> (positions w);
           positionedIds := {[childId]} ∪ positionedIds w;
           queue := queue w ++ [childId] |}
  end.

(** [graphOut[currentId]?.filter((id) => !positionedIds.has(id)) || []] *)
Definition childrenOf (gOut : GraphConnections) (positioned : gset string)
    (currentId : string) : list string :=
  match gOut !! currentId with
  | Some outs => filter (fun i => i ∉ positioned) outs
  | None => []
  end.

(** One iteration of [while (queue.length > 0)], on a non-empty queue. *)
Definition bfsStep (gOut : GraphConnections) (w : Walk) : Walk :=
  match queue w with
  | [] => w
  | currentId :: rest =>
      let w1 := {| positions := positions w;
                   positionedIds := positionedIds w;
                   queue := rest |} in
      match positions w !! currentId with
      | None => w1
      | Some parentPos =>
          let children := childrenOf gOut (positionedIds w) currentId in
          if decide (0 < length children)%nat
          then placeChildren parentPos (length children) 0 children w1
          else w1
      end
  end.

(** The loop, cut off after [fuel] iterations ([None]). *)
Fixpoint bfs (fuel : nat) (gOut : GraphConnections) (w : Walk) : option Walk :=
  match queue w with
  | [] => Some w
  | _ :: _ =>
      match fuel with
      | O => None
      | S fuel' => bfs fuel' gOut (bfsStep gOut w)
      end
  end.

(** [Math.max(...values, 0)] *)
Definition maxOf (values : list R) : R := foldr Rmax 0 values.

(** [Object.values(nodePositions).map((p) => p.x)] *)
Definition xValues (np : gmap string NodePosition.t) : list R :=
  (fun kp => NodePosition.x kp.2) <$> map_to_list np.

(** The fallback placement of the nodes the traversal did not reach,
    from [index] on ([maxY] is computed by the code and not used). *)
Fixpoint placeRemaining (index : nat) (remaining : list Node)
    (np : gmap string NodePosition.t) : gmap string NodePosition.t :=
  match remaining with
  | [] => np
  | node :: rest =>
      let maxX := maxOf (xValues np) in
      placeRemaining (S index) rest
        (<[Node.id node :=
             {| NodePosition.x := maxX + horizontalSpacing;
                NodePosition.y := 100 + INR index * verticalSpacing |}]> np)
  end.

(** ** Edge handles *)

(** [allEdges.some((e) => e.source === edge.target && e.target === edge.source)] *)
Definition hasReverseEdge (allEdges : list Edge) (edge : Edge) : bool :=
  existsb (fun e => String.eqb (Edge.source e) (Edge.target edge)
                    && String.eqb (Edge.target e) (Edge.source edge)) allEdges.

(** The pair [(sourceHandle, targetHandle)] chosen for an edge whose two
    ends are at [sourcePos] and [targetPos]. *)
Definition chooseHandles (allEdges : list Edge) (edge : Edge)
    (sourcePos targetPos : NodePosition.t) : string * string :=
  let xDiff := NodePosition.x targetPos - NodePosition.x sourcePos in
  let yDiff := NodePosition.y targetPos - NodePosition.y sourcePos in
  let reverse := hasReverseEdge allEdges edge in
  if decide (Rabs xDiff >= Rabs yDiff) then
    let primary :=
      if decide (xDiff > 0) then ("right-source", "left-target")
      else ("left-source", "right-target") in
    if reverse && string_gt (Edge.source edge) (Edge.target edge) then
      if decide (yDiff >= 0) then ("top-source", "top-target")
      else ("bottom-source", "bottom-target")
    else primary
  else
    let primary :=
      if decide (yDiff > 0) then ("bottom-source", "top-target")
      else ("top-source", "bottom-target") in
    if reverse && string_gt (Edge.source edge) (Edge.target edge) then
      if decide (xDiff >= 0) then ("right-source", "right-target")
      else ("left-source", "left-target")
    else primary.

(** The callback of [allEdges.map(...)]. *)
Definition enhanceEdge (np : gmap string NodePosition.t) (allEdges : list Edge)
    (edge : Edge) : Edge :=
  match np !! Edge.source edge, np !! Edge.target edge with
  | Some sourcePos, Some targetPos =>
      let '(sh, th) := chooseHandles allEdges edge sourcePos targetPos in
      {| Edge.id := Edge.id edge;
         Edge.source := Edge.source edge;
         Edge.target := Edge.target edge;
         Edge.sourceHandle := Some sh;
         Edge.targetHandle := Some th;
         Edge.data := Edge.data edge |}
  | _, _ => edge
  end.

(** ** The layout function *)

(** The returned object [{ nodePositions, enhancedEdges }]. *)
Record Layout : Type := mkLayout {
  nodePositions : gmap string NodePosition.t;
  enhancedEdges : list Edge
}.

(** Number of loop iterations granted to the traversal: every iteration
    removes one queue entry, and every entry is a root or comes from one
    entry of an adjacency list. *)
Definition totalOut (gOut : GraphConnections) : nat :=
  sum_list ((fun kl => length kl.2) <$> map_to_list gOut).

Definition bfsFuel (gOut : GraphConnections) (roots : list string) : nat :=
  (length roots + totalOut gOut)%nat.

Definition calculateAutoLayout (allNodes : list Node) (allEdges : list Edge)
    (startNodeId : option string) : completion Layout :=
  let '(gIn0, gOut0, np0) := initTables allNodes in
  bind (fillConnections (gIn0, gOut0) allEdges) (fun g =>
    let '(gIn, gOut) := g in
    let roots := rootNodeIds allNodes gIn startNodeId in
    let w0 := {| positions := placeRoots 0 roots np0;
                 positionedIds := list_to_set roots;
                 queue := roots |} in
    match bfs (bfsFuel gOut roots) gOut w0 with
    | None => OutOfFuel
    | Some w =>
        let remaining :=
          filter (fun node => Node.id node ∉ positionedIds w) allNodes in
        let np := placeRemaining 0 remaining (positions w) in
        Returned {| nodePositions := np;
                    enhancedEdges := enhanceEdge np allEdges <$> allEdges |}
    end).

End Layout.

(** * Notions used to state the properties *)

Section Notions.
Context {ND ED : Type}.

#[local] Abbreviation Node := (Node.t ND).
#[local] Abbreviation Edge := (Edge.t ED).
Implicit Types (allNodes remaining : list Node) (allEdges : list Edge) (edge : Edge).
Implicit Types (gIn gOut : GraphConnections) (np : gmap string NodePosition.t).
Implicit Types (sourcePos targetPos : NodePosition.t).

(** The ids of the supplied nodes. *)
Definition nodeIds allNodes : list string := Node.id <$> allNodes.

(** An edge one of whose ends is not a node of [allNodes]. *)
Definition dangling allNodes (edge : Edge) : Prop :=
  Edge.source edge ∉ nodeIds allNodes ∨ Edge.target edge ∉ nodeIds allNodes.

(** The edges into [k] and out of [k], as the [push]es list them. *)
Definition sourcesInto allEdges (k : string) : list string :=
  Edge.source <$> filter (fun e => Edge.target e = k) allEdges.
Definition targetsFrom allEdges (k : string) : list string :=
  Edge.target <$> filter (fun e => Edge.source e = k) allEdges.

(** The children placed by the iteration that starts in [w]. *)
Definition stepChildren gOut (w : Walk) : list string :=
  match queue w with
  | [] => []
  | currentId :: _ =>
      match positions w !! currentId with
      | None => []
      | Some _ => childrenOf gOut (positionedIds w) currentId
      end
  end.

(** Entries of the adjacency lists whose node is not yet positioned: each
    of them can still put one entry into the queue. *)
Definition unplaced (positioned : gset string) (outs : list string) : nat :=
  length (filter (fun i => i ∉ positioned) outs).

Definition pending gOut (positioned : gset string) : nat :=
  sum_list ((fun kl => unplaced positioned kl.2) <$> map_to_list gOut).

(** What is left to do before and after one iteration. *)
Definition workLeft gOut (w : Walk) : nat :=
  (length (queue w) + pending gOut (positionedIds w))%nat.

(** The adjacency maps [(graphIn, graphOut)] of the input. *)
Definition graphOf allNodes allEdges : completion (GraphConnections * GraphConnections) :=
  fillConnections ((initTables allNodes).1) allEdges.

(** The state in which the loop starts. *)
Definition startWalk allNodes gIn (startNodeId : option string) : Walk :=
  let roots := rootNodeIds allNodes gIn startNodeId in
  {| positions := placeRoots 0 roots ((initTables allNodes).2);
     positionedIds := list_to_set roots;
     queue := roots |}.

(** The state after [m] iterations. *)
Definition walkAt allNodes gIn gOut (startNodeId : option string) (m : nat) : Walk :=
  Nat.iter m (bfsStep gOut) (startWalk allNodes gIn startNodeId).

(** What is returned when the loop ends in [w]. *)
Definition finish allNodes allEdges (w : Walk) : Layout :=
  let remaining := filter (fun node => Node.id node ∉ positionedIds w) allNodes in
  let np := placeRemaining 0 remaining (positions w) in
  {| nodePositions := np; enhancedEdges := enhanceEdge np allEdges <$> allEdges |}.

(** The rule of the dominant axis, in the words of the specification. *)
Inductive axis : Type := Horizontal | Vertical.

Definition dominantAxis sourcePos targetPos : axis :=
  let dx := NodePosition.x targetPos - NodePosition.x sourcePos in
  let dy := NodePosition.y targetPos - NodePosition.y sourcePos in
  if decide (Rabs dx >= Rabs dy) then Horizontal else Vertical.



(** The edge is the one of a pair that is moved to the other axis. *)
Definition redirected allEdges edge : bool :=
  hasReverseEdge allEdges edge && string_gt (Edge.source edge) (Edge.target edge).

(** The two handles of an edge. *)
Definition handlesOf edge : option string * option string :=
  (Edge.sourceHandle edge, Edge.targetHandle edge).

Definition someHandles (h : string * string) : option string * option string :=
  (Some h.1, Some h.2).

(** Two edges that differ at most in their handles. *)
Definition sameButHandles (e e' : Edge) : Prop :=
  Edge.id e' = Edge.id e ∧ Edge.source e' = Edge.source e
  ∧ Edge.target e' = Edge.target e ∧ Edge.data e' = Edge.data e.

(** The roots chosen for an input. *)
Definition rootsOf allNodes allEdges (startNodeId : option string) : list string :=
  match graphOf allNodes allEdges with
  | Returned g => rootNodeIds allNodes g.1 startNodeId
  | _ => []
  end.

(** A node no edge leads to, and the ids of these nodes in the order of
    [allNodes]. *)
Definition noIncomingEdge allEdges (node : Node) : Prop :=
  Forall (fun e => Edge.target e ≠ Node.id node) allEdges.

Definition sourceNodes allNodes allEdges : list string :=
  Node.id <$> filter (noIncomingEdge allEdges) allNodes.

(** The position the specification gives to child [k] of [n]: one radius
    [r] on both axes. *)
Definition circlePosition (r : R) (parentPos : NodePosition.t) (n k : nat)
  : NodePosition.t :=
  let angle := PI / (INR n + 1) * INR k in
  {| NodePosition.x := NodePosition.x parentPos + r * cos angle;
     NodePosition.y := NodePosition.y parentPos + r * sin angle |}.

(** The same step in the copy of the layout that [handleLoadRooms] has
    inline: [const radius = horizontalSpacing],
    [x = parentPos.x + radius * Math.cos(angle)],
    [y = parentPos.y + radius * Math.sin(angle)]. *)
Definition handleLoadRooms_childPosition (parentPos : NodePosition.t) (n index : nat)
  : NodePosition.t :=
  let radius := 300 in
  let angle := (PI / (INR n + 1)) * (INR index + 1) in
  {| NodePosition.x := NodePosition.x parentPos + radius * cos angle;
     NodePosition.y := NodePosition.y parentPos + radius * sin angle |}.

End Notions.

(** ** Notions of the further properties *)

Section FurtherNotions.
Context {ND ED : Type}.

#[local] Abbreviation Node := (Node.t ND).
#[local] Abbreviation Edge := (Edge.t ED).
Implicit Types (allNodes remaining : list Node) (allEdges : list Edge) (edge : Edge).
Implicit Types (gIn gOut : GraphConnections) (np : gmap string NodePosition.t).
Implicit Types (sourcePos targetPos : NodePosition.t).

(** The state in which the loop ends: the one reached when the iterations
    granted to it are used up (the queue is empty by then, see
    [endWalk_run]). *)
Definition endWalk allNodes gIn gOut (startNodeId : option string) : Walk :=
  walkAt allNodes gIn gOut startNodeId
    (bfsFuel gOut (rootNodeIds allNodes gIn startNodeId)).

(** *** What the loop keeps true *)
(** Everything in the queue is positioned, everything positioned has a
    position, and only supplied nodes are positioned. *)
Definition walkSound allNodes (w : Walk) : Prop :=
  (∀ k, k ∈ queue w → k ∈ positionedIds w)
  ∧ (∀ k, k ∈ positionedIds w → is_Some (positions w !! k))
  ∧ (∀ k, is_Some (positions w !! k) → k ∈ nodeIds allNodes).

(** The nodes that can be reached from the roots along the edges. *)
Inductive reachable allEdges (roots : list string) : string → Prop :=
  | reach_root k : k ∈ roots → reachable allEdges roots k
  | reach_edge e :
      e ∈ allEdges → reachable allEdges roots (Edge.source e) →
      reachable allEdges roots (Edge.target e).

(** The out-neighbours of what is positioned and no longer waits in the
    queue are positioned. *)
Definition walkClosed gOut (w : Walk) : Prop :=
  ∀ p outs c, p ∈ positionedIds w → p ∉ queue w →
              gOut !! p = Some outs → c ∈ outs → c ∈ positionedIds w.

(** The names of the handles on the source side and on the target side. *)
Definition sourceSlots : list string :=
  ["top-source"; "bottom-source"; "left-source"; "right-source"].

Definition targetSlots : list string :=
  ["top-target"; "bottom-target"; "left-target"; "right-target"].

(** Two states of the loop that differ at most in the positions of what is
    not positioned yet. *)
Definition walkSim (w w' : Walk) : Prop :=
  queue w' = queue w
  ∧ positionedIds w' = positionedIds w
  ∧ ∀ k, k ∈ positionedIds w → positions w' !! k = positions w !! k.

(** Two edges with the same ends. *)
Definition sameEnds (e e' : Edge) : Prop :=
  Edge.source e' = Edge.source e ∧ Edge.target e' = Edge.target e.

End FurtherNotions.

(** ** Inputs for the examples *)

Definition room (i : string) (px py : R) : Node.t unit :=
  Node.mk i (NodePosition.mk px py) tt.

Definition exit (i s t : string) : Edge.t unit :=
  Edge.mk i s t None None tt.

(** Three rooms, two exits out of room 1. *)
Definition treeNodes : list (Node.t unit) :=
  [room "1" 5 7; room "2" 1 1; room "3" 2 2].
Definition treeEdges : list (Edge.t unit) :=
  [exit "e1" "1" "2"; exit "e2" "1" "3"].
Definition treeIn : GraphConnections :=
  <["1" := []]> (<["2" := ["1"]]> (<["3" := ["1"]]> ∅)).
Definition treeOut : GraphConnections :=
  <["1" := ["2"; "3"]]> (<["2" := []]> (<["3" := []]> ∅)).

(** Two rooms joined in both directions, and where they are. *)
Definition pairEdges : list (Edge.t unit) :=
  [exit "ab" "a" "b"; exit "ba" "b" "a"].
Definition pairPositions : gmap string NodePosition.t :=
  <["a" := NodePosition.mk 0 0]> (<["b" := NodePosition.mk 10 3]> ∅).

(** Two rooms on a cycle. *)
Definition cycleNodes : list (Node.t unit) := [room "1" 0 0; room "2" 0 0].
Definition cycleEdges : list (Edge.t unit) := [exit "e12" "1" "2"; exit "e21" "2" "1"].

(** A room whose id is the empty string, entered from room b. *)
Definition namelessNodes : list (Node.t unit) := [room "" 0 0; room "b" 1 1].
Definition namelessEdges : list (Edge.t unit) := [exit "e" "b" ""].

(** The tree with its rooms at other places. *)
Definition movedTreeNodes : list (Node.t unit) :=
  [room "1" 0 0; room "2" 40 40; room "3" (-8) 9].

(** * Loading rooms from the server: [loadRoomsFromApi]

    The caller of [calculateAutoLayout] and the two constructors it uses
    ([createNodeFromApiRoom], [createEdgeFromApiExit], with their inverse
    [extractAttributes]).

    Further conventions.
    - Ids of rooms and exits are integers ([Z]); [id.toString()] and the id
      in a template string are its decimal notation ([pretty]).
    - A value of type [any] is a value of a type [V] on which the operations
      the code applies are given ([JsAny]): being truthy and [String(v)];
      strings, integers and booleans are values.
    - The answer of the server has the declared type ([RoomGraphResponse])
      where it is not missing, so that the [try] around each room and each
      exit never catches anything.
    - [Object.entries(o)] lists the entries of [o] in the order of
      [map_to_list]; the two [reduce] calls over it do not depend on the
      order, as is shown below.
    - [Object.values(data.rooms)] and [Object.values(data.exits)] are given
      as lists, in the order of the iteration.
    - [Math.random()] is an oracle: call number [n] returns [random n].
    - The server is outside the program: the promise that
      [roomApi.readRoomGraph(startRoomId, depth)] returns is given to
      [loadRoomsFromApi] ([request]), resolved with the answer of the server or
      rejected with the error of the request, which [readRoomGraph] logs
      and throws again.  A promise is resolved or rejected. *)

(** ** Values and the server's answer *)

Class JsAny (V : Type) : Type := {
  ofString : string -> V;
  ofNumber : Z -> V;
  ofBoolean : bool -> V;
  truthyValue : V -> bool;
  stringOf : V -> string
}.

(** [interface RoomResponse] *)
Module RoomResponse.
Record t (V : Type) : Type := mk {
  id : Z;
  name : string;
  description : string;
  attributes : option (gmap string V)
}.
Arguments mk {V} _ _ _ _.
Arguments id {V} _.
Arguments name {V} _.
Arguments description {V} _.
Arguments attributes {V} _.
End RoomResponse.

(** [interface ExitResponse] *)
Module ExitResponse.
Record t (V : Type) : Type := mk {
  id : Z;
  name : string;
  description : string;
  source_id : Z;
  destination_id : Z;
  attributes : option (gmap string V)
}.
Arguments mk {V} _ _ _ _ _ _.
Arguments id {V} _.
Arguments name {V} _.
Arguments description {V} _.
Arguments source_id {V} _.
Arguments destination_id {V} _.
Arguments attributes {V} _.
End ExitResponse.

(** [interface RoomGraphResponse]; a field that is missing is [None]. *)
Module RoomGraphResponse.
Record t (V : Type) : Type := mk {
  rooms : option (list (RoomResponse.t V));
  exits : option (list (ExitResponse.t V))
}.
Arguments mk {V} _ _.
Arguments rooms {V} _.
Arguments exits {V} _.
End RoomGraphResponse.

(** What a node carries besides [id] and [position]. *)
Module NodeFields.
Record t (V : Type) : Type := mk {
  type : option string;
  data : gmap string V
}.
Arguments mk {V} _ _.
Arguments type {V} _.
Arguments data {V} _.
End NodeFields.

(** reactflow's [MarkerType]. *)
Inductive MarkerType : Type := Arrow | ArrowClosed.

Module EdgeMarker.
Record t : Type := mk {
  type : MarkerType;
  width : Z;
  height : Z;
  color : string
}.
End EdgeMarker.

(** What an edge carries besides its id, its ends and its handles. *)
Module EdgeFields.
Record t (V : Type) : Type := mk {
  type : option string;
  data : option (gmap string V);
  markerEnd : option EdgeMarker.t
}.
Arguments mk {V} _ _ _.
Arguments type {V} _.
Arguments data {V} _.
Arguments markerEnd {V} _.
End EdgeFields.

(** A node whose [position] was read from a dictionary: [None] when the
    dictionary has no entry for it. *)
Module PlacedNode.
Record t (D : Type) : Type := mk {
  id : string;
  position : option NodePosition.t;
  data : D
}.
Arguments mk {D} _ _ _.
Arguments id {D} _.
Arguments position {D} _.
Arguments data {D} _.
End PlacedNode.

(** What [loadRoomsFromApi] resolves to. *)
Module LoadResult.
Record t (V : Type) : Type := mk {
  newNodes : list (PlacedNode.t (NodeFields.t V));
  newEdges : list (Edge.t (EdgeFields.t V));
  message : string
}.
Arguments mk {V} _ _ _.
Arguments newNodes {V} _.
Arguments newEdges {V} _.
Arguments message {V} _.
End LoadResult.

(** How an [async] function ends.  What is thrown is an [Error] with its
    message (the one of the validation, or the one of a request that
    failed) or a [TypeError]; [FuelExhausted] stands for a traversal that
    is cut off, which [calculateAutoLayout_fuel] excludes. *)
Inductive rejection : Type :=
  | ErrorWith (message : string)
  | TypeErrorThrown
  | FuelExhausted.

Inductive promise (A : Type) : Type :=
  | Resolved (a : A)
  | Rejected (e : rejection).
Arguments Resolved {A} a.
Arguments Rejected {A} e.

(** [s.replace(pattern, replacement)] for a pattern that is a string: the
    first occurrence is replaced. *)
Fixpoint replaceFirst (pattern replacement s : string) : string :=
  if String.prefix pattern s
  then replacement +:+ String.substring (String.length pattern)
                         (String.length s - String.length pattern) s
  else match s with
       | EmptyString => EmptyString
       | String c s' => String c (replaceFirst pattern replacement s')
       end.

Section Loading.
Context {V : Type} `{!JsAny V}.

#[local] Abbreviation Node := (Node.t (NodeFields.t V)).
#[local] Abbreviation Edge := (Edge.t (EdgeFields.t V)).

(** [v || d], for [v] that may be [undefined]. *)
Definition orElse (v : option V) (d : V) : V :=
  match v with
  | Some v => if truthyValue v then v else d
  | None => d
  end.

(** [Object.entries(attributes || {}).reduce((acc, [key, value]) =>
      ({ ...acc, [`attr_${key}`]: value }), {})] *)
Definition prefixedAttributes (attributes : option (gmap string V)) : gmap string V :=
  foldl (fun acc '(key, value) => <["attr_" +:+ key := value]> acc) ∅
    (map_to_list (default ∅ attributes)).

(** The [data] of a created node or edge: the three named fields, then the
    spread of the prefixed attributes, which wins where keys coincide. *)
Definition apiData (label : string) (attributes : option (gmap string V)) (id : Z)
  : gmap string V :=
  prefixedAttributes attributes
  ∪ <["label" := ofString label]>
      (<["description" := orElse (attributes ≫= (.!! "desc")) (ofString "")]>
         (<["api_id" := ofNumber id]> ∅)).

Definition createNodeFromApiRoom (room : RoomResponse.t V)
    (position : option NodePosition.t) : Node :=
  let position := default {| NodePosition.x := 0; NodePosition.y := 0 |} position in
  let roomId := pretty (RoomResponse.id room) in
  {| Node.id := roomId;
     Node.position := position;
     Node.data :=
       {| NodeFields.type := Some "custom";
          NodeFields.data :=
            apiData (if decide (RoomResponse.name room = "")
                     then "Room " +:+ pretty (RoomResponse.id room)
                     else RoomResponse.name room)
              (RoomResponse.attributes room) (RoomResponse.id room) |} |}.

Definition createEdgeFromApiExit (exit : ExitResponse.t V) : Edge :=
  let edgeId := "e" +:+ pretty (ExitResponse.id exit) in
  let sourceId := pretty (ExitResponse.source_id exit) in
  let targetId := pretty (ExitResponse.destination_id exit) in
  {| Edge.id := edgeId;
     Edge.source := sourceId;
     Edge.target := targetId;
     Edge.sourceHandle := None;
     Edge.targetHandle := None;
     Edge.data :=
       {| EdgeFields.type := Some "custom";
          EdgeFields.data :=
            Some (apiData (if decide (ExitResponse.name exit = "")
                           then "Exit" else ExitResponse.name exit)
                    (ExitResponse.attributes exit) (ExitResponse.id exit));
          EdgeFields.markerEnd :=
            Some {| EdgeMarker.type := ArrowClosed;
                    EdgeMarker.width := 20;
                    EdgeMarker.height := 20;
                    EdgeMarker.color := "#3b82f6" |} |} |}.

(** [extractAttributes]: the entries whose key starts with [attr_], under
    the key without it, as strings. *)
Definition extractAttributes (data : option (gmap string V)) : gmap string string :=
  foldl (fun acc '(key, value) => <[replaceFirst "attr_" "" key := stringOf value]> acc) ∅
    (filter (fun '(key, _) => String.prefix "attr_" key = true)
       (map_to_list (default ∅ data))).

(** What [prepareRoomDataFromNode] and [prepareExitDataFromEdge] return. *)
Record RoomData : Type := {
  room_name : option V;
  room_description : V;
  room_attributes : gmap string string
}.

Record ExitData : Type := {
  exit_name : V;
  exit_description : V;
  exit_source_id : string;
  exit_destination_id : string;
  exit_attributes : gmap string string
}.

Definition prepareRoomDataFromNode (node : Node) : RoomData :=
  {| room_name := NodeFields.data (Node.data node) !! "label";
     room_description :=
       orElse (NodeFields.data (Node.data node) !! "description") (ofString "");
     room_attributes := extractAttributes (Some (NodeFields.data (Node.data node))) |}.

Definition prepareExitDataFromEdge (edge : Edge) (sourceId destId : string) : ExitData :=
  {| exit_name :=
       orElse (EdgeFields.data (Edge.data edge) ≫= (.!! "label")) (ofString "Exit");
     exit_description :=
       orElse (EdgeFields.data (Edge.data edge) ≫= (.!! "description"))
         (ofString "A path leading to another room");
     exit_source_id := sourceId;
     exit_destination_id := destId;
     exit_attributes := extractAttributes (EdgeFields.data (Edge.data edge)) |}.

(** The loop over the rooms: the nodes made so far, the ids that are taken,
    and how often [Math.random] was called. *)
Record RoomsLoop : Type := {
  newNodes : list Node;
  existingNodeIds : gset string;
  randomCalls : nat
}.

Definition addRoom (random : nat -> R) (st : RoomsLoop) (room : RoomResponse.t V)
  : RoomsLoop :=
  let roomId := pretty (RoomResponse.id room) in
  if decide (roomId ∈ existingNodeIds st) then st
  else
    let roomNode :=
      createNodeFromApiRoom room
        (Some {| NodePosition.x := random (randomCalls st) * 800;
                 NodePosition.y := random (S (randomCalls st)) * 600 |}) in
    {| newNodes := newNodes st ++ [roomNode];
       existingNodeIds := {[roomId]} ∪ existingNodeIds st;
       randomCalls := S (S (randomCalls st)) |}.

Definition addRooms (random : nat -> R) (existingNodes : list Node)
    (rooms : list (RoomResponse.t V)) : RoomsLoop :=
  foldl (addRoom random)
    {| newNodes := [];
       existingNodeIds := list_to_set (Node.id <$> existingNodes);
       randomCalls := 0 |}
    rooms.

(** The loop over the exits. *)
Record ExitsLoop : Type := {
  newEdges : list Edge;
  existingEdgeIds : gset string
}.

Definition addExit (existingNodeIds : gset string) (st : ExitsLoop)
    (exit : ExitResponse.t V) : ExitsLoop :=
  let edgeId := "e" +:+ pretty (ExitResponse.id exit) in
  if decide (edgeId ∈ existingEdgeIds st) then st
  else
    let sourceId := pretty (ExitResponse.source_id exit) in
    let targetId := pretty (ExitResponse.destination_id exit) in
    let sourceExists := bool_decide (sourceId ∈ existingNodeIds) in
    let targetExists := bool_decide (targetId ∈ existingNodeIds) in
    if negb sourceExists || negb targetExists then st
    else
      let newEdge := createEdgeFromApiExit exit in
      {| newEdges := newEdges st ++ [newEdge];
         existingEdgeIds := {[edgeId]} ∪ existingEdgeIds st |}.

Definition addExits (existingNodeIds : gset string) (existingEdges : list Edge)
    (exits : list (ExitResponse.t V)) : ExitsLoop :=
  foldl (addExit existingNodeIds)
    {| newEdges := [];
       existingEdgeIds := list_to_set (Edge.id <$> existingEdges) |}
    exits.

(** [{ ...node, position: nodePositions[node.id] }] *)
Definition withPosition (nodePositions : gmap string NodePosition.t) (node : Node)
  : PlacedNode.t (NodeFields.t V) :=
  {| PlacedNode.id := Node.id node;
     PlacedNode.position := nodePositions !! Node.id node;
     PlacedNode.data := Node.data node |}.

(** [newEdges.some((e) => e.id === edge.id)] *)
Definition isNewEdge (newEdges : list Edge) (edge : Edge) : bool :=
  existsb (fun e => bool_decide (Edge.id e = Edge.id edge)) newEdges.

(** [loadRoomsFromApi]: [await roomApi.readRoomGraph(...)] has the answer
    [data] or throws the error the request was rejected with; whatever is
    thrown inside [try] is logged and thrown again by [catch], so that the
    promise of the call is rejected with it. *)
Definition loadRoomsFromApi (random : nat -> R)
    (request : promise (option (RoomGraphResponse.t V))) (startRoomId : Z)
    (existingNodes : list Node) (existingEdges : list Edge)
  : promise (LoadResult.t V) :=
  match request with
  | Rejected error => Rejected error
  | Resolved data =>
  match data with
  | Some {| RoomGraphResponse.rooms := Some rooms;
            RoomGraphResponse.exits := Some exits |} =>
    if bool_decide (length rooms = 0%nat) then
      Resolved {| LoadResult.newNodes := [];
                  LoadResult.newEdges := [];
                  LoadResult.message :=
                    "No rooms found with ID " +:+ pretty startRoomId |}
    else
      let roomsLoop := addRooms random existingNodes rooms in
      let exitsLoop := addExits (existingNodeIds roomsLoop) existingEdges exits in
      if bool_decide (length (newNodes roomsLoop) = 0%nat)
         && bool_decide (length (newEdges exitsLoop) = 0%nat)
      then
        Resolved {| LoadResult.newNodes := [];
                    LoadResult.newEdges := [];
                    LoadResult.message :=
                      "All rooms and exits already exist in the diagram" |}
      else
        let allNodes := existingNodes ++ newNodes roomsLoop in
        let allEdges := existingEdges ++ newEdges exitsLoop in
        match calculateAutoLayout allNodes allEdges (Some (pretty startRoomId)) with
        | Returned layout =>
          let positionedNewNodes :=
            withPosition (nodePositions layout) <$> newNodes roomsLoop in
          let enhancedNewEdges :=
            filter (fun edge => isNewEdge (newEdges exitsLoop) edge = true)
              (enhancedEdges layout) in
          Resolved {| LoadResult.newNodes := positionedNewNodes;
                      LoadResult.newEdges := enhancedNewEdges;
                      LoadResult.message :=
                        "Added " +:+ pretty (length positionedNewNodes)
                        +:+ " new rooms and " +:+ pretty (length enhancedNewEdges)
                        +:+ " new exits" |}
        | TypeError => Rejected TypeErrorThrown
        | OutOfFuel => Rejected FuelExhausted
        end
  | _ => Rejected (ErrorWith "Invalid response format from server")
  end
  end.

(** The ids of the rooms and of the exits of an answer, as the loops form
    them. *)
Definition roomIds (rooms : list (RoomResponse.t V)) : list string :=
  (fun room => pretty (RoomResponse.id room)) <$> rooms.

Definition edgeIdOf (exit : ExitResponse.t V) : string :=
  "e" +:+ pretty (ExitResponse.id exit).

(** The ids that are taken when the loop over the rooms is over. *)
Definition idsAfter (existingNodes : list Node) (rooms : list (RoomResponse.t V))
  : gset string :=
  list_to_set (Node.id <$> existingNodes) ∪ list_to_set (roomIds rooms).

(** An exit one of whose ends is no room of the diagram or of the answer. *)
Definition looseExit (ids : gset string) (exit : ExitResponse.t V) : Prop :=
  pretty (ExitResponse.source_id exit) ∉ ids
  ∨ pretty (ExitResponse.destination_id exit) ∉ ids.

(** An answer that brings something new: a room whose id is not in the
    diagram, or an exit whose id is not in the diagram and whose ends are
    rooms of the diagram or of the answer. *)
Definition bringsNew (existingNodes : list Node) (existingEdges : list Edge)
    (rooms : list (RoomResponse.t V)) (exits : list (ExitResponse.t V)) : Prop :=
  Exists (fun room => pretty (RoomResponse.id room) ∉ (Node.id <$> existingNodes)) rooms
  ∨ Exists (fun exit => (edgeIdOf exit ∉ (Edge.id <$> existingEdges))
                        ∧ ¬ looseExit (idsAfter existingNodes rooms) exit) exits.

(** An edge of the diagram one of whose ends is no room of the diagram or of
    the answer. *)
Definition looseEdge (ids : gset string) (edge : Edge) : Prop :=
  Edge.source edge ∉ ids ∨ Edge.target edge ∉ ids.

End Loading.

(** ** JSON scalars as values, and an answer of the server *)

Inductive JsValue : Type :=
  | JsUndefined
  | JsNull
  | JsBoolean (b : bool)
  | JsNumber (n : Z)
  | JsString (s : string).

#[export] Instance JsValue_any : JsAny JsValue := {|
  ofString := JsString;
  ofNumber := JsNumber;
  ofBoolean := JsBoolean;
  truthyValue v :=
    match v with
    | JsUndefined | JsNull => false
    | JsBoolean b => b
    | JsNumber n => negb (n =? 0)%Z
    | JsString s => negb (bool_decide (s = ""))
    end;
  stringOf v :=
    match v with
    | JsUndefined => "undefined"
    | JsNull => "null"
    | JsBoolean true => "true"
    | JsBoolean false => "false"
    | JsNumber n => pretty n
    | JsString s => s
    end
|}.

(** A hall with a description and a level, and a cellar without a name. *)
Definition hallAttributes : gmap string JsValue :=
  <["desc" := JsString "A wide hall."]> (<["level" := JsNumber 2]> ∅).
Definition hall : RoomResponse.t JsValue :=
  RoomResponse.mk 1 "Hall" "" (Some hallAttributes).
Definition cellar : RoomResponse.t JsValue := RoomResponse.mk 2 "" "" None.

(** The stairs between them, both ways, and a door to a room that was not
    sent. *)
Definition stairsDown : ExitResponse.t JsValue :=
  ExitResponse.mk 7 "down" "" 1 2 (Some (<["locked" := JsBoolean false]> ∅)).
Definition stairsUp : ExitResponse.t JsValue := ExitResponse.mk 8 "up" "" 2 1 None.
Definition door : ExitResponse.t JsValue := ExitResponse.mk 9 "" "" 1 5 None.

Definition answer : RoomGraphResponse.t JsValue :=
  RoomGraphResponse.mk (Some [hall; cellar]) (Some [stairsDown; door; stairsUp]).

(** A diagram with one room of its own. *)
Definition yard : Node.t (NodeFields.t JsValue) :=
  Node.mk "40" (NodePosition.mk 12 34) (NodeFields.mk (Some "custom") ∅).

(** An edge of the diagram to a room that is nowhere. *)
Definition bridge : Edge.t (EdgeFields.t JsValue) :=
  Edge.mk "e3" "40" "77" None None (EdgeFields.mk None None None).

Definition dice (n : nat) : R := / (INR n + 2).

(** * The layout inside [loadRooms]

    The callback [loadRooms] of the diagram (the one the specification calls
    [handleLoadRooms]) has a copy of the layout inline.  It lays out the new
    nodes only: it takes the nodes and edges of the diagram ([nodes],
    [edges]) and the new ones ([newNodes], [newEdges]), and gives the new
    nodes with their positions and the new edges with their handles.
    [startNodeId] is [data.rooms[startRoomId] ? startRoomId.toString() :
    null]; [random] is the oracle of [Math.random], of which [calls] calls
    were made before. *)

Section InlineLayout.
Context {ND ED : Type}.

#[local] Abbreviation Node := (Node.t ND).
#[local] Abbreviation Edge := (Edge.t ED).

(** [allNodes.forEach(node => { graphIn[node.id] = []; graphOut[node.id] = [];
    if (nodes.find(n => n.id === node.id)) { nodePositions[node.id] =
    node.position } })] *)
Definition loadRooms_initNode (nodes : list Node)
    (t : GraphConnections * GraphConnections * gmap string NodePosition.t)
    (node : Node) : GraphConnections * GraphConnections * gmap string NodePosition.t :=
  let '(gIn, gOut, np) := t in
  (<[Node.id node := []]> gIn,
   <[Node.id node := []]> gOut,
   if hasNode nodes (Node.id node) then <[Node.id node := Node.position node]> np
   else np).

Definition loadRooms_initTables (nodes allNodes : list Node)
  : GraphConnections * GraphConnections * gmap string NodePosition.t :=
  foldl (loadRooms_initNode nodes) (∅, ∅, ∅) allNodes.

(** The roots: the start node if there is one, else the new nodes without
    incoming edges, else the first new node. *)
Definition loadRooms_rootNodeIds (newNodes : list Node) (gIn : GraphConnections)
    (startNodeId : option string) : list string :=
  let others :=
    match noIncoming gIn newNodes, newNodes with
    | [], first :: _ => [Node.id first]
    | roots, _ => roots
    end in
  match startNodeId with
  | Some s => if truthy s then [s] else others
  | None => others
  end.

(** [values.length ? Math.max(...values) : 0] *)
Definition maxOrZero (values : list R) : R :=
  match values with
  | [] => 0
  | v :: rest => foldl Rmax v rest
  end.

(** [Object.values(nodePositions).map(pos => pos.y)] *)
Definition yValues (np : gmap string NodePosition.t) : list R :=
  (fun kp => NodePosition.y kp.2) <$> map_to_list np.

(** [[...graphIn[nodeId], ...graphOut[nodeId]].filter(id => nodes.some(n =>
    n.id === id))]; spreading [undefined] raises. *)
Definition connectedExistingNodes (nodes : list Node) (gIn gOut : GraphConnections)
    (nodeId : string) : completion (list string) :=
  match gIn !! nodeId, gOut !! nodeId with
  | Some ins, Some outs =>
      Returned (filter (fun id => hasNode nodes id = true) (ins ++ outs))
  | _, _ => TypeError
  end.

(** [connectedExistingNodes.find(id => nodePositions[id]) ||
    connectedExistingNodes[0]], for a list that starts with [first]. *)
Definition connectedIdOf (np : gmap string NodePosition.t) (first : string)
    (connected : list string) : string :=
  match List.find (fun id => bool_decide (is_Some (np !! id))) connected with
  | Some id => if truthy id then id else first
  | None => first
  end.

(** The callback of [newRootNodeIds.forEach]: the positions and the number
    of calls of [Math.random] so far. *)
Definition loadRooms_placeRoot (random : nat -> R) (nodes : list Node)
    (gIn gOut : GraphConnections) (st : gmap string NodePosition.t * nat)
    (nodeId : string) : completion (gmap string NodePosition.t * nat) :=
  let '(np, calls) := st in
  match np !! nodeId with
  | Some _ => Returned st
  | None =>
      bind (connectedExistingNodes nodes gIn gOut nodeId) (fun connected =>
        match connected with
        | first :: _ =>
            let connectedId := connectedIdOf np first connected in
            match np !! connectedId with
            | Some p =>
                Returned
                  (<[nodeId := {| NodePosition.x := NodePosition.x p + horizontalSpacing;
                                  NodePosition.y := NodePosition.y p |}]> np,
                   calls)
            | None =>
                Returned
                  (<[nodeId := {| NodePosition.x := random calls * 800;
                                  NodePosition.y := random (S calls) * 600 |}]> np,
                   S (S calls))
            end
        | [] =>
            let maxX := maxOrZero (xValues np) in
            Returned
              (<[nodeId := {| NodePosition.x := maxX + horizontalSpacing;
                              NodePosition.y := 100 |}]> np,
               calls)
        end)
  end.

Fixpoint loadRooms_placeRoots (random : nat -> R) (nodes : list Node)
    (gIn gOut : GraphConnections) (roots : list string)
    (st : gmap string NodePosition.t * nat)
  : completion (gmap string NodePosition.t * nat) :=
  match roots with
  | [] => Returned st
  | nodeId :: rest =>
      bind (loadRooms_placeRoot random nodes gIn gOut st nodeId)
        (fun st' => loadRooms_placeRoots random nodes gIn gOut rest st')
  end.

(** The traversal of the copy: as [placeChildren], [bfsStep] and [bfs],
    with the children on the circle of radius [horizontalSpacing]. *)
Fixpoint loadRooms_placeChildren (parentPos : NodePosition.t) (n index : nat)
    (children : list string) (w : Walk) : Walk :=
  match children with
  | [] => w
  | childId :: rest =>
      loadRooms_placeChildren parentPos n (S index) rest
        {| positions :=
             <[childId := handleLoadRooms_childPosition parentPos n index]> (positions w);
           positionedIds := {[childId]} ∪ positionedIds w;
           queue := queue w ++ [childId] |}
  end.

Definition loadRooms_bfsStep (gOut : GraphConnections) (w : Walk) : Walk :=
  match queue w with
  | [] => w
  | currentId :: rest =>
      let w1 := {| positions := positions w;
                   positionedIds := positionedIds w;
                   queue := rest |} in
      match positions w !! currentId with
      | None => w1
      | Some parentPos =>
          let children := childrenOf gOut (positionedIds w) currentId in
          if decide (0 < length children)%nat
          then loadRooms_placeChildren parentPos (length children) 0 children w1
          else w1
      end
  end.

Fixpoint loadRooms_bfs (fuel : nat) (gOut : GraphConnections) (w : Walk) : option Walk :=
  match queue w with
  | [] => Some w
  | _ :: _ =>
      match fuel with
      | O => None
      | S fuel' => loadRooms_bfs fuel' gOut (loadRooms_bfsStep gOut w)
      end
  end.

(** [...forEach(node => { ...; nodePositions[node.id] = { x: maxX + 150,
    y: maxY + 150 } })] *)
Definition loadRooms_placeRemaining (remaining : list Node)
    (np : gmap string NodePosition.t) : gmap string NodePosition.t :=
  foldl (fun np node =>
           <[Node.id node := {| NodePosition.x := maxOrZero (xValues np) + 150;
                                NodePosition.y := maxOrZero (yValues np) + 150 |}]> np)
    np remaining.

(** [newNodes.map(node => ({ ...node, position: nodePositions[node.id] ||
    { x: Math.random() * 800, y: Math.random() * 600 } }))], one node after
    the other. *)
Definition loadRooms_applyPosition (random : nat -> R)
    (np : gmap string NodePosition.t) (acc : list Node * nat) (node : Node)
  : list Node * nat :=
  let '(positioned, calls) := acc in
  match np !! Node.id node with
  | Some p =>
      (positioned ++ [{| Node.id := Node.id node;
                         Node.position := p;
                         Node.data := Node.data node |}],
       calls)
  | None =>
      (positioned ++ [{| Node.id := Node.id node;
                         Node.position :=
                           {| NodePosition.x := random calls * 800;
                              NodePosition.y := random (S calls) * 600 |};
                         Node.data := Node.data node |}],
       S (S calls))
  end.

(** What the layout hands to [setNodes] and [setEdges]. *)
Record InlineLayout : Type := mkInlineLayout {
  positionedNewNodes : list Node;
  enhancedNewEdges : list Edge
}.

Definition loadRooms_layout (random : nat -> R) (calls : nat)
    (nodes : list Node) (edges : list Edge)
    (newNodes : list Node) (newEdges : list Edge)
    (startNodeId : option string) : completion InlineLayout :=
  let allNodes := nodes ++ newNodes in
  let allEdges := edges ++ newEdges in
  let '(gIn0, gOut0, np0) := loadRooms_initTables nodes allNodes in
  bind (fillConnections (gIn0, gOut0) allEdges) (fun g =>
    let '(gIn, gOut) := g in
    let newRootNodeIds := loadRooms_rootNodeIds newNodes gIn startNodeId in
    bind (loadRooms_placeRoots random nodes gIn gOut newRootNodeIds (np0, calls))
      (fun st =>
        let '(np1, calls1) := st in
        let positionedIds0 : gset string := dom np1 in
        let remainingNewNodes :=
          filter (fun node => Node.id node ∉ positionedIds0) newNodes in
        let w0 := {| positions := np1;
                     positionedIds := positionedIds0;
                     queue := newRootNodeIds |} in
        match (if decide (0 < length remainingNewNodes)%nat
               then loadRooms_bfs (bfsFuel gOut newRootNodeIds) gOut w0
               else Some w0) with
        | None => OutOfFuel
        | Some w =>
            let np :=
              loadRooms_placeRemaining
                (filter (fun node => Node.id node ∉ positionedIds w) remainingNewNodes)
                (positions w) in
            let positioned :=
              (foldl (loadRooms_applyPosition random np) ([], calls1) newNodes).1 in
            Returned {| positionedNewNodes := positioned;
                        enhancedNewEdges := enhanceEdge np allEdges <$> newEdges |}
        end)).

(** The new node [node] with the position the layout has for it. *)
Definition placedAt (np : gmap string NodePosition.t) (node : Node) : Node :=
  {| Node.id := Node.id node;
     Node.position := default (Node.position node) (np !! Node.id node);
     Node.data := Node.data node |}.

(** A start node that is no node of the graph. *)
Definition strayStart (allNodes : list Node) (startNodeId : option string) : Prop :=
  ∃ s, startNodeId = Some s ∧ s ≠ "" ∧ s ∉ nodeIds allNodes.

(** The ids of the nodes of the diagram that [nodeId] is joined to, in the
    order of [connectedExistingNodes]. *)
Definition anchorsOf (nodes : list Node) (allEdges : list Edge) (nodeId : string)
  : list string :=
  filter (fun id => hasNode nodes id = true)
    (sourcesInto allEdges nodeId ++ targetsFrom allEdges nodeId).

End InlineLayout.

(** A diagram with the first room of the tree, to which the two other rooms
    and the exits are new; and a diagram with a room of its own, to which
    the whole tree is new. *)
Definition treeTop : list (Node.t unit) := [room "1" 5 7].
Definition treeRest : list (Node.t unit) := [room "2" 1 1; room "3" 2 2].
Definition lodge : list (Node.t unit) := [room "9" 40 40].

(** * The attribute schema: [applySchemaToNodeData]

    The function changes the object it is given and returns it; the
    callers hand it a copy ([{ ...node.data }]).  Here it returns the new
    object. *)

(** ["string" | "int" | "float" | "boolean" | "choices"] *)
Inductive AttributeType : Type :=
  | TypeString | TypeInt | TypeFloat | TypeBoolean | TypeChoices.

(** [interface AttributeSchemaItem]; a [default] that is [undefined] is
    [None]. *)
Module AttributeSchemaItem.
Record t (V : Type) : Type := mk {
  name : string;
  type : AttributeType;
  default : option V;
  choices : option (list string)
}.
Arguments mk {V} _ _ _ _.
Arguments name {V} _.
Arguments type {V} _.
Arguments default {V} _.
Arguments choices {V} _.
End AttributeSchemaItem.

Section Schema.
Context {V : Type} `{!JsAny V}.

(** The callback of [schema.forEach]. *)
Definition applySchemaItem (nodeData : gmap string V) (item : AttributeSchemaItem.t V)
  : gmap string V :=
  let key := "attr_" +:+ AttributeSchemaItem.name item in
  if decide (is_Some (nodeData !! key)) then nodeData
  else
    match AttributeSchemaItem.default item with
    | Some value => <[key := value]> nodeData
    | None =>
        let d1 :=
          match AttributeSchemaItem.type item with
          | TypeString => <[key := ofString ""]> nodeData
          | _ => nodeData
          end in
        let d2 :=
          match AttributeSchemaItem.type item with
          | TypeInt => <[key := ofNumber 0]> d1
          | _ => d1
          end in
        let d3 :=
          match AttributeSchemaItem.type item with
          | TypeFloat => <[key := ofNumber 0]> d2
          | _ => d2
          end in
        match AttributeSchemaItem.type item with
        | TypeBoolean => <[key := ofBoolean false]> d3
        | _ => d3
        end
    end.

Definition applySchemaToNodeData (nodeData : gmap string V)
    (schema : list (AttributeSchemaItem.t V)) : gmap string V :=
  foldl applySchemaItem nodeData schema.

(** An item that brings a value: it has a default, or a type with an empty
    value. *)
Definition bringsValue (item : AttributeSchemaItem.t V) : Prop :=
  is_Some (AttributeSchemaItem.default item)
  ∨ AttributeSchemaItem.type item ≠ TypeChoices.

End Schema.

(** A level, a flag without a default, and a choice without a default. *)
Definition levelItem : AttributeSchemaItem.t JsValue :=
  AttributeSchemaItem.mk "level" TypeInt (Some (JsNumber 1)) None.
Definition lockedItem : AttributeSchemaItem.t JsValue :=
  AttributeSchemaItem.mk "locked" TypeBoolean None None.
Definition moodItem : AttributeSchemaItem.t JsValue :=
  AttributeSchemaItem.mk "mood" TypeChoices None (Some ["calm"; "eerie"]).
Definition hallData : gmap string JsValue :=
  <["label" := JsString "Hall"]> (<["attr_level" := JsNumber 2]> ∅).

(** * Properties *)

Section Properties.
Context {ND ED : Type}.

#[local] Abbreviation Node := (Node.t ND).
#[local] Abbreviation Edge := (Edge.t ED).
Implicit Types (allNodes remaining : list Node) (allEdges : list Edge) (edge : Edge).
Implicit Types (gIn gOut : GraphConnections) (np : gmap string NodePosition.t).
Implicit Types (sourcePos targetPos : NodePosition.t).

(** *** The tables after initialisation *)

Lemma initTables_snoc allNodes (node : Node) :
  initTables (allNodes ++ [node]) = initNode (initTables allNodes) node.
Proof. unfold initTables. by rewrite foldl_snoc. Qed.

Lemma initTables_lookup allNodes k :
  (initTables allNodes).1.1 !! k = (if decide (k ∈ nodeIds allNodes) then Some [] else None)
  ∧ (initTables allNodes).1.2 !! k = (if decide (k ∈ nodeIds allNodes) then Some [] else None)
  ∧ (is_Some ((initTables allNodes).2 !! k) ↔ k ∈ nodeIds allNodes).
Proof.
  induction allNodes as [|node allNodes IH] using rev_ind.
  - cbn. rewrite !lookup_empty. split_and!; [done|done|].
    split; [by intros [? ?]|]. unfold nodeIds. cbn. by intros ?%elem_of_nil.
  - rewrite initTables_snoc. unfold nodeIds in *. rewrite fmap_app. cbn [fmap list_fmap].
    destruct (initTables allNodes) as [[gIn gOut] np]. cbn in *.
    destruct IH as (IH1 & IH2 & IH3).
    destruct (decide (Node.id node = k)) as [->|Hne].
    + rewrite !lookup_insert_eq.
      assert (k ∈ (Node.id <$> allNodes) ++ [k]) as Hin
        by (apply elem_of_app; right; apply list_elem_of_singleton; done).
      rewrite decide_True by done.
      split_and!; [done|done|]. split; [done|eauto].
    + rewrite !lookup_insert_ne by done. rewrite IH1, IH2, IH3.
      assert (k ∈ (Node.id <$> allNodes) ++ [Node.id node] ↔ k ∈ Node.id <$> allNodes) as Hiff.
      { rewrite elem_of_app, list_elem_of_singleton. naive_solver. }
      split_and!; [| |done]; repeat case_decide; naive_solver.
Qed.

(** *** Filling the adjacency maps *)

Lemma fillConnections_ok allEdges : ∀ gIn gOut,
  Forall (fun e => is_Some (gOut !! Edge.source e) ∧ is_Some (gIn !! Edge.target e)) allEdges →
  ∃ gIn' gOut',
    fillConnections (gIn, gOut) allEdges = Returned (gIn', gOut')
    ∧ (∀ k, gIn' !! k = (fun l => l ++ sourcesInto allEdges k) <$> gIn !! k)
    ∧ (∀ k, gOut' !! k = (fun l => l ++ targetsFrom allEdges k) <$> gOut !! k).
Proof.
  induction allEdges as [|e allEdges IH]; intros gIn gOut Hwf.
  - exists gIn, gOut. split_and!; [done| |]; intros k; cbn;
      [destruct (gIn !! k)|destruct (gOut !! k)]; cbn; by rewrite ?app_nil_r.
  - apply Forall_cons in Hwf as [[[outs Ho] [ins Hi]] Hwf].
    destruct (IH (<[Edge.target e := ins ++ [Edge.source e]]> gIn)
                 (<[Edge.source e := outs ++ [Edge.target e]]> gOut))
      as (gIn' & gOut' & Hrun & HIn & HOut).
    { eapply Forall_impl; [exact Hwf|]. intros e' [H1 H2]. split.
      - rewrite lookup_insert. case_decide; eauto.
      - rewrite lookup_insert. case_decide; eauto. }
    exists gIn', gOut'. split_and!.
    + cbn. rewrite Ho, Hi. cbn. exact Hrun.
    + intros k. rewrite HIn. unfold sourcesInto. rewrite filter_cons.
      destruct (decide (Edge.target e = k)) as [<-|Hne].
      * rewrite lookup_insert_eq, Hi. cbn. by rewrite <- app_assoc.
      * by rewrite lookup_insert_ne.
    + intros k. rewrite HOut. unfold targetsFrom. rewrite filter_cons.
      destruct (decide (Edge.source e = k)) as [<-|Hne].
      * rewrite lookup_insert_eq, Ho. cbn. by rewrite <- app_assoc.
      * by rewrite lookup_insert_ne.
Qed.

Lemma fillConnections_throws allEdges : ∀ gIn gOut,
  Exists (fun e => gOut !! Edge.source e = None ∨ gIn !! Edge.target e = None) allEdges →
  fillConnections (gIn, gOut) allEdges = TypeError.
Proof.
  induction allEdges as [|e allEdges IH]; intros gIn gOut Hex.
  - by apply Exists_nil in Hex.
  - cbn. destruct (gOut !! Edge.source e) as [outs|] eqn:Ho; [|done].
    destruct (gIn !! Edge.target e) as [ins|] eqn:Hi; [|done].
    cbn. apply IH. apply Exists_cons in Hex as [[?|?]|Hex]; [congruence..|].
    eapply Exists_impl; [exact Hex|]. intros e' [H1|H1].
    + left. rewrite lookup_insert. case_decide; [subst; congruence|done].
    + right. rewrite lookup_insert. case_decide; [subst; congruence|done].
Qed.

(** The adjacency maps of a graph without dangling edges. *)
Lemma graph_wellformed allNodes allEdges :
  Forall (fun e => ¬ dangling allNodes e) allEdges →
  ∃ gIn gOut,
    fillConnections ((initTables allNodes).1) allEdges = Returned (gIn, gOut)
    ∧ (∀ k, gIn !! k = if decide (k ∈ nodeIds allNodes)
                       then Some (sourcesInto allEdges k) else None)
    ∧ (∀ k, gOut !! k = if decide (k ∈ nodeIds allNodes)
                        then Some (targetsFrom allEdges k) else None).
Proof.
  intros Hwf.
  destruct (initTables allNodes) as [[gIn0 gOut0] np0] eqn:Hinit.
  assert (∀ k, gIn0 !! k = (if decide (k ∈ nodeIds allNodes) then Some [] else None)
             ∧ gOut0 !! k = (if decide (k ∈ nodeIds allNodes) then Some [] else None)) as H0.
  { intros k. pose proof (initTables_lookup allNodes k) as H. rewrite Hinit in H. naive_solver. }
  destruct (fillConnections_ok allEdges gIn0 gOut0) as (gIn & gOut & Hrun & HIn & HOut).
  { eapply Forall_impl; [exact Hwf|]. intros e He. unfold dangling in He.
    destruct (H0 (Edge.source e)) as [_ ->]. destruct (H0 (Edge.target e)) as [-> _].
    repeat case_decide; naive_solver. }
  exists gIn, gOut. cbn. split_and!; [done| |]; intros k.
  - rewrite HIn. destruct (H0 k) as [-> _]. by case_decide.
  - rewrite HOut. destruct (H0 k) as [_ ->]. by case_decide.
Qed.

Lemma graph_dangling allNodes allEdges :
  Exists (dangling allNodes) allEdges →
  fillConnections ((initTables allNodes).1) allEdges = TypeError.
Proof.
  intros Hex.
  destruct (initTables allNodes) as [[gIn0 gOut0] np0] eqn:Hinit.
  apply fillConnections_throws. eapply Exists_impl; [exact Hex|].
  intros e [He|He]; [left|right].
  - pose proof (initTables_lookup allNodes (Edge.source e)) as H. rewrite Hinit in H.
    cbn in H. destruct H as (_ & -> & _). by rewrite decide_False.
  - pose proof (initTables_lookup allNodes (Edge.target e)) as H. rewrite Hinit in H.
    cbn in H. destruct H as (-> & _). by rewrite decide_False.
Qed.

(** *** Root placement *)

Lemma placeRoots_notin roots : ∀ index np k,
  k ∉ roots → placeRoots index roots np !! k = np !! k.
Proof.
  induction roots as [|r roots IH]; intros index np k Hk; [done|].
  apply not_elem_of_cons in Hk as [Hne Hk]. cbn.
  rewrite IH by done. by rewrite lookup_insert_ne.
Qed.

Lemma placeRoots_last pre k post index np :
  k ∉ post →
  placeRoots index (pre ++ k :: post) np !! k = Some (rootPosition (index + length pre)).
Proof.
  intros Hk. revert index np.
  induction pre as [|r pre IH]; intros index np; cbn.
  - rewrite placeRoots_notin by done. rewrite lookup_insert_eq.
    by rewrite Nat.add_0_r.
  - rewrite IH. do 2 f_equal. lia.
Qed.

Lemma placeRoots_is_Some roots : ∀ index np k,
  is_Some (np !! k) → is_Some (placeRoots index roots np !! k).
Proof.
  induction roots as [|r roots IH]; intros index np k Hk; [done|].
  cbn. apply IH. rewrite lookup_insert. case_decide; eauto.
Qed.

(** *** Child placement *)

Lemma placeChildren_queue parentPos n children : ∀ index w,
  queue (placeChildren parentPos n index children w) = queue w ++ children.
Proof.
  induction children as [|c children IH]; intros index w; cbn.
  - by rewrite app_nil_r.
  - rewrite IH. cbn. by rewrite <- app_assoc.
Qed.

Lemma placeChildren_positionedIds parentPos n children : ∀ index w,
  positionedIds (placeChildren parentPos n index children w)
  = list_to_set children ∪ positionedIds w.
Proof.
  induction children as [|c children IH]; intros index w; cbn.
  - by rewrite (left_id_L ∅ (∪)).
  - rewrite IH. cbn. set_solver.
Qed.

Lemma placeChildren_notin parentPos n children : ∀ index w k,
  k ∉ children →
  positions (placeChildren parentPos n index children w) !! k = positions w !! k.
Proof.
  induction children as [|c children IH]; intros index w k Hk; [done|].
  apply not_elem_of_cons in Hk as [Hne Hk]. cbn.
  rewrite IH by done. cbn. by rewrite lookup_insert_ne.
Qed.

Lemma placeChildren_last parentPos n pre k post index w :
  k ∉ post →
  positions (placeChildren parentPos n index (pre ++ k :: post) w) !! k
  = Some (childPosition parentPos n (index + length pre)).
Proof.
  intros Hk. revert index w.
  induction pre as [|c pre IH]; intros index w; cbn.
  - rewrite placeChildren_notin by done. cbn. rewrite lookup_insert_eq.
    by rewrite Nat.add_0_r.
  - rewrite IH. do 2 f_equal. lia.
Qed.

Lemma placeChildren_is_Some parentPos n children : ∀ index w k,
  is_Some (positions w !! k) →
  is_Some (positions (placeChildren parentPos n index children w) !! k).
Proof.
  induction children as [|c children IH]; intros index w k Hk; [done|].
  cbn. apply IH. cbn. rewrite lookup_insert. case_decide; eauto.
Qed.

Lemma childrenOf_unpositioned gOut positioned currentId k :
  k ∈ childrenOf gOut positioned currentId → k ∉ positioned.
Proof.
  unfold childrenOf. destruct (gOut !! currentId); [|by intros ?%elem_of_nil].
  by intros [? _]%list_elem_of_filter.
Qed.

(** *** One iteration of the loop *)

Lemma stepChildren_unpositioned gOut w k :
  k ∈ stepChildren gOut w → k ∉ positionedIds w.
Proof.
  unfold stepChildren. destruct (queue w); [by intros ?%elem_of_nil|].
  destruct (positions w !! _); [|by intros ?%elem_of_nil].
  apply childrenOf_unpositioned.
Qed.

Lemma bfsStep_queue gOut w :
  queue (bfsStep gOut w) = tail (queue w) ++ stepChildren gOut w.
Proof.
  unfold bfsStep, stepChildren. destruct (queue w) as [|cur rest] eqn:Hq.
  - by rewrite Hq.
  - destruct (positions w !! cur); cbn; [|by rewrite app_nil_r].
    case_decide as Hlen.
    + by rewrite placeChildren_queue.
    + cbn. destruct (childrenOf _ _ _); [by rewrite app_nil_r|cbn in Hlen; lia].
Qed.

Lemma bfsStep_positionedIds gOut w :
  positionedIds (bfsStep gOut w) = list_to_set (stepChildren gOut w) ∪ positionedIds w.
Proof.
  unfold bfsStep, stepChildren. destruct (queue w) as [|cur rest] eqn:Hq.
  - cbn. set_solver.
  - destruct (positions w !! cur); cbn; [|set_solver].
    case_decide as Hlen.
    + by rewrite placeChildren_positionedIds.
    + cbn. destruct (childrenOf _ _ _); [cbn; set_solver|cbn in Hlen; lia].
Qed.

Lemma bfsStep_notin gOut w k :
  k ∉ stepChildren gOut w → positions (bfsStep gOut w) !! k = positions w !! k.
Proof.
  unfold bfsStep, stepChildren. destruct (queue w) as [|cur rest] eqn:Hq; [done|].
  destruct (positions w !! cur); cbn; [|done].
  case_decide as Hlen; [|done]. intros Hk. by rewrite placeChildren_notin.
Qed.

Lemma bfsStep_is_Some gOut w k :
  is_Some (positions w !! k) → is_Some (positions (bfsStep gOut w) !! k).
Proof.
  unfold bfsStep. destruct (queue w) as [|cur rest] eqn:Hq; [done|].
  destruct (positions w !! cur); cbn; [|done].
  case_decide as Hlen; [|done]. intros Hk. by apply placeChildren_is_Some.
Qed.

(** The position given to the child at [index], when the node does not
    come again later in [children]. *)
Lemma bfsStep_child gOut w currentId rest parentPos index k :
  queue w = currentId :: rest →
  positions w !! currentId = Some parentPos →
  childrenOf gOut (positionedIds w) currentId !! index = Some k →
  k ∉ drop (S index) (childrenOf gOut (positionedIds w) currentId) →
  positions (bfsStep gOut w) !! k
  = Some (childPosition parentPos
            (length (childrenOf gOut (positionedIds w) currentId)) index).
Proof.
  intros Hq Hp Hk Hlast. unfold bfsStep. rewrite Hq, Hp.
  set (children := childrenOf gOut (positionedIds w) currentId) in *.
  assert (index < length children)%nat as Hlt by (by eapply lookup_lt_Some).
  rewrite decide_True by lia.
  rewrite <- (take_drop_middle children index k Hk) at 2.
  rewrite placeChildren_last by done.
  rewrite length_take. do 2 f_equal. lia.
Qed.

(** *** The whole loop *)

(** First writer wins: what is positioned stays where it is. *)
Lemma bfs_keeps fuel gOut : ∀ w w',
  bfs fuel gOut w = Some w' →
  positionedIds w ⊆ positionedIds w'
  ∧ (∀ k, k ∈ positionedIds w → positions w' !! k = positions w !! k)
  ∧ (∀ k, is_Some (positions w !! k) → is_Some (positions w' !! k))
  ∧ (∀ k, k ∉ positionedIds w' → positions w' !! k = positions w !! k).
Proof.
  induction fuel as [|fuel IH]; intros w w' Hrun; cbn in Hrun.
  - destruct (queue w); [|done]. by simplify_eq.
  - destruct (queue w) eqn:Hq; [by simplify_eq|].
    apply IH in Hrun as (Hsub & Hkeep & Hsome & Hout).
    rewrite bfsStep_positionedIds in Hsub, Hkeep.
    split_and!.
    + set_solver.
    + intros k Hk. rewrite Hkeep by set_solver.
      apply bfsStep_notin. intros Hin. by apply stepChildren_unpositioned in Hin.
    + intros k Hk. by apply Hsome, bfsStep_is_Some.
    + intros k Hk. rewrite Hout by done. apply bfsStep_notin.
      intros Hin. apply Hk, Hsub. set_solver.
Qed.

(** *** The loop ends *)

Lemma sum_list_Permutation (l l' : list nat) : l ≡ₚ l' → sum_list l = sum_list l'.
Proof. induction 1; cbn; lia. Qed.

Lemma unplaced_mono (P P' : gset string) outs :
  P ⊆ P' → (unplaced P' outs ≤ unplaced P outs)%nat.
Proof.
  intros Hsub. unfold unplaced.
  induction outs as [|o outs IH]; [done|].
  rewrite !filter_cons. repeat case_decide; cbn; try lia.
  exfalso. set_solver.
Qed.

Lemma unplaced_all_placed (P : gset string) outs :
  (∀ o, o ∈ outs → o ∈ P) → unplaced P outs = 0%nat.
Proof.
  unfold unplaced. induction outs as [|o outs IH]; intros Hall; [done|].
  rewrite filter_cons. rewrite decide_False.
  - apply IH. intros o' Ho'. apply Hall. by right.
  - intros Hn. apply Hn, Hall. by left.
Qed.

Lemma unplaced_le P outs : (unplaced P outs ≤ length outs)%nat.
Proof. apply length_filter. Qed.

Lemma pending_list_mono (P P' : gset string) (kls : list (string * list string)) :
  P ⊆ P' →
  (sum_list ((fun kl => unplaced P' kl.2) <$> kls)
   ≤ sum_list ((fun kl => unplaced P kl.2) <$> kls))%nat.
Proof.
  intros Hsub. induction kls as [|kl kls IH]; cbn; [done|].
  pose proof (unplaced_mono P P' kl.2 Hsub). lia.
Qed.

Lemma pending_le_total gOut P : (pending gOut P ≤ totalOut gOut)%nat.
Proof.
  unfold pending, totalOut.
  induction (map_to_list gOut) as [|kl kls IH]; cbn; [done|].
  pose proof (unplaced_le P kl.2). lia.
Qed.

Lemma pending_step gOut (P : gset string) currentId outs :
  gOut !! currentId = Some outs →
  (pending gOut (list_to_set (filter (fun i => i ∉ P) outs) ∪ P)
   + length (filter (fun i => i ∉ P) outs) ≤ pending gOut P)%nat.
Proof.
  intros Hout. unfold pending.
  pose proof (map_to_list_delete gOut currentId outs Hout) as Hperm.
  set (P' := list_to_set (filter (fun i => i ∉ P) outs) ∪ P).
  rewrite <- (sum_list_Permutation _ _
    (fmap_Permutation (fun kl => unplaced P' kl.2) _ _ Hperm)).
  rewrite <- (sum_list_Permutation _ _
    (fmap_Permutation (fun kl => unplaced P kl.2) _ _ Hperm)).
  cbn -[unplaced].
  assert (unplaced P' outs = 0%nat) as ->.
  { apply unplaced_all_placed. intros o Ho. unfold P'.
    destruct (decide (o ∈ P)) as [|Hn]; [set_solver|].
    apply elem_of_union_l, elem_of_list_to_set, list_elem_of_filter. done. }
  assert (P ⊆ P') as Hsub by (unfold P'; set_solver).
  pose proof (pending_list_mono P P' (map_to_list (delete currentId gOut)) Hsub).
  change (length (filter (fun i => i ∉ P) outs)) with (unplaced P outs). lia.
Qed.

Lemma bfsStep_workLeft gOut w :
  queue w ≠ [] → (workLeft gOut (bfsStep gOut w) < workLeft gOut w)%nat.
Proof.
  intros Hq. unfold workLeft.
  rewrite bfsStep_queue, bfsStep_positionedIds, length_app.
  assert (pending gOut (list_to_set (stepChildren gOut w) ∪ positionedIds w)
          + length (stepChildren gOut w) ≤ pending gOut (positionedIds w))%nat as Hle.
  { unfold stepChildren. destruct (queue w) as [|cur rest]; [done|].
    assert (pending gOut (list_to_set [] ∪ positionedIds w) + length (@nil string)
            ≤ pending gOut (positionedIds w))%nat as Hnil.
    { replace (list_to_set [] ∪ positionedIds w) with (positionedIds w) by set_solver.
      cbn. lia. }
    destruct (positions w !! cur); [|exact Hnil].
    unfold childrenOf. destruct (gOut !! cur) as [outs|] eqn:Hout; [|exact Hnil].
    by eapply pending_step. }
  destruct (queue w) as [|cur rest]; [done|]. cbn. lia.
Qed.

Lemma bfs_fuel fuel gOut : ∀ w,
  (workLeft gOut w ≤ fuel)%nat → is_Some (bfs fuel gOut w).
Proof.
  induction fuel as [|fuel IH]; intros w Hle; cbn.
  - destruct (queue w) as [|cur rest] eqn:Hq; [eauto|].
    unfold workLeft in Hle. rewrite Hq in Hle. cbn in Hle. lia.
  - destruct (queue w) as [|cur rest] eqn:Hq; [eauto|].
    apply IH. pose proof (bfsStep_workLeft gOut w) as Hlt.
    rewrite Hq in Hlt. specialize (Hlt ltac:(done)). lia.
Qed.

Lemma bfs_start_fuel gOut roots np :
  is_Some (bfs (bfsFuel gOut roots) gOut
             {| positions := np; positionedIds := list_to_set roots; queue := roots |}).
Proof.
  apply bfs_fuel. unfold workLeft, bfsFuel. cbn.
  pose proof (pending_le_total gOut (list_to_set roots)). lia.
Qed.

(** *** Fallback placement *)

Lemma placeRemaining_notin (remaining : list Node) : ∀ index np k,
  k ∉ nodeIds remaining → placeRemaining index remaining np !! k = np !! k.
Proof.
  induction remaining as [|node remaining IH]; intros index np k Hk; [done|].
  unfold nodeIds in Hk. cbn in Hk. apply not_elem_of_cons in Hk as [Hne Hk]. cbn.
  rewrite IH by done. by rewrite lookup_insert_ne.
Qed.

Lemma placeRemaining_is_Some (remaining : list Node) : ∀ index np k,
  is_Some (np !! k) → is_Some (placeRemaining index remaining np !! k).
Proof.
  induction remaining as [|node remaining IH]; intros index np k Hk; [done|].
  cbn. apply IH. rewrite lookup_insert. case_decide; eauto.
Qed.

(** *** The run of the function, step by step *)

Lemma calculateAutoLayout_unfold allNodes allEdges startNodeId :
  calculateAutoLayout allNodes allEdges startNodeId
  = bind (graphOf allNodes allEdges) (fun g =>
      match bfs (bfsFuel g.2 (rootNodeIds allNodes g.1 startNodeId)) g.2
                (startWalk allNodes g.1 startNodeId) with
      | None => OutOfFuel
      | Some w => Returned (finish allNodes allEdges w)
      end).
Proof.
  unfold calculateAutoLayout, graphOf, startWalk, finish.
  destruct (initTables allNodes) as [[gIn0 gOut0] np0]. cbn.
  destruct (fillConnections (gIn0, gOut0) allEdges) as [[gIn gOut]| |]; done.
Qed.

(** The fuel is always enough: the model never stops for lack of it. *)
Lemma calculateAutoLayout_fuel allNodes allEdges startNodeId :
  calculateAutoLayout allNodes allEdges startNodeId ≠ OutOfFuel.
Proof.
  rewrite calculateAutoLayout_unfold. unfold graphOf.
  destruct (fillConnections _ allEdges) as [[gIn gOut]| |] eqn:Hg; cbn; [|done|].
  - destruct (bfs_start_fuel gOut (rootNodeIds allNodes gIn startNodeId)
                (placeRoots 0 (rootNodeIds allNodes gIn startNodeId) (initTables allNodes).2))
      as [w Hw].
    unfold startWalk. by rewrite Hw.
  - exfalso. revert Hg. generalize ((initTables allNodes).1).
    induction allEdges as [|e allEdges IH]; intros [gIn gOut]; cbn; [done|].
    destruct (gOut !! Edge.source e); [|done].
    destruct (gIn !! Edge.target e); [|done]. cbn. apply IH.
Qed.

Lemma layout_returned_inv allNodes allEdges startNodeId r :
  calculateAutoLayout allNodes allEdges startNodeId = Returned r →
  ∃ gIn gOut w,
    graphOf allNodes allEdges = Returned (gIn, gOut)
    ∧ bfs (bfsFuel gOut (rootNodeIds allNodes gIn startNodeId)) gOut
          (startWalk allNodes gIn startNodeId) = Some w
    ∧ r = finish allNodes allEdges w.
Proof.
  rewrite calculateAutoLayout_unfold.
  destruct (graphOf allNodes allEdges) as [[gIn gOut]| |]; cbn; [|done..].
  destruct (bfs _ gOut _) as [w|] eqn:Hw; [|done].
  intros [= <-]. by exists gIn, gOut, w.
Qed.

Lemma layout_returns allNodes allEdges startNodeId :
  Forall (fun e => ¬ dangling allNodes e) allEdges →
  ∃ r, calculateAutoLayout allNodes allEdges startNodeId = Returned r.
Proof.
  intros Hwf. destruct (graph_wellformed allNodes allEdges Hwf) as (gIn & gOut & Hg & _).
  rewrite calculateAutoLayout_unfold. unfold graphOf. rewrite Hg. cbn.
  destruct (bfs_start_fuel gOut (rootNodeIds allNodes gIn startNodeId)
              (placeRoots 0 (rootNodeIds allNodes gIn startNodeId) (initTables allNodes).2))
    as [w Hw].
  unfold startWalk. rewrite Hw. eauto.
Qed.

Lemma layout_throws allNodes allEdges startNodeId :
  Exists (dangling allNodes) allEdges →
  calculateAutoLayout allNodes allEdges startNodeId = TypeError.
Proof.
  intros Hex. rewrite calculateAutoLayout_unfold. unfold graphOf.
  by rewrite (graph_dangling allNodes allEdges Hex).
Qed.

(** The two ways the function ends. *)
Lemma layout_outcome allNodes allEdges startNodeId :
  (Forall (fun e => ¬ dangling allNodes e) allEdges
   ∧ ∃ r, calculateAutoLayout allNodes allEdges startNodeId = Returned r)
  ∨ (Exists (dangling allNodes) allEdges
     ∧ calculateAutoLayout allNodes allEdges startNodeId = TypeError).
Proof.
  assert (∀ e : Edge, Decision (dangling allNodes e)) as Hdec
    by (intros e; unfold dangling; apply _).
  destruct (Forall_Exists_dec (fun e => ¬ dangling allNodes e) (dangling allNodes)
              (fun e => match Hdec e with left H => right H | right H => left H end)
              allEdges) as [Hwf|Hex].
  - left. split; [done|]. by apply layout_returns.
  - right. split; [done|]. by apply layout_throws.
Qed.

(** Every node has an entry in the returned map. *)
Lemma finish_covers allNodes allEdges gIn startNodeId fuel gOut w k :
  bfs fuel gOut (startWalk allNodes gIn startNodeId) = Some w →
  k ∈ nodeIds allNodes →
  is_Some (nodePositions (finish allNodes allEdges w) !! k).
Proof.
  intros Hrun Hk. cbn. apply placeRemaining_is_Some.
  apply bfs_keeps in Hrun as (_ & _ & Hsome & _). apply Hsome. cbn.
  apply placeRoots_is_Some. by apply initTables_lookup.
Qed.

(** Both ends of every edge have their entry in a returned map. *)
Lemma layout_ends_positioned allNodes allEdges startNodeId r edge :
  calculateAutoLayout allNodes allEdges startNodeId = Returned r →
  edge ∈ allEdges →
  is_Some (nodePositions r !! Edge.source edge)
  ∧ is_Some (nodePositions r !! Edge.target edge).
Proof.
  intros Hr Hedge.
  destruct (layout_outcome allNodes allEdges startNodeId) as [[Hwf _]|[_ Hthrow]];
    [|congruence].
  rewrite Forall_forall in Hwf. specialize (Hwf edge Hedge).
  destruct (layout_returned_inv _ _ _ _ Hr) as (gIn & gOut & w & _ & Hrun & ->).
  unfold dangling in Hwf.
  split; (eapply finish_covers; [exact Hrun|]);
    [destruct (decide (Edge.source edge ∈ nodeIds allNodes))
    |destruct (decide (Edge.target edge ∈ nodeIds allNodes))]; tauto.
Qed.

(** The loop reaches its final state through each of its states. *)
Lemma bfs_iter gOut m : ∀ fuel w w',
  bfs fuel gOut w = Some w' →
  ∃ fuel', bfs fuel' gOut (Nat.iter m (bfsStep gOut) w) = Some w'.
Proof.
  induction m as [|m IH]; intros fuel w w' Hrun; [by exists fuel|].
  rewrite Nat.iter_succ_r.
  destruct fuel as [|fuel]; cbn in Hrun.
  - destruct (queue w) eqn:Hq; [|done].
    assert (bfsStep gOut w = w) as -> by (unfold bfsStep; by rewrite Hq).
    apply (IH 0%nat). cbn. by rewrite Hq.
  - destruct (queue w) eqn:Hq.
    + assert (bfsStep gOut w = w) as -> by (unfold bfsStep; by rewrite Hq).
      apply (IH 0%nat). cbn. by rewrite Hq.
    + by apply (IH fuel).
Qed.

(** What a state of the loop has positioned is returned as it is. *)
Lemma layout_keeps allNodes allEdges startNodeId r gIn gOut m k :
  calculateAutoLayout allNodes allEdges startNodeId = Returned r →
  graphOf allNodes allEdges = Returned (gIn, gOut) →
  k ∈ positionedIds (walkAt allNodes gIn gOut startNodeId m) →
  nodePositions r !! k = positions (walkAt allNodes gIn gOut startNodeId m) !! k.
Proof.
  intros Hr Hg Hk.
  apply layout_returned_inv in Hr as (gIn' & gOut' & w & Hg' & Hrun & ->).
  rewrite Hg in Hg'. simplify_eq.
  destruct (bfs_iter gOut' m _ _ _ Hrun) as [fuel' Hrun'].
  apply bfs_keeps in Hrun' as (Hsub & Hkeep & _ & _).
  cbn. rewrite placeRemaining_notin; [by apply Hkeep|].
  intros Hin. unfold nodeIds in Hin.
  apply list_elem_of_fmap in Hin as (node & -> & Hnode).
  apply list_elem_of_filter in Hnode as [Hn _]. apply Hn, Hsub, Hk.
Qed.

(** *** The handles of an edge *)


Lemma enhanceEdge_handles np allEdges edge sourcePos targetPos :
  np !! Edge.source edge = Some sourcePos →
  np !! Edge.target edge = Some targetPos →
  handlesOf (enhanceEdge np allEdges edge)
  = someHandles (chooseHandles allEdges edge sourcePos targetPos).
Proof.
  intros Hs Ht. unfold enhanceEdge. rewrite Hs, Ht.
  by destruct (chooseHandles _ _ _ _).
Qed.

Lemma enhanceEdge_sameButHandles np allEdges edge :
  sameButHandles edge (enhanceEdge np allEdges edge).
Proof.
  unfold enhanceEdge, sameButHandles.
  destruct (np !! Edge.source edge); [|done].
  destruct (np !! Edge.target edge); [|done].
  by destruct (chooseHandles _ _ _ _).
Qed.




Lemma dominantAxis_sym sourcePos targetPos :
  dominantAxis targetPos sourcePos = dominantAxis sourcePos targetPos.
Proof.
  unfold dominantAxis. cbv zeta.
  rewrite (Rabs_minus_sym (NodePosition.x sourcePos)).
  by rewrite (Rabs_minus_sym (NodePosition.y sourcePos)).
Qed.




(** C9, as the code has it. The step that chooses the handles returns an
    edge one of whose ends has no entry in the position map as it is,
    handles included, and cannot raise.  The function as a whole never
    comes to this: the position map has an entry for every node once the
    tables are set up, so that an end without position is an end that is
    not a node of [allNodes], and for an edge with such an end the function
    raises a [TypeError] while it fills the adjacency maps; when it
    returns, both ends of every edge have their entry in the returned map,
    and the returned edges are the step applied to the edges with that
    map. *)
Theorem unresolved_edge_outcome allNodes allEdges startNodeId :
  (∀ np edge,
     np !! Edge.source edge = None ∨ np !! Edge.target edge = None →
     enhanceEdge np allEdges edge = edge)
  ∧ (∀ edge, edge ∈ allEdges →
       (initTables allNodes).2 !! Edge.source edge = None
       ∨ (initTables allNodes).2 !! Edge.target edge = None →
       calculateAutoLayout allNodes allEdges startNodeId = TypeError)
  ∧ (∀ r, calculateAutoLayout allNodes allEdges startNodeId = Returned r →
       enhancedEdges r = enhanceEdge (nodePositions r) allEdges <$> allEdges
       ∧ ∀ edge, edge ∈ allEdges →
           is_Some (nodePositions r !! Edge.source edge)
           ∧ is_Some (nodePositions r !! Edge.target edge)).
Proof.
  split_and!.
  - intros np edge [H|H]; unfold enhanceEdge; rewrite H; [done|].
    by destruct (np !! Edge.source edge).
  - intros edge Hedge Hend. apply layout_throws, Exists_exists.
    exists edge. split; [done|]. unfold dangling.
    destruct Hend as [H|H]; [left|right]; intros Hin;
      apply (initTables_lookup allNodes) in Hin; rewrite H in Hin;
      by destruct Hin.
  - intros r Hr. split.
    + by destruct (layout_returned_inv _ _ _ _ Hr) as (gIn & gOut & w & _ & _ & ->).
    + intros edge Hedge. by apply (layout_ends_positioned allNodes allEdges startNodeId).
Qed.

(** C10. The returned edges are the input edges, one for one and in the
    same order, each with its id, source, target and data; only the two
    handles can differ. *)
Theorem edges_preserved allNodes allEdges startNodeId r :
  calculateAutoLayout allNodes allEdges startNodeId = Returned r →
  length (enhancedEdges r) = length allEdges
  ∧ Forall2 sameButHandles allEdges (enhancedEdges r).
Proof.
  intros (gIn & gOut & w & _ & _ & ->)%layout_returned_inv. cbn.
  split; [by rewrite length_fmap|].
  apply Forall2_fmap_r, Forall_Forall2_diag, Forall_forall.
  intros e _. apply enhanceEdge_sameButHandles.
Qed.

(** *** The arc of the children *)

Lemma childAngle_lt n i j : (i < j)%nat → childAngle n i < childAngle n j.
Proof.
  intros Hij. unfold childAngle.
  assert (0 < INR n + 1) as Hn by (pose proof (pos_INR n); lra).
  assert (0 < PI / (INR n + 1)) as Hq by (apply Rdiv_lt_0_compat; [apply PI_RGT_0|done]).
  apply lt_INR in Hij. nra.
Qed.

Lemma childAngle_bounds n i : (i < n)%nat → 0 < childAngle n i < PI.
Proof.
  intros Hin. unfold childAngle.
  assert (0 < INR n + 1) as Hn by (pose proof (pos_INR n); lra).
  assert (0 < PI / (INR n + 1)) as Hq by (apply Rdiv_lt_0_compat; [apply PI_RGT_0|done]).
  pose proof (pos_INR i) as Hi. apply lt_INR in Hin.
  split; [nra|].
  assert (PI / (INR n + 1) * (INR n + 1) = PI) as Heq by (field; lra).
  nra.
Qed.

Lemma childPosition_x_lt parentPos n i j :
  (i < j)%nat → (j < n)%nat →
  NodePosition.x (childPosition parentPos n j) < NodePosition.x (childPosition parentPos n i).
Proof.
  intros Hij Hjn. unfold childPosition. cbn. unfold horizontalSpacing.
  pose proof (childAngle_bounds n i ltac:(lia)) as [Hi0 Hi1].
  pose proof (childAngle_bounds n j Hjn) as [Hj0 Hj1].
  pose proof (childAngle_lt n i j Hij) as Hlt.
  assert (cos (childAngle n j) < cos (childAngle n i)) as Hcos
    by (apply cos_decreasing_1; lra).
  lra.
Qed.

Lemma childPosition_inj parentPos n i j :
  (i < n)%nat → (j < n)%nat → i ≠ j →
  childPosition parentPos n i ≠ childPosition parentPos n j.
Proof.
  intros Hi Hj Hne Heq.
  destruct (Nat.lt_total i j) as [Hlt|[?|Hlt]]; [|done|].
  - pose proof (childPosition_x_lt parentPos n i j Hlt Hj). rewrite Heq in *. lra.
  - pose proof (childPosition_x_lt parentPos n j i Hlt Hi). rewrite Heq in *. lra.
Qed.

(** Every member of a list has a last place in it. *)
Lemma last_occurrence (l : list string) k :
  k ∈ l → ∃ i, l !! i = Some k ∧ k ∉ drop (S i) l.
Proof.
  induction l as [|a l IH]; [by intros ?%elem_of_nil|].
  intros Hk. destruct (decide (k ∈ l)) as [Hin|Hnin].
  - destruct (IH Hin) as (i & Hi & Hlast). by exists (S i).
  - apply elem_of_cons in Hk as [->|?]; [|done].
    exists 0%nat. done.
Qed.

(** *** Roots and positions in the returned layout *)

Lemma filter_ext_in {A} (P Q : A → Prop) `{∀ x, Decision (P x)} `{∀ x, Decision (Q x)}
    (l : list A) :
  (∀ x, x ∈ l → P x ↔ Q x) → filter P l = filter Q l.
Proof.
  induction l as [|a l IH]; intros Hext; [done|].
  rewrite !filter_cons.
  assert (P a ↔ Q a) as Ha by (apply Hext; by left).
  rewrite IH by (intros x Hx; apply Hext; by right).
  repeat case_decide; naive_solver.
Qed.

Lemma sourcesInto_nil allEdges k :
  sourcesInto allEdges k = [] ↔ Forall (fun e => Edge.target e ≠ k) allEdges.
Proof.
  unfold sourcesInto. induction allEdges as [|e allEdges IH].
  - split; [constructor|done].
  - rewrite filter_cons, Forall_cons. case_decide as He; cbn.
    + split; [done|]. by intros [? _].
    + rewrite IH. naive_solver.
Qed.

Lemma hasNode_true allNodes s : hasNode allNodes s = true ↔ s ∈ nodeIds allNodes.
Proof.
  unfold hasNode, nodeIds. rewrite existsb_exists, list_elem_of_fmap.
  split.
  - intros (node & Hin & Heq). exists node. apply String.eqb_eq in Heq.
    by rewrite list_elem_of_In.
  - intros (node & -> & Hin). exists node. rewrite <- list_elem_of_In.
    by rewrite String.eqb_refl.
Qed.

Lemma noIncoming_wellformed allNodes allEdges gIn gOut :
  Forall (fun e => ¬ dangling allNodes e) allEdges →
  graphOf allNodes allEdges = Returned (gIn, gOut) →
  noIncoming gIn allNodes = sourceNodes allNodes allEdges.
Proof.
  intros Hwf Hg.
  destruct (graph_wellformed allNodes allEdges Hwf) as (gIn' & gOut' & Hg' & HIn & _).
  unfold graphOf in Hg. rewrite Hg in Hg'. simplify_eq.
  unfold noIncoming, sourceNodes. f_equal. apply filter_ext_in.
  intros node Hnode. rewrite HIn.
  rewrite decide_True by (unfold nodeIds; apply list_elem_of_fmap; eauto).
  unfold noIncomingEdge. rewrite <- sourcesInto_nil.
  split; [by intros [= ->]|by intros ->].
Qed.

Lemma rootsOf_graph allNodes allEdges startNodeId gIn gOut :
  graphOf allNodes allEdges = Returned (gIn, gOut) →
  rootsOf allNodes allEdges startNodeId = rootNodeIds allNodes gIn startNodeId.
Proof. intros Hg. unfold rootsOf. by rewrite Hg. Qed.

(** The place of a root in the returned map. *)
Lemma layout_root_position allNodes allEdges startNodeId r i k :
  calculateAutoLayout allNodes allEdges startNodeId = Returned r →
  rootsOf allNodes allEdges startNodeId !! i = Some k →
  k ∉ drop (S i) (rootsOf allNodes allEdges startNodeId) →
  nodePositions r !! k = Some (rootPosition i).
Proof.
  intros Hr Hi Hlast.
  destruct (layout_returned_inv _ _ _ _ Hr) as (gIn & gOut & w & Hg & _ & _).
  rewrite (rootsOf_graph _ _ _ _ _ Hg) in Hi, Hlast.
  rewrite (layout_keeps _ _ _ _ gIn gOut 0 k Hr Hg).
  - cbn. rewrite <- (take_drop_middle _ i k Hi).
    rewrite placeRoots_last by done. rewrite length_take.
    apply lookup_lt_Some in Hi. do 2 f_equal. lia.
  - cbn. apply elem_of_list_to_set. by eapply list_elem_of_lookup_2.
Qed.

(** The place of a child in the returned map. *)
Lemma layout_child_position allNodes allEdges startNodeId r gIn gOut m
    currentId rest parentPos index k :
  calculateAutoLayout allNodes allEdges startNodeId = Returned r →
  graphOf allNodes allEdges = Returned (gIn, gOut) →
  let w := walkAt allNodes gIn gOut startNodeId m in
  let children := childrenOf gOut (positionedIds w) currentId in
  queue w = currentId :: rest →
  positions w !! currentId = Some parentPos →
  children !! index = Some k →
  k ∉ drop (S index) children →
  nodePositions r !! k = Some (childPosition parentPos (length children) index).
Proof.
  intros Hr Hg w children Hq Hp Hk Hlast.
  rewrite (layout_keeps _ _ _ _ gIn gOut (S m) k Hr Hg).
  - by apply (bfsStep_child gOut w currentId rest).
  - change (walkAt allNodes gIn gOut startNodeId (S m)) with (bfsStep gOut w).
    rewrite bfsStep_positionedIds. apply elem_of_union_l, elem_of_list_to_set.
    unfold stepChildren. rewrite Hq, Hp. by eapply list_elem_of_lookup_2.
Qed.

Lemma childPosition_eq (parentPos : NodePosition.t) n index :
  childPosition parentPos n index
  = {| NodePosition.x :=
         NodePosition.x parentPos + 150 * cos (PI / (INR n + 1) * INR (S index));
       NodePosition.y :=
         NodePosition.y parentPos + 200 * sin (PI / (INR n + 1) * INR (S index)) |}.
Proof.
  unfold childPosition, childAngle, horizontalSpacing, verticalSpacing.
  rewrite S_INR. f_equal; lra.
Qed.

(** The inline copy of the layout in [handleLoadRooms] does place the
    children on the circle of radius [horizontalSpacing]. *)
Lemma handleLoadRooms_child_on_circle (parentPos : NodePosition.t) n index :
  handleLoadRooms_childPosition parentPos n index
  = circlePosition horizontalSpacing parentPos n (S index).
Proof.
  unfold handleLoadRooms_childPosition, circlePosition, horizontalSpacing.
  by rewrite S_INR.
Qed.

(** *** The layout as a whole *)

(** C1, as the code has it. An edge whose source or target is not a node
    of the supplied set is not skipped: filling the adjacency maps raises
    a [TypeError] and no layout is returned.  The function raises exactly
    when there is such an edge, and it returns a layout exactly when every
    edge joins two nodes of the set. *)
Theorem dangling_edge_throws allNodes allEdges startNodeId :
  (calculateAutoLayout allNodes allEdges startNodeId = TypeError
   ↔ Exists (dangling allNodes) allEdges)
  ∧ ((∃ r, calculateAutoLayout allNodes allEdges startNodeId = Returned r)
     ↔ Forall (fun e => ¬ dangling allNodes e) allEdges).
Proof.
  destruct (layout_outcome allNodes allEdges startNodeId)
    as [[Hwf [r Hr]]|[Hex Hthrow]].
  - split; split.
    + congruence.
    + intros Hex. apply Exists_exists in Hex as (e & He & Hd).
      rewrite Forall_forall in Hwf. by destruct (Hwf e He).
    + done.
    + by exists r.
  - split; split.
    + done.
    + done.
    + intros [r Hr]. congruence.
    + intros Hwf. apply Exists_exists in Hex as (e & He & Hd).
      rewrite Forall_forall in Hwf. by destruct (Hwf e He).
Qed.

(** C3, as the code has it. In any iteration of the traversal, with the
    positioned parent [P] at the head of the queue and [n] out-neighbours
    not yet positioned, child [k] (from 1) is placed, and returned, at the
    angle [PI / (n + 1) * k] on an arc with two radii:
    [x = P.x + 150 * cos angle] ([horizontalSpacing / 2]) and
    [y = P.y + 200 * sin angle] ([verticalSpacing]). *)
Theorem child_placement allNodes allEdges startNodeId r gIn gOut m
    P rest parentPos index c :
  calculateAutoLayout allNodes allEdges startNodeId = Returned r →
  graphOf allNodes allEdges = Returned (gIn, gOut) →
  let w := walkAt allNodes gIn gOut startNodeId m in
  let children := childrenOf gOut (positionedIds w) P in
  let n := length children in
  let k := S index in
  let angle := PI / (INR n + 1) * INR k in
  queue w = P :: rest →
  positions w !! P = Some parentPos →
  children !! index = Some c →
  c ∉ drop k children →
  nodePositions r !! c
  = Some {| NodePosition.x := NodePosition.x parentPos + 150 * cos angle;
            NodePosition.y := NodePosition.y parentPos + 200 * sin angle |}.
Proof.
  intros Hr Hg w children n k angle Hq Hp Hc Hlast.
  rewrite (layout_child_position _ _ _ _ _ _ _ _ _ _ _ _ Hr Hg Hq Hp Hc Hlast).
  f_equal. apply childPosition_eq.
Qed.

(** C5, as the code has it. The roots are chosen by three rules in this
    order: a start node that is given, not the empty string and the id of
    a node is the only root; otherwise the roots are the nodes without
    incoming edge; otherwise, when there is no such node and there are
    nodes, the first node is the only root. *)
Theorem root_selection allNodes allEdges startNodeId :
  Forall (fun e => ¬ dangling allNodes e) allEdges →
  let roots := rootsOf allNodes allEdges startNodeId in
  let zeroIn := sourceNodes allNodes allEdges in
  (∀ s, startNodeId = Some s → s ≠ "" → s ∈ nodeIds allNodes → roots = [s])
  ∧ (startNodeId = None ∨ startNodeId = Some ""
     ∨ (∃ s, startNodeId = Some s ∧ s ∉ nodeIds allNodes) →
     (zeroIn ≠ [] → roots = zeroIn)
     ∧ (zeroIn = [] → ∀ first rest, allNodes = first :: rest → roots = [Node.id first])
     ∧ (allNodes = [] → roots = [])).
Proof.
  intros Hwf roots zeroIn.
  destruct (graph_wellformed allNodes allEdges Hwf) as (gIn & gOut & Hg & _).
  assert (roots = rootNodeIds allNodes gIn startNodeId) as ->
    by (by apply (rootsOf_graph _ _ _ gIn gOut)).
  pose proof (noIncoming_wellformed allNodes allEdges gIn gOut Hwf Hg) as Hzero.
  fold zeroIn in Hzero. unfold rootNodeIds. rewrite Hzero. split.
  - intros s -> Hne Hin. cbn. unfold truthy.
    apply String.eqb_neq in Hne. apply hasNode_true in Hin. by rewrite Hne, Hin.
  - intros Hno.
    assert (chosenStart allNodes startNodeId = None) as ->.
    { destruct Hno as [->| [->|(s & -> & Hs)]]; [done|done|].
      cbn. destruct (hasNode allNodes s) eqn:Hh; [|by rewrite andb_false_r].
      by apply hasNode_true in Hh. }
    split_and!.
    + intros Hz. destruct zeroIn; [done|]. by destruct allNodes.
    + by intros -> first rest ->.
    + intros ->. by destruct zeroIn.
Qed.

(** C6. When every edge joins two nodes of the supplied set, the function
    returns, and the returned map has a position for every node of
    [allNodes]. *)
Theorem layout_covers_all_nodes allNodes allEdges startNodeId :
  Forall (fun e => ¬ dangling allNodes e) allEdges →
  ∃ r, calculateAutoLayout allNodes allEdges startNodeId = Returned r
       ∧ ∀ node, node ∈ allNodes → is_Some (nodePositions r !! Node.id node).
Proof.
  intros Hwf. destruct (layout_returns allNodes allEdges startNodeId Hwf) as [r Hr].
  exists r. split; [done|]. intros node Hnode.
  destruct (layout_returned_inv _ _ _ _ Hr) as (gIn & gOut & w & _ & Hrun & ->).
  eapply finish_covers; [exact Hrun|].
  unfold nodeIds. apply list_elem_of_fmap. eauto.
Qed.

(** C8. Two different children that a parent places in one iteration of
    the traversal are placed by that iteration, each at the angle of its
    last place in the array of the children, and are returned where the
    iteration placed them; the two angles lie strictly between 0 and [PI]
    and differ, and so do the two positions, already in [x].  And the
    positions computed for any two places in the array differ. *)
Theorem siblings_distinct allNodes allEdges startNodeId r gIn gOut m
    P rest parentPos c1 c2 :
  calculateAutoLayout allNodes allEdges startNodeId = Returned r →
  graphOf allNodes allEdges = Returned (gIn, gOut) →
  let w := walkAt allNodes gIn gOut startNodeId m in
  let children := childrenOf gOut (positionedIds w) P in
  let n := length children in
  let angle := fun index : nat => PI / (INR n + 1) * INR (S index) in
  let place := fun index : nat =>
    {| NodePosition.x := NodePosition.x parentPos + 150 * cos (angle index);
       NodePosition.y := NodePosition.y parentPos + 200 * sin (angle index) |} in
  queue w = P :: rest →
  positions w !! P = Some parentPos →
  c1 ∈ children → c2 ∈ children → c1 ≠ c2 →
  (∃ i1 i2,
     (children !! i1 = Some c1 ∧ c1 ∉ drop (S i1) children)
     ∧ (children !! i2 = Some c2 ∧ c2 ∉ drop (S i2) children)
     ∧ positions (bfsStep gOut w) !! c1 = Some (place i1)
     ∧ positions (bfsStep gOut w) !! c2 = Some (place i2)
     ∧ nodePositions r !! c1 = Some (place i1)
     ∧ nodePositions r !! c2 = Some (place i2)
     ∧ 0 < angle i1 < PI ∧ 0 < angle i2 < PI ∧ angle i1 ≠ angle i2
     ∧ NodePosition.x (place i1) ≠ NodePosition.x (place i2)
     ∧ place i1 ≠ place i2)
  ∧ (∀ i j, (i < n)%nat → (j < n)%nat → i ≠ j → place i ≠ place j).
Proof.
  intros Hr Hg w children n angle place Hq Hp H1 H2 Hne.
  assert (∀ i, place i = childPosition parentPos n i) as Hplace
    by (intros i; symmetry; apply childPosition_eq).
  assert (∀ i, angle i = childAngle n i) as Hangle
    by (intros i; unfold angle, childAngle; rewrite S_INR; lra).
  split; [|intros i j Hi Hj Hij; rewrite !Hplace; by apply childPosition_inj].
  destruct (last_occurrence children c1 H1) as (i1 & Hi1 & Hl1).
  destruct (last_occurrence children c2 H2) as (i2 & Hi2 & Hl2).
  exists i1, i2.
  assert (i1 ≠ i2) as Hi by (intros ->; congruence).
  pose proof (lookup_lt_Some _ _ _ Hi1) as Hlt1.
  pose proof (lookup_lt_Some _ _ _ Hi2) as Hlt2.
  fold n in Hlt1, Hlt2.
  assert (NodePosition.x (place i1) ≠ NodePosition.x (place i2)) as Hx.
  { rewrite !Hplace. destruct (Nat.lt_total i1 i2) as [Hlt|[?|Hlt]]; [|done|].
    - pose proof (childPosition_x_lt parentPos _ i1 i2 Hlt Hlt2). lra.
    - pose proof (childPosition_x_lt parentPos _ i2 i1 Hlt Hlt1). lra. }
  assert (angle i1 ≠ angle i2) as Ha.
  { rewrite !Hangle. destruct (Nat.lt_total i1 i2) as [Hlt|[?|Hlt]]; [|done|].
    - pose proof (childAngle_lt n i1 i2 Hlt). lra.
    - pose proof (childAngle_lt n i2 i1 Hlt). lra. }
  assert (0 < angle i1 < PI) as Hb1 by (rewrite Hangle; by apply childAngle_bounds).
  assert (0 < angle i2 < PI) as Hb2 by (rewrite Hangle; by apply childAngle_bounds).
  assert (positions (bfsStep gOut w) !! c1 = Some (place i1)) as Hs1
    by (rewrite Hplace; by apply (bfsStep_child gOut w P rest)).
  assert (positions (bfsStep gOut w) !! c2 = Some (place i2)) as Hs2
    by (rewrite Hplace; by apply (bfsStep_child gOut w P rest)).
  assert (nodePositions r !! c1 = Some (place i1)) as Hr1.
  { rewrite Hplace.
    by apply (layout_child_position _ _ _ _ _ _ _ _ _ _ _ _ Hr Hg Hq Hp Hi1 Hl1). }
  assert (nodePositions r !! c2 = Some (place i2)) as Hr2.
  { rewrite Hplace.
    by apply (layout_child_position _ _ _ _ _ _ _ _ _ _ _ _ Hr Hg Hq Hp Hi2 Hl2). }
  assert (place i1 ≠ place i2) as Hp12 by congruence.
  destruct Hb1, Hb2. split_and!; assumption.
Qed.

End Properties.

Lemma tree_wellformed : Forall (fun e => ¬ dangling treeNodes e) treeEdges.
Proof.
  apply Forall_forall. intros e He [H|H]; apply H; unfold nodeIds; cbn;
    repeat (apply elem_of_cons in He as [->|He]; [cbn; set_solver|]);
    by apply elem_of_nil in He.
Qed.

Lemma tree_graph : graphOf treeNodes treeEdges = Returned (treeIn, treeOut).
Proof. vm_compute. reflexivity. Qed.

Lemma tree_roots : rootsOf treeNodes treeEdges None = ["1"].
Proof. vm_compute. reflexivity. Qed.

Lemma tree_queue : queue (walkAt treeNodes treeIn treeOut None 0) = ["1"].
Proof. vm_compute. reflexivity. Qed.

Lemma tree_parent :
  positions (walkAt treeNodes treeIn treeOut None 0) !! "1" = Some (rootPosition 0).
Proof. vm_compute. reflexivity. Qed.

Lemma tree_children :
  childrenOf treeOut (positionedIds (walkAt treeNodes treeIn treeOut None 0)) "1"
  = ["2"; "3"].
Proof. vm_compute. reflexivity. Qed.

(** ** The scenarios of the specification *)

(** Rooms 1, 2, 3 with exits 1→2 and 1→3: the root is room 1. *)
Example scenario_tree_root : rootsOf treeNodes treeEdges None = ["1"].
Proof. vm_compute. reflexivity. Qed.

(** The cycle 1→2, 2→1 has no room without incoming exit: the first room is
    the root, and of the two exits the one from 2 to 1 is moved to the other
    axis. *)
Example scenario_cycle :
  sourceNodes cycleNodes cycleEdges = []
  ∧ rootsOf cycleNodes cycleEdges None = ["1"]
  ∧ redirected cycleEdges (exit "e12" "1" "2") = false
  ∧ redirected cycleEdges (exit "e21" "2" "1") = true.
Proof. vm_compute. done. Qed.

(** The two exits between a at (0, 0) and b at (10, 3): the one from a leaves
    on the right and arrives on the left, the one from b is moved to the
    bottom handles. *)
Example pair_handles :
  handlesOf (enhanceEdge pairPositions pairEdges (exit "ab" "a" "b"))
  = (Some "right-source", Some "left-target")
  ∧ handlesOf (enhanceEdge pairPositions pairEdges (exit "ba" "b" "a"))
    = (Some "bottom-source", Some "bottom-target").
Proof.
  assert (pairPositions !! "a" = Some (NodePosition.mk 0 0)) as Ha
    by apply lookup_insert_eq.
  assert (pairPositions !! "b" = Some (NodePosition.mk 10 3)) as Hb.
  { unfold pairPositions. rewrite lookup_insert_ne by discriminate.
    apply lookup_insert_eq. }
  assert (Rabs (10 - 0) >= Rabs (3 - 0)) as H1
    by (unfold Rabs; repeat destruct Rcase_abs; lra).
  assert (Rabs (0 - 10) >= Rabs (0 - 3)) as H2
    by (unfold Rabs; repeat destruct Rcase_abs; lra).
  split.
  - rewrite (enhanceEdge_handles pairPositions pairEdges (exit "ab" "a" "b") _ _ Ha Hb).
    unfold chooseHandles. cbn. change (string_gt "a" "b") with false.
    repeat case_decide; lra || done.
  - rewrite (enhanceEdge_handles pairPositions pairEdges (exit "ba" "b" "a") _ _ Hb Ha).
    unfold chooseHandles. cbn. change (string_gt "b" "a") with true.
    repeat case_decide; lra || done.
Qed.

(** A single room without exits is a root. *)
Example scenario_single_room :
  rootsOf [room "1" 4 2] (@nil (Edge.t unit)) None = ["1"].
Proof. vm_compute. reflexivity. Qed.

(** ** Witnesses and counterexamples *)

(** C1: the theorem at the tree, with an exit to a room that is not there
    and with its own exits. *)
Lemma dangling_edge_throws_witness :
  calculateAutoLayout treeNodes [exit "e9" "1" "9"] None = TypeError
  ∧ ∃ r, calculateAutoLayout treeNodes treeEdges None = Returned r.
Proof.
  split.
  - apply (proj1 (dangling_edge_throws treeNodes [exit "e9" "1" "9"] None)).
    apply Exists_cons_hd. right. unfold nodeIds. cbn. absent_from_list.
  - apply (proj2 (dangling_edge_throws treeNodes treeEdges None)).
    exact tree_wellformed.
Defined.

(** C1 fails as stated: with a dangling edge the call does not complete. *)
Lemma dangling_edge_not_skipped :
  Exists (dangling treeNodes) (treeEdges ++ [exit "e9" "1" "9"])
  ∧ ¬ ∃ r, calculateAutoLayout treeNodes (treeEdges ++ [exit "e9" "1" "9"]) None
           = Returned r.
Proof.
  assert (Exists (dangling treeNodes) (treeEdges ++ [exit "e9" "1" "9"])) as Hex.
  { apply Exists_app. right. apply Exists_cons_hd. right. unfold nodeIds. cbn.
    absent_from_list. }
  split; [exact Hex|]. intros [r Hr].
  rewrite (layout_throws _ _ None Hex) in Hr. discriminate Hr.
Qed.

(** C3: the theorem at the tree, for room 2, the first of the two children
    of room 1. *)
Lemma child_placement_witness :
  ∃ r, calculateAutoLayout treeNodes treeEdges None = Returned r
       ∧ nodePositions r !! "2"
         = Some {| NodePosition.x :=
                     NodePosition.x (rootPosition 0) + 150 * cos (PI / (INR 2 + 1) * INR 1);
                   NodePosition.y :=
                     NodePosition.y (rootPosition 0) + 200 * sin (PI / (INR 2 + 1) * INR 1) |}.
Proof.
  destruct (layout_returns treeNodes treeEdges None tree_wellformed) as [r Hr].
  exists r. split; [exact Hr|].
  pose proof (child_placement treeNodes treeEdges None r treeIn treeOut 0
                "1" [] (rootPosition 0) 0 "2" Hr tree_graph) as H.
  cbv zeta in H. rewrite tree_children in H. apply H.
  - exact tree_queue.
  - exact tree_parent.
  - reflexivity.
  - cbn. absent_from_list.
Defined.

(** C3 fails as stated: room 2 is not returned on the circle of radius
    [horizontalSpacing] around room 1. *)
Lemma child_not_on_circle :
  ∃ r, calculateAutoLayout treeNodes treeEdges None = Returned r
       ∧ nodePositions r !! "1" = Some (rootPosition 0)
       ∧ nodePositions r !! "2"
         ≠ Some (circlePosition horizontalSpacing (rootPosition 0) 2 1).
Proof.
  destruct (layout_returns treeNodes treeEdges None tree_wellformed) as [r Hr].
  exists r. split; [exact Hr|]. split.
  - apply (layout_root_position treeNodes treeEdges None r 0 "1" Hr).
    + rewrite tree_roots. reflexivity.
    + rewrite tree_roots. cbn. apply not_elem_of_nil.
  - pose proof (layout_child_position treeNodes treeEdges None r treeIn treeOut 0
                  "1" [] (rootPosition 0) 0 "2" Hr tree_graph) as H.
    cbv zeta in H. rewrite tree_children in H. rewrite H.
    + change (length ["2"; "3"]) with 2%nat.
      rewrite childPosition_eq. unfold circlePosition, horizontalSpacing.
      replace (PI / (INR 2 + 1) * INR 1) with (PI / 3) by (cbn; lra).
      rewrite cos_PI3. intros [= Hx Hy]. lra.
    + exact tree_queue.
    + exact tree_parent.
    + reflexivity.
    + cbn. absent_from_list.
Qed.


(** C5: the theorem at the tree. *)
Lemma root_selection_witness :
  let roots := rootsOf treeNodes treeEdges None in
  let zeroIn := sourceNodes treeNodes treeEdges in
  (∀ s, @None string = Some s → s ≠ "" → s ∈ nodeIds treeNodes → roots = [s])
  ∧ (@None string = None ∨ @None string = Some ""
     ∨ (∃ s, @None string = Some s ∧ s ∉ nodeIds treeNodes) →
     (zeroIn ≠ [] → roots = zeroIn)
     ∧ (zeroIn = [] → ∀ first rest, treeNodes = first :: rest → roots = [Node.id first])
     ∧ (treeNodes = [] → roots = [])).
Proof. apply (root_selection treeNodes treeEdges None tree_wellformed). Defined.

(** C5 fails as stated: the start node [""] is given and is the id of a
    node, and the only root is room b. *)
Lemma empty_start_node_ignored :
  "" ∈ nodeIds namelessNodes
  ∧ Forall (fun e => ¬ dangling namelessNodes e) namelessEdges
  ∧ rootsOf namelessNodes namelessEdges (Some "") = ["b"]
  ∧ rootsOf namelessNodes namelessEdges (Some "") ≠ [""].
Proof.
  split_and!.
  - by left.
  - apply Forall_forall. intros e He [H|H]; apply H; unfold nodeIds; cbn;
      repeat (apply elem_of_cons in He as [->|He]; [cbn; set_solver|]);
      by apply elem_of_nil in He.
  - vm_compute. reflexivity.
  - vm_compute. discriminate.
Qed.

(** C6: the theorem at the tree. *)
Lemma layout_covers_all_nodes_witness :
  ∃ r, calculateAutoLayout treeNodes treeEdges None = Returned r
       ∧ ∀ node, node ∈ treeNodes → is_Some (nodePositions r !! Node.id node).
Proof. apply (layout_covers_all_nodes treeNodes treeEdges None tree_wellformed). Defined.


(** C8: the theorem at the tree, for rooms 2 and 3, the two children of
    room 1, which is at (0, 100): they are returned at the angles [PI / 3]
    and [2 * PI / 3]. *)
Lemma siblings_distinct_witness :
  let angle := fun index : nat => PI / (INR 2 + 1) * INR (S index) in
  let place := fun index : nat =>
    {| NodePosition.x := NodePosition.x (rootPosition 0) + 150 * cos (angle index);
       NodePosition.y := NodePosition.y (rootPosition 0) + 200 * sin (angle index) |} in
  ∃ r, calculateAutoLayout treeNodes treeEdges None = Returned r
       ∧ nodePositions r !! "2" = Some (place 0%nat)
       ∧ nodePositions r !! "3" = Some (place 1%nat)
       ∧ place 0%nat ≠ place 1%nat.
Proof.
  intros angle place.
  destruct (layout_returns treeNodes treeEdges None tree_wellformed) as [r Hr].
  pose proof (siblings_distinct treeNodes treeEdges None r treeIn treeOut 0
                "1" [] (rootPosition 0) "2" "3" Hr tree_graph) as H.
  cbv zeta in H. rewrite tree_children in H.
  destruct H as [(i1 & i2 & [Hi1 _] & [Hi2 _] & _ & _ & H1 & H2 & _) Hall].
  - exact tree_queue.
  - exact tree_parent.
  - by left.
  - right. by left.
  - discriminate.
  - assert (i1 = 0%nat) as ->.
    { destruct i1 as [|[|[|?]]]; [done|discriminate Hi1..]. }
    assert (i2 = 1%nat) as ->.
    { destruct i2 as [|[|[|?]]]; [discriminate Hi2|done|discriminate Hi2..]. }
    exists r. split_and!; [exact Hr|exact H1|exact H2|].
    apply (Hall 0%nat 1%nat); cbn; lia.
Defined.

(** C9: the theorem at the tree.  Its exits are returned with both ends
    positioned; the step alone returns an exit to a room 9 without position
    as it is; as an exit of the tree it makes the call raise. *)
Lemma unresolved_edge_outcome_witness :
  enhanceEdge pairPositions treeEdges (exit "az" "a" "z") = exit "az" "a" "z"
  ∧ calculateAutoLayout treeNodes [exit "e9" "1" "9"] None = TypeError
  ∧ ∃ r, calculateAutoLayout treeNodes treeEdges None = Returned r
         ∧ is_Some (nodePositions r !! "1") ∧ is_Some (nodePositions r !! "2").
Proof.
  split_and!.
  - apply (proj1 (unresolved_edge_outcome treeNodes treeEdges None)).
    right. unfold pairPositions. cbn.
    rewrite !lookup_insert_ne by discriminate. apply lookup_empty.
  - apply (proj1 (proj2 (unresolved_edge_outcome treeNodes [exit "e9" "1" "9"] None))
             (exit "e9" "1" "9")).
    + by left.
    + right. vm_compute. reflexivity.
  - destruct (layout_returns treeNodes treeEdges None tree_wellformed) as [r Hr].
    exists r. split; [exact Hr|].
    apply (proj2 (proj2 (proj2 (unresolved_edge_outcome treeNodes treeEdges None)) r Hr)
             (exit "e1" "1" "2")).
    by left.
Defined.

(** C9 fails as stated: room 9 never has a position, and the call does not
    return the exit from room 1 to room 9 unchanged, it raises. *)
Lemma unresolved_edge_raises :
  let edge := exit "e9" "1" "9" in
  (initTables treeNodes).2 !! Edge.target edge = None
  ∧ calculateAutoLayout treeNodes [edge] None = TypeError
  ∧ ¬ ∃ r, calculateAutoLayout treeNodes [edge] None = Returned r
           ∧ edge ∈ enhancedEdges r.
Proof.
  assert (calculateAutoLayout treeNodes [exit "e9" "1" "9"] None = TypeError) as Hthrow.
  { apply layout_throws, Exists_cons_hd. right. unfold nodeIds. cbn. absent_from_list. }
  split_and!.
  - vm_compute. reflexivity.
  - exact Hthrow.
  - intros (r & Hr & _). cbv zeta in Hr. rewrite Hthrow in Hr. discriminate Hr.
Qed.

(** C10: the theorem at the tree. *)
Lemma edges_preserved_witness :
  ∃ r, calculateAutoLayout treeNodes treeEdges None = Returned r
       ∧ length (enhancedEdges r) = length treeEdges
       ∧ Forall2 sameButHandles treeEdges (enhancedEdges r).
Proof.
  destruct (layout_returns treeNodes treeEdges None tree_wellformed) as [r Hr].
  exists r. split; [exact Hr|].
  apply (edges_preserved treeNodes treeEdges None r Hr).
Defined.

(** * Further properties *)

Section FurtherProperties.
Context {ND ED : Type}.

#[local] Abbreviation Node := (Node.t ND).
#[local] Abbreviation Edge := (Edge.t ED).
Implicit Types (allNodes remaining : list Node) (allEdges : list Edge) (edge : Edge).
Implicit Types (gIn gOut : GraphConnections) (np : gmap string NodePosition.t).
Implicit Types (sourcePos targetPos : NodePosition.t).

(** *** Graphs that were built *)
Lemma dangling_dec allNodes edge : Decision (dangling allNodes edge).
Proof. unfold dangling. apply _. Qed.

(** The adjacency maps are built only for edges between supplied nodes. *)
Lemma graphOf_returned_wellformed allNodes allEdges gIn gOut :
  graphOf allNodes allEdges = Returned (gIn, gOut) →
  Forall (fun e => ¬ dangling allNodes e) allEdges.
Proof.
  intros Hg. apply Forall_forall. intros e He Hd.
  assert (Exists (dangling allNodes) allEdges) as Hex
    by (apply Exists_exists; eauto).
  unfold graphOf in Hg. by rewrite (graph_dangling _ _ Hex) in Hg.
Qed.

Lemma graphOf_lookup allNodes allEdges gIn gOut :
  graphOf allNodes allEdges = Returned (gIn, gOut) →
  (∀ k, gIn !! k = if decide (k ∈ nodeIds allNodes)
                   then Some (sourcesInto allEdges k) else None)
  ∧ (∀ k, gOut !! k = if decide (k ∈ nodeIds allNodes)
                      then Some (targetsFrom allEdges k) else None).
Proof.
  intros Hg.
  destruct (graph_wellformed allNodes allEdges
              (graphOf_returned_wellformed _ _ _ _ Hg)) as (gIn' & gOut' & Hg' & H1 & H2).
  unfold graphOf in Hg. rewrite Hg in Hg'. by simplify_eq.
Qed.

Lemma targetsFrom_nodes allNodes allEdges k c :
  Forall (fun e => ¬ dangling allNodes e) allEdges →
  c ∈ targetsFrom allEdges k → c ∈ nodeIds allNodes.
Proof.
  intros Hwf Hc. unfold targetsFrom in Hc.
  apply list_elem_of_fmap in Hc as (e & -> & He).
  apply list_elem_of_filter in He as [_ He].
  rewrite Forall_forall in Hwf. specialize (Hwf e He). unfold dangling in Hwf.
  destruct (decide (Edge.target e ∈ nodeIds allNodes)); [done|]. exfalso. auto.
Qed.

Lemma rootNodeIds_nodes allNodes gIn startNodeId k :
  k ∈ rootNodeIds allNodes gIn startNodeId → k ∈ nodeIds allNodes.
Proof.
  unfold rootNodeIds, chosenStart.
  assert (∀ k, k ∈ noIncoming gIn allNodes → k ∈ nodeIds allNodes) as Hno.
  { intros k'. unfold noIncoming, nodeIds. rewrite !list_elem_of_fmap.
    intros (node & -> & [_ Hin]%list_elem_of_filter). eauto. }
  assert (k ∈ match noIncoming gIn allNodes, allNodes with
              | [], first :: _ => [Node.id first]
              | roots, _ => roots
              end → k ∈ nodeIds allNodes) as Hrest.
  { destruct (noIncoming gIn allNodes) as [|a l] eqn:Hn.
    - destruct allNodes as [|first rest]; [by intros ?%elem_of_nil|].
      intros ->%list_elem_of_singleton. unfold nodeIds. cbn. by left.
    - intros Hk. apply Hno. by destruct allNodes. }
  destruct startNodeId as [s|]; [|exact Hrest].
  destruct (truthy s && hasNode allNodes s) eqn:Hs; [|exact Hrest].
  intros ->%list_elem_of_singleton. apply hasNode_true.
  by apply andb_prop in Hs as [_ ?].
Qed.

Lemma placeChildren_lookup parentPos n children : ∀ index w k,
  is_Some (positions (placeChildren parentPos n index children w) !! k) →
  is_Some (positions w !! k) ∨ k ∈ children.
Proof.
  induction children as [|c children IH]; intros index w k Hk; [by left|].
  cbn in Hk. apply IH in Hk as [Hk|Hk]; [|right; by right].
  cbn in Hk. rewrite lookup_insert in Hk.
  case_decide; [subst; right; by left|by left].
Qed.

Lemma placeChildren_placed parentPos n children : ∀ index w k,
  k ∈ children →
  is_Some (positions (placeChildren parentPos n index children w) !! k).
Proof.
  induction children as [|c children IH]; intros index w k Hk;
    [by apply elem_of_nil in Hk|].
  cbn. destruct (decide (k ∈ children)) as [Hin|Hnin]; [by apply IH|].
  apply elem_of_cons in Hk as [->|?]; [|done].
  apply placeChildren_is_Some. cbn. rewrite lookup_insert_eq. eauto.
Qed.

Lemma bfsStep_lookup gOut w k :
  is_Some (positions (bfsStep gOut w) !! k) →
  is_Some (positions w !! k) ∨ k ∈ stepChildren gOut w.
Proof.
  unfold bfsStep, stepChildren. destruct (queue w) as [|cur rest]; [by left|].
  destruct (positions w !! cur); [|by left].
  case_decide; [|by left]. intros Hk. by apply placeChildren_lookup in Hk.
Qed.

Lemma bfsStep_placed gOut w k :
  k ∈ stepChildren gOut w → is_Some (positions (bfsStep gOut w) !! k).
Proof.
  unfold bfsStep, stepChildren. destruct (queue w) as [|cur rest];
    [by intros ?%elem_of_nil|].
  destruct (positions w !! cur); [|by intros ?%elem_of_nil].
  intros Hk. rewrite decide_True.
  - by apply placeChildren_placed.
  - destruct (childrenOf _ _ _); [by apply elem_of_nil in Hk|cbn; lia].
Qed.

Lemma stepChildren_targets gOut w k :
  k ∈ stepChildren gOut w →
  ∃ currentId rest outs,
    queue w = currentId :: rest ∧ gOut !! currentId = Some outs ∧ k ∈ outs.
Proof.
  unfold stepChildren, childrenOf. destruct (queue w) as [|cur rest];
    [by intros ?%elem_of_nil|].
  destruct (positions w !! cur); [|by intros ?%elem_of_nil].
  destruct (gOut !! cur) as [outs|] eqn:Hout; [|by intros ?%elem_of_nil].
  intros [_ Hk]%list_elem_of_filter. by exists cur, rest, outs.
Qed.

Lemma bfsStep_sound allNodes allEdges gIn gOut w :
  graphOf allNodes allEdges = Returned (gIn, gOut) →
  walkSound allNodes w → walkSound allNodes (bfsStep gOut w).
Proof.
  intros Hg (Hq & Hp & Hn).
  pose proof (graphOf_returned_wellformed _ _ _ _ Hg) as Hwf.
  destruct (graphOf_lookup _ _ _ _ Hg) as [_ Hout].
  split_and!.
  - intros k. rewrite bfsStep_queue, bfsStep_positionedIds, elem_of_app.
    intros [Hk|Hk].
    + apply elem_of_union_r, Hq. destruct (queue w); [done|by right].
    + by apply elem_of_union_l, elem_of_list_to_set.
  - intros k. rewrite bfsStep_positionedIds, elem_of_union, elem_of_list_to_set.
    intros [Hk|Hk]; [by apply bfsStep_placed|]. by apply bfsStep_is_Some, Hp.
  - intros k Hk. apply bfsStep_lookup in Hk as [Hk|Hk]; [by apply Hn|].
    apply stepChildren_targets in Hk as (cur & rest & outs & _ & Ho & Hk).
    rewrite Hout in Ho. case_decide; [|done]. simplify_eq.
    by eapply targetsFrom_nodes.
Qed.

Lemma placeRoots_lookup roots : ∀ index np k,
  is_Some (placeRoots index roots np !! k) → is_Some (np !! k) ∨ k ∈ roots.
Proof.
  induction roots as [|r roots IH]; intros index np k Hk; [by left|].
  cbn in Hk. apply IH in Hk as [Hk|Hk]; [|right; by right].
  rewrite lookup_insert in Hk. case_decide; [subst; right; by left|by left].
Qed.

Lemma placeRoots_placed roots : ∀ index np k,
  k ∈ roots → is_Some (placeRoots index roots np !! k).
Proof.
  induction roots as [|r roots IH]; intros index np k Hk;
    [by apply elem_of_nil in Hk|].
  cbn. destruct (decide (k ∈ roots)) as [Hin|Hnin]; [by apply IH|].
  apply elem_of_cons in Hk as [->|?]; [|done].
  apply placeRoots_is_Some. rewrite lookup_insert_eq. eauto.
Qed.

Lemma startWalk_sound allNodes gIn startNodeId :
  walkSound allNodes (startWalk allNodes gIn startNodeId).
Proof.
  split_and!; cbn.
  - intros k Hk. by apply elem_of_list_to_set.
  - intros k Hk%elem_of_list_to_set. by apply placeRoots_placed.
  - intros k Hk. apply placeRoots_lookup in Hk as [Hk|Hk].
    + by apply initTables_lookup.
    + by eapply rootNodeIds_nodes.
Qed.

Lemma walkAt_sound allNodes allEdges gIn gOut startNodeId m :
  graphOf allNodes allEdges = Returned (gIn, gOut) →
  walkSound allNodes (walkAt allNodes gIn gOut startNodeId m).
Proof.
  intros Hg. induction m as [|m IH]; [apply startWalk_sound|].
  change (walkAt allNodes gIn gOut startNodeId (S m))
    with (bfsStep gOut (walkAt allNodes gIn gOut startNodeId m)).
  by eapply bfsStep_sound.
Qed.

(** *** The end of the loop *)
Lemma bfsStep_done gOut w : queue w = [] → bfsStep gOut w = w.
Proof. intros Hq. unfold bfsStep. by rewrite Hq. Qed.

Lemma iter_done gOut m w : queue w = [] → Nat.iter m (bfsStep gOut) w = w.
Proof.
  intros Hq. induction m as [|m IH]; [done|].
  rewrite Nat.iter_succ, IH. by apply bfsStep_done.
Qed.

Lemma bfs_Some_iter fuel gOut : ∀ w w',
  bfs fuel gOut w = Some w' → w' = Nat.iter fuel (bfsStep gOut) w ∧ queue w' = [].
Proof.
  induction fuel as [|fuel IH]; intros w w' Hrun; cbn in Hrun.
  - destruct (queue w) eqn:Hq; [|done]. by simplify_eq.
  - destruct (queue w) eqn:Hq.
    + simplify_eq. split; [|done]. symmetry. by apply (iter_done gOut (S fuel)).
    + rewrite Nat.iter_succ_r. by apply IH.
Qed.

Lemma totalOut_insert gOut k outs c :
  gOut !! k = Some outs →
  totalOut (<[k := outs ++ [c]]> gOut) = S (totalOut gOut).
Proof.
  intros Hk. unfold totalOut.
  rewrite <- (insert_delete_eq gOut k (outs ++ [c])).
  rewrite (sum_list_Permutation _ _
    (fmap_Permutation _ _ _ (map_to_list_insert (delete k gOut) k (outs ++ [c])
                               (lookup_delete_eq gOut k)))).
  rewrite <- (sum_list_Permutation _ _
    (fmap_Permutation (fun kl => length kl.2) _ _ (map_to_list_delete gOut k outs Hk))).
  cbn. rewrite length_app. cbn. rewrite Nat.add_1_r. reflexivity.
Qed.

Lemma fillConnections_totalOut allEdges : ∀ gIn gOut gIn' gOut',
  fillConnections (gIn, gOut) allEdges = Returned (gIn', gOut') →
  totalOut gOut' = (totalOut gOut + length allEdges)%nat.
Proof.
  induction allEdges as [|e allEdges IH]; intros gIn gOut gIn' gOut' Hrun; cbn in Hrun.
  - simplify_eq. cbn. lia.
  - destruct (gOut !! Edge.source e) as [outs|] eqn:Ho; [|done].
    destruct (gIn !! Edge.target e) as [ins|] eqn:Hi; [|done].
    cbn in Hrun. apply IH in Hrun. rewrite Hrun, (totalOut_insert _ _ _ _ Ho).
    cbn. lia.
Qed.

Lemma totalOut_init allNodes : totalOut (initTables allNodes).1.2 = 0%nat.
Proof.
  unfold totalOut.
  assert (Forall (fun kl : string * list string => kl.2 = [])
            (map_to_list (initTables allNodes).1.2)) as Hall.
  { apply Forall_forall. intros [k l] Hkl. apply elem_of_map_to_list in Hkl.
    destruct (initTables_lookup allNodes k) as (_ & H2 & _). rewrite H2 in Hkl.
    case_decide; by simplify_eq. }
  induction Hall as [|kl kls Hkl _ IH]; [done|]. cbn. rewrite Hkl. cbn. exact IH.
Qed.

Lemma graphOf_totalOut allNodes allEdges gIn gOut :
  graphOf allNodes allEdges = Returned (gIn, gOut) → totalOut gOut = length allEdges.
Proof.
  unfold graphOf. destruct (initTables allNodes) as [[gIn0 gOut0] np0] eqn:Hinit.
  intros Hg. cbn in Hg. apply fillConnections_totalOut in Hg. rewrite Hg.
  pose proof (totalOut_init allNodes) as H0. rewrite Hinit in H0. cbn in H0. lia.
Qed.

Lemma endWalk_run allNodes allEdges gIn gOut startNodeId :
  graphOf allNodes allEdges = Returned (gIn, gOut) →
  bfs (bfsFuel gOut (rootNodeIds allNodes gIn startNodeId)) gOut
      (startWalk allNodes gIn startNodeId)
  = Some (endWalk allNodes gIn gOut startNodeId)
  ∧ queue (endWalk allNodes gIn gOut startNodeId) = [].
Proof.
  intros Hg.
  destruct (bfs_start_fuel gOut (rootNodeIds allNodes gIn startNodeId)
              (placeRoots 0 (rootNodeIds allNodes gIn startNodeId) (initTables allNodes).2))
    as [w Hw].
  change (bfs (bfsFuel gOut (rootNodeIds allNodes gIn startNodeId)) gOut
            (startWalk allNodes gIn startNodeId) = Some w) in Hw.
  destruct (bfs_Some_iter _ _ _ _ Hw) as [-> Hq]. by split.
Qed.

Lemma layout_end allNodes allEdges startNodeId r gIn gOut :
  calculateAutoLayout allNodes allEdges startNodeId = Returned r →
  graphOf allNodes allEdges = Returned (gIn, gOut) →
  r = finish allNodes allEdges (endWalk allNodes gIn gOut startNodeId).
Proof.
  intros Hr Hg.
  destruct (layout_returned_inv _ _ _ _ Hr) as (gIn' & gOut' & w & Hg' & Hrun & ->).
  rewrite Hg in Hg'. simplify_eq.
  destruct (endWalk_run allNodes allEdges gIn' gOut' startNodeId Hg) as [Hend _].
  rewrite Hend in Hrun. by simplify_eq.
Qed.

Lemma walkAt_mono allNodes gIn gOut startNodeId m n :
  positionedIds (walkAt allNodes gIn gOut startNodeId m)
  ⊆ positionedIds (walkAt allNodes gIn gOut startNodeId (m + n)).
Proof.
  induction n as [|n IH]; [by rewrite Nat.add_0_r|].
  rewrite Nat.add_succ_r.
  change (walkAt allNodes gIn gOut startNodeId (S (m + n)))
    with (bfsStep gOut (walkAt allNodes gIn gOut startNodeId (m + n))).
  rewrite bfsStep_positionedIds. set_solver.
Qed.

Lemma walkAt_end allNodes allEdges gIn gOut startNodeId m :
  graphOf allNodes allEdges = Returned (gIn, gOut) →
  positionedIds (walkAt allNodes gIn gOut startNodeId m)
  ⊆ positionedIds (endWalk allNodes gIn gOut startNodeId).
Proof.
  intros Hg. destruct (endWalk_run _ _ _ _ startNodeId Hg) as [_ Hq].
  pose proof (walkAt_mono allNodes gIn gOut startNodeId m
                (bfsFuel gOut (rootNodeIds allNodes gIn startNodeId))) as H1.
  pose proof (iter_done gOut m _ Hq) as H2.
  assert (walkAt allNodes gIn gOut startNodeId
            (m + bfsFuel gOut (rootNodeIds allNodes gIn startNodeId))
          = endWalk allNodes gIn gOut startNodeId) as Heq.
  { unfold endWalk, walkAt in *. by rewrite Nat.iter_add. }
  by rewrite Heq in H1.
Qed.

Lemma bfsStep_closed allNodes gOut w :
  walkSound allNodes w → walkClosed gOut w → walkClosed gOut (bfsStep gOut w).
Proof.
  intros (Hq & Hp & _) Hc p outs c.
  rewrite bfsStep_queue, bfsStep_positionedIds.
  rewrite !elem_of_union, !elem_of_list_to_set, elem_of_app.
  intros [Hsc|Hpos] Hnq Hout Hin; [exfalso; auto|].
  destruct (decide (c ∈ positionedIds w)) as [|Hnc]; [by right|].
  destruct (queue w) as [|cur rest] eqn:Hqw.
  - exfalso. apply Hnc. eapply Hc; eauto. rewrite Hqw. apply not_elem_of_nil.
  - destruct (decide (p = cur)) as [->|Hne].
    + left. unfold stepChildren. rewrite Hqw.
      destruct (Hp cur) as [pp Hpp]; [apply Hq; by left|]. rewrite Hpp.
      unfold childrenOf. rewrite Hout. by apply list_elem_of_filter.
    + exfalso. apply Hnc. eapply Hc; eauto. rewrite Hqw.
      intros [?|?]%elem_of_cons; [done|]. cbn in Hnq. auto.
Qed.

Lemma walkAt_closed allNodes allEdges gIn gOut startNodeId m :
  graphOf allNodes allEdges = Returned (gIn, gOut) →
  walkClosed gOut (walkAt allNodes gIn gOut startNodeId m).
Proof.
  intros Hg. induction m as [|m IH].
  - intros p outs c Hp Hnq. cbn in *. by apply elem_of_list_to_set in Hp.
  - change (walkAt allNodes gIn gOut startNodeId (S m))
      with (bfsStep gOut (walkAt allNodes gIn gOut startNodeId m)).
    eapply bfsStep_closed; [by eapply walkAt_sound|done].
Qed.

Lemma positioned_reachable allNodes allEdges gIn gOut startNodeId m k :
  graphOf allNodes allEdges = Returned (gIn, gOut) →
  k ∈ positionedIds (walkAt allNodes gIn gOut startNodeId m) →
  reachable allEdges (rootNodeIds allNodes gIn startNodeId) k.
Proof.
  intros Hg. destruct (graphOf_lookup _ _ _ _ Hg) as [_ Hout].
  revert k. induction m as [|m IH]; intros k Hk.
  - apply reach_root. cbn in Hk. by apply elem_of_list_to_set in Hk.
  - change (walkAt allNodes gIn gOut startNodeId (S m))
      with (bfsStep gOut (walkAt allNodes gIn gOut startNodeId m)) in Hk.
    rewrite bfsStep_positionedIds, elem_of_union, elem_of_list_to_set in Hk.
    destruct Hk as [Hk|Hk]; [|by apply IH].
    apply stepChildren_targets in Hk as (cur & rest & outs & Hq & Ho & Hk).
    rewrite Hout in Ho. case_decide; [|done]. simplify_eq.
    unfold targetsFrom in Hk. apply list_elem_of_fmap in Hk as (e & -> & He).
    apply list_elem_of_filter in He as [<- He].
    apply reach_edge; [done|]. apply IH.
    destruct (walkAt_sound allNodes allEdges gIn gOut startNodeId m Hg) as (Hsq & _).
    apply Hsq. rewrite Hq. by left.
Qed.

Lemma reachable_positioned allNodes allEdges gIn gOut startNodeId k :
  graphOf allNodes allEdges = Returned (gIn, gOut) →
  reachable allEdges (rootNodeIds allNodes gIn startNodeId) k →
  k ∈ positionedIds (endWalk allNodes gIn gOut startNodeId).
Proof.
  intros Hg. destruct (graphOf_lookup _ _ _ _ Hg) as [_ Hout].
  pose proof (graphOf_returned_wellformed _ _ _ _ Hg) as Hwf.
  destruct (endWalk_run _ _ _ _ startNodeId Hg) as [_ Hq].
  induction 1 as [k Hk|e He Hsrc IH].
  - apply (walkAt_end allNodes allEdges gIn gOut startNodeId 0 Hg).
    cbn. by apply elem_of_list_to_set.
  - pose proof (walkAt_closed allNodes allEdges gIn gOut startNodeId
                  (bfsFuel gOut (rootNodeIds allNodes gIn startNodeId)) Hg) as Hc.
    change (walkClosed gOut (endWalk allNodes gIn gOut startNodeId)) in Hc.
    eapply Hc; [exact IH|rewrite Hq; apply not_elem_of_nil| |].
    + rewrite Hout. rewrite decide_True; [done|].
      rewrite Forall_forall in Hwf. specialize (Hwf e He). unfold dangling in Hwf.
      destruct (decide (Edge.source e ∈ nodeIds allNodes)); [done|]. exfalso. auto.
    + unfold targetsFrom. apply list_elem_of_fmap. exists e. split; [done|].
      by apply list_elem_of_filter.
Qed.

Lemma placeRemaining_lookup (remaining : list Node) : ∀ index np k,
  is_Some (placeRemaining index remaining np !! k) →
  is_Some (np !! k) ∨ k ∈ nodeIds remaining.
Proof.
  induction remaining as [|node remaining IH]; intros index np k Hk; [by left|].
  cbn in Hk. apply IH in Hk as [Hk|Hk]; [|right; unfold nodeIds; cbn; by right].
  rewrite lookup_insert in Hk.
  case_decide; [subst; right; unfold nodeIds; cbn; by left|by left].
Qed.

(** X1. When the adjacency maps are built, [graphIn[k]] lists the sources of
    the edges into [k] and [graphOut[k]] the targets of the edges out of
    [k], in the order of [allEdges], parallel edges counted once each; the
    maps have an entry for the supplied nodes and for nothing else. *)
Theorem adjacency_maps allNodes allEdges gIn gOut k :
  graphOf allNodes allEdges = Returned (gIn, gOut) →
  (k ∈ nodeIds allNodes →
     gIn !! k = Some (Edge.source <$> filter (fun e => Edge.target e = k) allEdges)
     ∧ gOut !! k = Some (Edge.target <$> filter (fun e => Edge.source e = k) allEdges))
  ∧ (k ∉ nodeIds allNodes → gIn !! k = None ∧ gOut !! k = None).
Proof.
  intros Hg. destruct (graphOf_lookup _ _ _ _ Hg) as [HIn HOut].
  split; intros Hk; rewrite HIn, HOut.
  - by rewrite !decide_True.
  - by rewrite !decide_False.
Qed.

(** X2. The traversal loop is over after at most as many iterations as
    there are roots and edges: by then the queue is empty and further
    iterations change nothing. *)
Theorem traversal_ends allNodes allEdges gIn gOut startNodeId m :
  graphOf allNodes allEdges = Returned (gIn, gOut) →
  (length (rootNodeIds allNodes gIn startNodeId) + length allEdges ≤ m)%nat →
  queue (walkAt allNodes gIn gOut startNodeId m) = []
  ∧ walkAt allNodes gIn gOut startNodeId m
    = walkAt allNodes gIn gOut startNodeId
        (length (rootNodeIds allNodes gIn startNodeId) + length allEdges).
Proof.
  intros Hg Hm. destruct (endWalk_run _ _ _ _ startNodeId Hg) as [_ Hq].
  unfold endWalk, bfsFuel in Hq. rewrite (graphOf_totalOut _ _ _ _ Hg) in Hq.
  set (bound := (length (rootNodeIds allNodes gIn startNodeId) + length allEdges)%nat) in *.
  assert (walkAt allNodes gIn gOut startNodeId m
          = walkAt allNodes gIn gOut startNodeId bound) as Heq.
  { replace m with ((m - bound) + bound)%nat by lia.
    unfold walkAt in *. rewrite Nat.iter_add. by apply iter_done. }
  by rewrite Heq.
Qed.

(** X3. The traversal positions exactly the nodes that can be reached from
    the roots along the edges; all other nodes are left for the fallback
    placement. *)
Theorem traversal_reach allNodes allEdges startNodeId r gIn gOut :
  calculateAutoLayout allNodes allEdges startNodeId = Returned r →
  graphOf allNodes allEdges = Returned (gIn, gOut) →
  let w := endWalk allNodes gIn gOut startNodeId in
  r = finish allNodes allEdges w
  ∧ ∀ k, k ∈ positionedIds w
         ↔ reachable allEdges (rootNodeIds allNodes gIn startNodeId) k.
Proof.
  intros Hr Hg w. split; [by apply layout_end|].
  intros k. split.
  - by apply (positioned_reachable allNodes allEdges gIn gOut startNodeId).
  - by apply reachable_positioned.
Qed.

Lemma layout_dom allNodes allEdges startNodeId r :
  calculateAutoLayout allNodes allEdges startNodeId = Returned r →
  dom (nodePositions r) = list_to_set (nodeIds allNodes).
Proof.
  intros Hr.
  destruct (layout_returned_inv _ _ _ _ Hr) as (gIn & gOut & w & Hg & Hrun & ->).
  apply set_eq. intros k. rewrite elem_of_dom, elem_of_list_to_set. split.
  - cbn. intros Hk. apply placeRemaining_lookup in Hk as [Hk|Hk].
    + destruct (bfs_Some_iter _ _ _ _ Hrun) as [-> _].
      by apply (walkAt_sound allNodes allEdges gIn gOut startNodeId
                  (bfsFuel gOut (rootNodeIds allNodes gIn startNodeId)) Hg).
    + unfold nodeIds in *. apply list_elem_of_fmap in Hk as (node & -> & Hn).
      apply list_elem_of_filter in Hn as [_ Hn]. apply list_elem_of_fmap. eauto.
  - intros Hk. by eapply finish_covers.
Qed.

(** X4. The keys of the returned map are the ids of the supplied nodes, no
    more and no less: a key is in the map exactly when a node has it as its
    id. *)
Theorem layout_keys allNodes allEdges startNodeId r k :
  calculateAutoLayout allNodes allEdges startNodeId = Returned r →
  is_Some (nodePositions r !! k) ↔ k ∈ nodeIds allNodes.
Proof.
  intros Hr. rewrite <- elem_of_dom, (layout_dom _ _ _ _ Hr).
  apply elem_of_list_to_set.
Qed.

(** X5. In a returned layout every edge has both handles set, to one of the
    four handles of the source side and one of the four handles of the
    target side; the handles the edge came with are not kept. *)
Theorem handles_assigned allNodes allEdges startNodeId r (e' : Edge) :
  calculateAutoLayout allNodes allEdges startNodeId = Returned r →
  e' ∈ enhancedEdges r →
  ∃ sh th, Edge.sourceHandle e' = Some sh ∧ Edge.targetHandle e' = Some th
           ∧ sh ∈ sourceSlots ∧ th ∈ targetSlots.
Proof.
  intros Hr He'.
  destruct (layout_returned_inv _ _ _ _ Hr) as (gIn & gOut & w & Hg & Hrun & ->).
  pose proof (graphOf_returned_wellformed _ _ _ _ Hg) as Hwf.
  cbn in He'. apply list_elem_of_fmap in He' as (e & -> & He).
  rewrite Forall_forall in Hwf. specialize (Hwf e He). unfold dangling in Hwf.
  assert (Edge.source e ∈ nodeIds allNodes) as Hs
    by (destruct (decide (Edge.source e ∈ nodeIds allNodes)); [done|exfalso; auto]).
  assert (Edge.target e ∈ nodeIds allNodes) as Ht
    by (destruct (decide (Edge.target e ∈ nodeIds allNodes)); [done|exfalso; auto]).
  destruct (finish_covers allNodes allEdges gIn startNodeId _ gOut w _ Hrun Hs) as [sp Hsp].
  destruct (finish_covers allNodes allEdges gIn startNodeId _ gOut w _ Hrun Ht) as [tp Htp].
  cbn in Hsp, Htp. unfold enhanceEdge. rewrite Hsp, Htp.
  destruct (chooseHandles allEdges e sp tp) as [sh th] eqn:Hch. cbn.
  exists sh, th. split_and!; [done|done| |];
    unfold chooseHandles in Hch; cbv zeta in Hch;
    repeat case_decide; destruct (hasReverseEdge allEdges e && _);
    simplify_eq; unfold sourceSlots, targetSlots; set_solver.
Qed.



(** X7. First writer wins: a node that the traversal has positioned stays
    where it is in all later iterations, and is returned there. *)
Theorem first_writer_wins allNodes allEdges startNodeId r gIn gOut m n k :
  calculateAutoLayout allNodes allEdges startNodeId = Returned r →
  graphOf allNodes allEdges = Returned (gIn, gOut) →
  k ∈ positionedIds (walkAt allNodes gIn gOut startNodeId m) →
  positions (walkAt allNodes gIn gOut startNodeId (m + n)) !! k
  = positions (walkAt allNodes gIn gOut startNodeId m) !! k
  ∧ nodePositions r !! k = positions (walkAt allNodes gIn gOut startNodeId m) !! k.
Proof.
  intros Hr Hg Hk. split; [|by apply (layout_keeps _ _ _ _ _ _ _ _ Hr Hg)].
  induction n as [|n IH]; [by rewrite Nat.add_0_r|].
  rewrite Nat.add_succ_r.
  change (walkAt allNodes gIn gOut startNodeId (S (m + n)))
    with (bfsStep gOut (walkAt allNodes gIn gOut startNodeId (m + n))).
  rewrite bfsStep_notin; [done|].
  intros Hin%stepChildren_unpositioned. apply Hin.
  by apply (walkAt_mono allNodes gIn gOut startNodeId m n).
Qed.

(** X8. Without nodes there is nothing to lay out: with no edges either,
    the empty layout is returned; with any edge, the call raises. *)
Theorem empty_node_set allEdges startNodeId :
  calculateAutoLayout (@nil Node) (@nil Edge) startNodeId
  = Returned {| nodePositions := ∅; enhancedEdges := [] |}
  ∧ (allEdges ≠ [] →
     calculateAutoLayout (@nil Node) allEdges startNodeId = TypeError).
Proof.
  split.
  - rewrite calculateAutoLayout_unfold. cbn.
    assert (rootNodeIds (@nil Node) ∅ startNodeId = []) as Hroots.
    { unfold rootNodeIds, chosenStart. destruct startNodeId as [s|]; [|done].
      cbn. by rewrite andb_false_r. }
    unfold startWalk. cbn. rewrite Hroots. cbn. done.
  - intros Hne. apply layout_throws. destruct allEdges as [|e rest]; [done|].
    apply Exists_cons_hd. left. unfold nodeIds. cbn. apply not_elem_of_nil.
Qed.

(** *** Roots *)
Lemma noIncoming_NoDup gIn allNodes :
  NoDup (nodeIds allNodes) → NoDup (noIncoming gIn allNodes).
Proof.
  unfold nodeIds, noIncoming. induction allNodes as [|a l IH]; [done|].
  intros Hnd. rewrite fmap_cons in Hnd. apply NoDup_cons in Hnd as [Ha Hl].
  rewrite filter_cons.
  case_decide; [|by apply IH]. rewrite fmap_cons. apply NoDup_cons.
  split; [|by apply IH].
  intros Hin. apply Ha. apply list_elem_of_fmap in Hin as (node & -> & Hn).
  apply list_elem_of_filter in Hn as [_ Hn]. apply list_elem_of_fmap. eauto.
Qed.

Lemma rootNodeIds_NoDup allNodes gIn startNodeId :
  NoDup (nodeIds allNodes) → NoDup (rootNodeIds allNodes gIn startNodeId).
Proof.
  intros Hnd. unfold rootNodeIds.
  destruct (chosenStart allNodes startNodeId); [apply NoDup_singleton|].
  pose proof (noIncoming_NoDup gIn allNodes Hnd) as Hno.
  destruct (noIncoming gIn allNodes); [|by destruct allNodes].
  destruct allNodes; [done|apply NoDup_singleton].
Qed.

Lemma NoDup_lookup_last (l : list string) i k :
  NoDup l → l !! i = Some k → k ∉ drop (S i) l.
Proof.
  intros Hnd Hi Hin. apply list_elem_of_lookup in Hin as [j Hj].
  rewrite lookup_drop in Hj.
  pose proof (NoDup_lookup l i (S i + j) k Hnd Hi Hj). lia.
Qed.

(** X9. When the ids of the nodes are distinct, root number [i] (from 0) is
    returned at [(i * 300, 100)]: the roots stand on one line, 300 apart. *)
Theorem roots_spread allNodes allEdges startNodeId r i j ki kj :
  calculateAutoLayout allNodes allEdges startNodeId = Returned r →
  NoDup (nodeIds allNodes) →
  rootsOf allNodes allEdges startNodeId !! i = Some ki →
  rootsOf allNodes allEdges startNodeId !! j = Some kj →
  nodePositions r !! ki
  = Some {| NodePosition.x := INR i * 300; NodePosition.y := 100 |}
  ∧ nodePositions r !! kj
    = Some {| NodePosition.x := INR j * 300; NodePosition.y := 100 |}
  ∧ (i ≠ j → ki ≠ kj ∧ 300 <= Rabs (INR i * 300 - INR j * 300)).
Proof.
  intros Hr Hnd Hi Hj.
  destruct (layout_returned_inv _ _ _ _ Hr) as (gIn & gOut & w & Hg & _ & _).
  pose proof (rootNodeIds_NoDup allNodes gIn startNodeId Hnd) as Hroots.
  rewrite <- (rootsOf_graph allNodes allEdges startNodeId gIn gOut Hg) in Hroots.
  split_and!.
  - apply (layout_root_position allNodes allEdges startNodeId r i ki Hr Hi).
    by apply NoDup_lookup_last.
  - apply (layout_root_position allNodes allEdges startNodeId r j kj Hr Hj).
    by apply NoDup_lookup_last.
  - intros Hne. split.
    + intros ->. apply Hne. by eapply NoDup_lookup.
    + assert (INR i - INR j <= -1 ∨ 1 <= INR i - INR j) as Hd.
      { destruct (Nat.lt_total i j) as [Hlt|[?|Hlt]]; [|done|].
        - left. apply Nat.le_succ_l, le_INR in Hlt. rewrite S_INR in Hlt. lra.
        - right. apply Nat.le_succ_l, le_INR in Hlt. rewrite S_INR in Hlt. lra. }
      unfold Rabs. destruct Rcase_abs; lra.
Qed.

(** *** Children *)
Lemma childPosition_box parentPos n index :
  (index < n)%nat →
  let p := childPosition parentPos n index in
  NodePosition.y parentPos < NodePosition.y p
  ∧ NodePosition.y p <= NodePosition.y parentPos + 200
  ∧ Rabs (NodePosition.x p - NodePosition.x parentPos) < 150
  ∧ ((NodePosition.x p - NodePosition.x parentPos) / 150)²
    + ((NodePosition.y p - NodePosition.y parentPos) / 200)² = 1.
Proof.
  intros Hlt p. unfold p, childPosition, horizontalSpacing, verticalSpacing. cbn.
  destruct (childAngle_bounds n index Hlt) as [H0 HPI].
  set (a := childAngle n index) in *.
  pose proof (sin_gt_0 a H0 HPI) as Hs0.
  pose proof (SIN_bound a) as [_ Hs1].
  pose proof PI_RGT_0 as Hpi.
  assert (cos a < 1) as Hc1
    by (rewrite <- cos_0; apply cos_decreasing_1; lra).
  assert (-1 < cos a) as Hc0
    by (rewrite <- cos_PI; apply cos_decreasing_1; lra).
  split_and!; [lra|lra| |].
  - unfold Rabs. destruct Rcase_abs; lra.
  - replace ((NodePosition.x parentPos + 300 / 2 * cos a - NodePosition.x parentPos) / 150)
      with (cos a) by lra.
    replace ((NodePosition.y parentPos + 200 * sin a - NodePosition.y parentPos) / 200)
      with (sin a) by lra.
    rewrite Rplus_comm. apply sin2_cos2.
Qed.

(** X10. A node placed by the traversal is returned below the parent that
    placed it, on the lower half of an ellipse around the returned position
    of the parent: at most 200 lower, and less than 150 to either side. *)
Theorem child_below_parent allNodes allEdges startNodeId r gIn gOut m
    P rest parentPos c :
  calculateAutoLayout allNodes allEdges startNodeId = Returned r →
  graphOf allNodes allEdges = Returned (gIn, gOut) →
  let w := walkAt allNodes gIn gOut startNodeId m in
  queue w = P :: rest →
  positions w !! P = Some parentPos →
  c ∈ childrenOf gOut (positionedIds w) P →
  ∃ p, nodePositions r !! c = Some p
       ∧ nodePositions r !! P = Some parentPos
       ∧ NodePosition.y parentPos < NodePosition.y p
       ∧ NodePosition.y p <= NodePosition.y parentPos + 200
       ∧ Rabs (NodePosition.x p - NodePosition.x parentPos) < 150
       ∧ ((NodePosition.x p - NodePosition.x parentPos) / 150)²
         + ((NodePosition.y p - NodePosition.y parentPos) / 200)² = 1.
Proof.
  intros Hr Hg w Hq Hp Hc.
  destruct (last_occurrence _ _ Hc) as (index & Hi & Hlast).
  pose proof (lookup_lt_Some _ _ _ Hi) as Hlt.
  exists (childPosition parentPos
            (length (childrenOf gOut (positionedIds w) P)) index).
  split; [by apply (layout_child_position _ _ _ _ _ _ _ _ _ _ _ _ Hr Hg Hq Hp Hi Hlast)|].
  split; [|by apply childPosition_box].
  rewrite (layout_keeps _ _ _ _ gIn gOut m P Hr Hg); [done|].
  destruct (walkAt_sound allNodes allEdges gIn gOut startNodeId m Hg) as (Hsq & _).
  apply Hsq. fold w. rewrite Hq. by left.
Qed.

(** *** Fallback placement, in detail *)
Lemma maxOf_ge (values : list R) v : v ∈ values → v <= maxOf values.
Proof.
  unfold maxOf. induction values as [|a l IH]; [by intros ?%elem_of_nil|].
  intros [->|Hin]%elem_of_cons; cbn.
  - apply Rmax_l.
  - etransitivity; [by apply IH|apply Rmax_r].
Qed.

Lemma maxOf_nonneg (values : list R) : 0 <= maxOf values.
Proof.
  unfold maxOf. induction values as [|a l IH]; cbn; [lra|].
  etransitivity; [exact IH|apply Rmax_r].
Qed.

Lemma maxOf_xValues np k p :
  np !! k = Some p → NodePosition.x p <= maxOf (xValues np).
Proof.
  intros Hk. apply maxOf_ge. unfold xValues.
  apply list_elem_of_fmap. exists (k, p). split; [done|].
  by apply elem_of_map_to_list.
Qed.

Lemma placeRemaining_app (l1 l2 : list Node) : ∀ index np,
  placeRemaining index (l1 ++ l2) np
  = placeRemaining (index + length l1) l2 (placeRemaining index l1 np).
Proof.
  induction l1 as [|a l1 IH]; intros index np; cbn.
  - by rewrite Nat.add_0_r.
  - rewrite IH. f_equal. lia.
Qed.

Lemma placeRemaining_at (pre : list Node) node post index np :
  Node.id node ∉ nodeIds post →
  placeRemaining index (pre ++ node :: post) np !! Node.id node
  = Some {| NodePosition.x :=
              maxOf (xValues (placeRemaining index pre np)) + horizontalSpacing;
            NodePosition.y := 100 + INR (index + length pre) * verticalSpacing |}.
Proof.
  intros Hlast. rewrite placeRemaining_app. cbn.
  rewrite placeRemaining_notin by done. by rewrite lookup_insert_eq.
Qed.

Lemma initTables_position allNodes (node : Node) :
  NoDup (nodeIds allNodes) → node ∈ allNodes →
  (initTables allNodes).2 !! Node.id node = Some (Node.position node).
Proof.
  unfold nodeIds. induction allNodes as [|last allNodes IH] using rev_ind;
    [by intros _ ?%elem_of_nil|].
  rewrite fmap_app, initTables_snoc. cbn [fmap list_fmap].
  intros [Hnd [Hdisj _]]%NoDup_app Hin.
  destruct (initTables allNodes) as [[gIn gOut] np]. cbn in *.
  apply elem_of_app in Hin as [Hin|Hin].
  - rewrite lookup_insert_ne; [by apply IH|].
    intros Heq. apply (Hdisj (Node.id node)).
    + apply list_elem_of_fmap. eauto.
    + rewrite Heq. by left.
  - apply list_elem_of_singleton in Hin as ->. by rewrite lookup_insert_eq.
Qed.

(** What the traversal has not positioned is where it was at the start. *)
Lemma walkAt_untouched allNodes gIn gOut startNodeId m k :
  k ∉ positionedIds (walkAt allNodes gIn gOut startNodeId m) →
  positions (walkAt allNodes gIn gOut startNodeId m) !! k
  = (initTables allNodes).2 !! k.
Proof.
  induction m as [|m IH]; intros Hk.
  - cbn in *. rewrite placeRoots_notin; [done|].
    by rewrite not_elem_of_list_to_set in Hk.
  - change (walkAt allNodes gIn gOut startNodeId (S m))
      with (bfsStep gOut (walkAt allNodes gIn gOut startNodeId m)) in *.
    rewrite bfsStep_positionedIds, not_elem_of_union, not_elem_of_list_to_set in Hk.
    destruct Hk as [Hsc Hpos]. rewrite bfsStep_notin by done. by apply IH.
Qed.

Lemma filter_nodes_NoDup allNodes (P : Node → Prop) `{∀ n, Decision (P n)} :
  NoDup (nodeIds allNodes) → NoDup (nodeIds (filter P allNodes)).
Proof.
  unfold nodeIds. induction allNodes as [|a l IH]; [done|].
  intros Hnd. rewrite fmap_cons in Hnd. apply NoDup_cons in Hnd as [Ha Hl].
  rewrite filter_cons.
  case_decide; [|by apply IH]. rewrite fmap_cons. apply NoDup_cons.
  split; [|by apply IH].
  intros Hin. apply Ha. apply list_elem_of_fmap in Hin as (node & -> & Hn).
  apply list_elem_of_filter in Hn as [_ Hn]. apply list_elem_of_fmap. eauto.
Qed.

(** The fallback placement of a list of nodes with distinct ids. *)
Lemma placeRemaining_spec remaining np j (node : Node) :
  NoDup (nodeIds remaining) →
  remaining !! j = Some node →
  let before := placeRemaining 0 (take j remaining) np in
  placeRemaining 0 remaining np !! Node.id node
  = Some {| NodePosition.x := maxOf (xValues before) + 300;
            NodePosition.y := 100 + INR j * 200 |}
  ∧ before !! Node.id node = np !! Node.id node
  ∧ (∀ k, k ∉ nodeIds remaining → before !! k = np !! k)
  ∧ (∀ j' node', (j' < j)%nat → remaining !! j' = Some node' →
       before !! Node.id node' = placeRemaining 0 remaining np !! Node.id node').
Proof.
  intros Hnd Hj before.
  pose proof (take_drop_middle remaining j node Hj) as Hsplit.
  assert (nodeIds remaining
          = nodeIds (take j remaining) ++ Node.id node :: nodeIds (drop (S j) remaining))
    as Hids.
  { unfold nodeIds. rewrite <- Hsplit at 1. by rewrite fmap_app. }
  rewrite Hids in Hnd. apply NoDup_app in Hnd as (Hpre & Hdisj & Hpost).
  apply NoDup_cons in Hpost as [Hlast Hpost].
  pose proof (lookup_lt_Some _ _ _ Hj) as Hlt.
  split_and!.
  - rewrite <- Hsplit at 1. rewrite placeRemaining_at by done.
    rewrite length_take, Nat.min_l by lia.
    unfold horizontalSpacing, verticalSpacing. done.
  - unfold before. apply placeRemaining_notin. intros Hin.
    apply (Hdisj _ Hin). by left.
  - intros k Hk. unfold before. apply placeRemaining_notin. intros Hin.
    apply Hk. rewrite Hids. apply elem_of_app. by left.
  - intros j' node' Hj' Hn'. rewrite <- Hsplit at 1.
    rewrite placeRemaining_app. fold before. cbn.
    assert (Node.id node' ∈ nodeIds (take j remaining)) as Hin'.
    { unfold nodeIds. apply list_elem_of_fmap. exists node'. split; [done|].
      apply list_elem_of_lookup. exists j'. by rewrite lookup_take_lt. }
    rewrite placeRemaining_notin.
    + rewrite lookup_insert_ne; [done|]. intros Heq.
      apply (Hdisj _ Hin'). rewrite <- Heq. by left.
    + intros Hin. apply (Hdisj _ Hin'). by right.
Qed.

(** X11. With distinct node ids, remaining node number [j] (from 0) is
    returned at [y = 100 + j * 200] and at an [x] that is 300 or more to the
    right of the origin, of the position the node came with, of every node
    the traversal positioned and of every remaining node placed before it. *)
Theorem fallback_placement allNodes allEdges startNodeId r gIn gOut j (node : Node) :
  calculateAutoLayout allNodes allEdges startNodeId = Returned r →
  graphOf allNodes allEdges = Returned (gIn, gOut) →
  NoDup (nodeIds allNodes) →
  let w := endWalk allNodes gIn gOut startNodeId in
  let remaining := filter (fun node => Node.id node ∉ positionedIds w) allNodes in
  remaining !! j = Some node →
  ∃ p, nodePositions r !! Node.id node = Some p
       ∧ NodePosition.y p = 100 + INR j * 200
       ∧ 300 <= NodePosition.x p
       ∧ NodePosition.x (Node.position node) + 300 <= NodePosition.x p
       ∧ (∀ k q, k ∈ positionedIds w → nodePositions r !! k = Some q →
            NodePosition.x q + 300 <= NodePosition.x p)
       ∧ (∀ j' node' q, (j' < j)%nat → remaining !! j' = Some node' →
            nodePositions r !! Node.id node' = Some q →
            NodePosition.x q + 300 <= NodePosition.x p).
Proof.
  intros Hr Hg Hnd w remaining Hj.
  rewrite (layout_end _ _ _ _ _ _ Hr Hg). cbn. fold w remaining.
  pose proof (filter_nodes_NoDup allNodes
                (fun node => Node.id node ∉ positionedIds w) Hnd) as Hrem.
  fold remaining in Hrem.
  destruct (placeRemaining_spec remaining (positions w) j node Hrem Hj)
    as (Hpos & Hown & Hout & Hearlier).
  set (before := placeRemaining 0 (take j remaining) (positions w)) in *.
  assert (node ∈ remaining) as Hin by (by eapply list_elem_of_lookup_2).
  apply list_elem_of_filter in Hin as [Hnpos Hnode].
  eexists. split; [exact Hpos|]. cbn. split_and!.
  - done.
  - pose proof (maxOf_nonneg (xValues before)). lra.
  - assert (before !! Node.id node = Some (Node.position node)) as Hcar.
    { rewrite Hown. unfold w, endWalk. rewrite walkAt_untouched by done.
      by apply initTables_position. }
    pose proof (maxOf_xValues before _ _ Hcar). lra.
  - intros k q Hk Hq.
    assert (k ∉ nodeIds remaining) as Hkr.
    { unfold nodeIds. intros (n' & -> & Hn')%list_elem_of_fmap.
      by apply list_elem_of_filter in Hn' as [? _]. }
    rewrite placeRemaining_notin in Hq by done.
    rewrite <- (Hout k Hkr) in Hq.
    pose proof (maxOf_xValues before _ _ Hq). lra.
  - intros j' node' q Hj' Hn' Hq. rewrite <- (Hearlier j' node' Hj' Hn') in Hq.
    pose proof (maxOf_xValues before _ _ Hq). lra.
Qed.

(** *** What depends on the ids of the nodes only *)
Lemma initTables_ids allNodes (allNodes' : list Node) :
  nodeIds allNodes' = nodeIds allNodes →
  (initTables allNodes').1 = (initTables allNodes).1.
Proof.
  intros Hids.
  assert (∀ k, (initTables allNodes').1.1 !! k = (initTables allNodes).1.1 !! k
             ∧ (initTables allNodes').1.2 !! k = (initTables allNodes).1.2 !! k) as H.
  { intros k. destruct (initTables_lookup allNodes k) as (-> & -> & _).
    destruct (initTables_lookup allNodes' k) as (-> & -> & _). by rewrite Hids. }
  destruct (initTables allNodes') as [[a b] c], (initTables allNodes) as [[a' b'] c'].
  cbn in *. f_equal; apply map_eq; intros k; by destruct (H k).
Qed.

Lemma noIncoming_ids gIn allNodes :
  noIncoming gIn allNodes = filter (fun k => gIn !! k = Some []) (nodeIds allNodes).
Proof.
  unfold noIncoming, nodeIds. induction allNodes as [|a l IH]; [done|].
  rewrite fmap_cons, !filter_cons. case_decide; [rewrite fmap_cons|]; by rewrite IH.
Qed.

Lemma rootNodeIds_ids allNodes (allNodes' : list Node) gIn startNodeId :
  nodeIds allNodes' = nodeIds allNodes →
  rootNodeIds allNodes' gIn startNodeId = rootNodeIds allNodes gIn startNodeId.
Proof.
  intros Hids. unfold rootNodeIds.
  assert (chosenStart allNodes' startNodeId = chosenStart allNodes startNodeId) as ->.
  { unfold chosenStart. destruct startNodeId as [s|]; [|done].
    assert (hasNode allNodes' s = hasNode allNodes s) as ->; [|done].
    pose proof (hasNode_true allNodes s) as H1.
    pose proof (hasNode_true allNodes' s) as H2. rewrite Hids in H2.
    destruct (hasNode allNodes s), (hasNode allNodes' s); try done.
    - apply H2, H1. done.
    - symmetry. apply H1, H2. done. }
  destruct (chosenStart allNodes startNodeId); [done|].
  rewrite !noIncoming_ids, Hids.
  assert (head (nodeIds allNodes') = head (nodeIds allNodes)) as Hhead
    by (by rewrite Hids).
  destruct allNodes as [|a l], allNodes' as [|a' l']; try done.
  cbn in Hhead. injection Hhead as Hhead. by rewrite Hhead.
Qed.

Lemma placeRoots_roots roots index np np' k :
  k ∈ roots → placeRoots index roots np' !! k = placeRoots index roots np !! k.
Proof.
  intros Hk. destruct (last_occurrence _ _ Hk) as (i & Hi & Hlast).
  rewrite <- (take_drop_middle roots i k Hi). by rewrite !placeRoots_last.
Qed.

Lemma placeChildren_children parentPos n children index w w' k :
  k ∈ children →
  positions (placeChildren parentPos n index children w') !! k
  = positions (placeChildren parentPos n index children w) !! k.
Proof.
  intros Hk. destruct (last_occurrence _ _ Hk) as (i & Hi & Hlast).
  rewrite <- (take_drop_middle children i k Hi). by rewrite !placeChildren_last.
Qed.

Lemma startWalk_sim allNodes (allNodes' : list Node) gIn startNodeId :
  nodeIds allNodes' = nodeIds allNodes →
  walkSim (startWalk allNodes gIn startNodeId) (startWalk allNodes' gIn startNodeId).
Proof.
  intros Hids. unfold walkSim, startWalk. cbn.
  rewrite (rootNodeIds_ids allNodes allNodes' gIn startNodeId Hids).
  split_and!; [done|done|].
  intros k Hk%elem_of_list_to_set. by apply placeRoots_roots.
Qed.

Lemma bfsStep_sim gOut w w' :
  (∀ k, k ∈ queue w → k ∈ positionedIds w) →
  walkSim w w' → walkSim (bfsStep gOut w) (bfsStep gOut w').
Proof.
  intros Hsound (Hq & Hp & Hpos).
  assert (stepChildren gOut w' = stepChildren gOut w) as Hsc.
  { unfold stepChildren. rewrite Hq, Hp. destruct (queue w) as [|cur rest] eqn:Hqw; [done|].
    rewrite Hpos by (apply Hsound; by left). done. }
  split_and!.
  - by rewrite !bfsStep_queue, Hq, Hsc.
  - by rewrite !bfsStep_positionedIds, Hp, Hsc.
  - intros k. rewrite bfsStep_positionedIds, elem_of_union, elem_of_list_to_set.
    destruct (decide (k ∈ stepChildren gOut w)) as [Hin|Hnin].
    + intros _. unfold bfsStep. rewrite Hq, Hp.
      unfold stepChildren in Hin.
      destruct (queue w) as [|cur rest] eqn:Hqw; [by apply elem_of_nil in Hin|].
      rewrite Hpos by (apply Hsound; by left).
      destruct (positions w !! cur) as [pp|]; [|by apply elem_of_nil in Hin].
      assert (0 < length (childrenOf gOut (positionedIds w) cur))%nat as Hlen
        by (destruct (childrenOf _ _ _); [by apply elem_of_nil in Hin|cbn; lia]).
      rewrite !decide_True by done.
      by apply placeChildren_children.
    + intros [?|Hk]; [done|]. rewrite !bfsStep_notin by (by rewrite ?Hsc). by apply Hpos.
Qed.

Lemma walkAt_sim allNodes (allNodes' : list Node) allEdges gIn gOut startNodeId m :
  nodeIds allNodes' = nodeIds allNodes →
  graphOf allNodes allEdges = Returned (gIn, gOut) →
  walkSim (walkAt allNodes gIn gOut startNodeId m)
          (walkAt allNodes' gIn gOut startNodeId m).
Proof.
  intros Hids Hg. induction m as [|m IH]; [by apply startWalk_sim|].
  change (walkSim (bfsStep gOut (walkAt allNodes gIn gOut startNodeId m))
                  (bfsStep gOut (walkAt allNodes' gIn gOut startNodeId m))).
  apply bfsStep_sim; [|done].
  by apply (walkAt_sound allNodes allEdges gIn gOut startNodeId m Hg).
Qed.

(** X12. The positions and the data the nodes come with do not matter for
    what the traversal places: for two lists of nodes with the same ids, in
    the same order, the call returns for both or for none, and every node
    the traversal positions is returned at the same place.  When all nodes
    can be reached from the roots, the two layouts are the same. *)
Theorem carried_positions_ignored allNodes (allNodes' : list Node) allEdges
    startNodeId r gIn gOut :
  nodeIds allNodes' = nodeIds allNodes →
  calculateAutoLayout allNodes allEdges startNodeId = Returned r →
  graphOf allNodes allEdges = Returned (gIn, gOut) →
  ∃ r', calculateAutoLayout allNodes' allEdges startNodeId = Returned r'
        ∧ (∀ k, reachable allEdges (rootNodeIds allNodes gIn startNodeId) k →
                nodePositions r' !! k = nodePositions r !! k)
        ∧ ((∀ k, k ∈ nodeIds allNodes →
                 reachable allEdges (rootNodeIds allNodes gIn startNodeId) k) →
           r' = r).
Proof.
  intros Hids Hr Hg.
  assert (graphOf allNodes' allEdges = Returned (gIn, gOut)) as Hg'
    by (unfold graphOf in *; by rewrite (initTables_ids allNodes allNodes' Hids)).
  pose proof (graphOf_returned_wellformed _ _ _ _ Hg') as Hwf'.
  destruct (layout_returns allNodes' allEdges startNodeId Hwf') as [r' Hr'].
  exists r'. split; [done|].
  pose proof (layout_end _ _ _ _ _ _ Hr Hg) as Hfin.
  pose proof (layout_end _ _ _ _ _ _ Hr' Hg') as Hfin'.
  set (w := endWalk allNodes gIn gOut startNodeId) in *.
  set (w' := endWalk allNodes' gIn gOut startNodeId) in *.
  assert (walkSim w w') as (Hq & Hp & Hpos).
  { unfold w, w', endWalk.
    rewrite (rootNodeIds_ids allNodes allNodes' gIn startNodeId Hids).
    by apply (walkAt_sim allNodes allNodes' allEdges). }
  assert (∀ k, k ∈ positionedIds w → nodePositions r' !! k = nodePositions r !! k)
    as Hsame.
  { intros k Hk. rewrite Hfin, Hfin'. cbn.
    rewrite !placeRemaining_notin; [by apply Hpos| |].
    - unfold nodeIds. intros (n & -> & Hn)%list_elem_of_fmap.
      by apply list_elem_of_filter in Hn as [? _].
    - unfold nodeIds. intros (n & -> & Hn)%list_elem_of_fmap.
      apply list_elem_of_filter in Hn as [Hn _]. by rewrite Hp in Hn. }
  split.
  - intros k Hk. apply Hsame. by apply (reachable_positioned allNodes allEdges).
  - intros Hall.
    assert (nodePositions r' = nodePositions r) as Hnp.
    { apply map_eq. intros k. destruct (decide (k ∈ nodeIds allNodes)) as [Hk|Hk].
      - apply Hsame. by apply (reachable_positioned allNodes allEdges), Hall.
      - pose proof (layout_dom _ _ _ _ Hr) as Hd.
        pose proof (layout_dom _ _ _ _ Hr') as Hd'. rewrite Hids in Hd'.
        assert (k ∉ dom (nodePositions r)) as H1
          by (rewrite Hd; by rewrite elem_of_list_to_set).
        assert (k ∉ dom (nodePositions r')) as H2
          by (rewrite Hd'; by rewrite elem_of_list_to_set).
        apply not_elem_of_dom in H1, H2. by rewrite H1, H2. }
    rewrite Hfin, Hfin' in Hnp. unfold finish in Hnp. cbv zeta in Hnp.
    cbn [nodePositions] in Hnp.
    rewrite Hfin, Hfin'. unfold finish. cbv zeta. by rewrite Hnp.
Qed.

(** *** What depends on the ends of the edges only *)
Lemma fillConnections_ends allEdges (allEdges' : list Edge) :
  Forall2 sameEnds allEdges allEdges' →
  ∀ g, fillConnections g allEdges' = fillConnections g allEdges.
Proof.
  induction 1 as [|e e' l l' [Hs Ht] _ IH]; intros [gIn gOut]; [done|].
  cbn. rewrite Hs, Ht.
  destruct (gOut !! Edge.source e); [|done].
  destruct (gIn !! Edge.target e); [|done]. cbn. apply IH.
Qed.

Lemma hasReverseEdge_ends allEdges (allEdges' : list Edge) edge (edge' : Edge) :
  Forall2 sameEnds allEdges allEdges' → sameEnds edge edge' →
  hasReverseEdge allEdges' edge' = hasReverseEdge allEdges edge.
Proof.
  intros Hall [Hs Ht]. unfold hasReverseEdge. rewrite Hs, Ht.
  induction Hall as [|e e' l l' [Hs' Ht'] _ IH]; [done|].
  cbn. by rewrite Hs', Ht', IH.
Qed.

Lemma enhanceEdge_again np allEdges edge :
  enhanceEdge np (enhanceEdge np allEdges <$> allEdges) (enhanceEdge np allEdges edge)
  = enhanceEdge np allEdges edge.
Proof.
  assert (Forall2 sameEnds allEdges (enhanceEdge np allEdges <$> allEdges)) as Hall.
  { apply Forall2_fmap_r, Forall_Forall2_diag, Forall_forall. intros e _.
    destruct (enhanceEdge_sameButHandles np allEdges e) as (_ & ? & ? & _). by split. }
  assert (sameEnds edge (enhanceEdge np allEdges edge)) as Hends.
  { destruct (enhanceEdge_sameButHandles np allEdges edge) as (_ & ? & ? & _). by split. }
  pose proof (hasReverseEdge_ends _ _ _ _ Hall Hends) as Hrev.
  destruct Hends as [Hs Ht].
  unfold enhanceEdge at 1. rewrite Hs, Ht.
  destruct (np !! Edge.source edge) as [sp|] eqn:Hsp;
    [|unfold enhanceEdge; by rewrite Hsp].
  destruct (np !! Edge.target edge) as [tp|] eqn:Htp;
    [|unfold enhanceEdge; by rewrite Hsp, Htp].
  unfold chooseHandles. rewrite Hrev, Hs, Ht.
  unfold enhanceEdge. rewrite Hsp, Htp. unfold chooseHandles.
  by destruct (if decide _ then _ else _).
Qed.

(** X13. Laying out again with the returned edges changes nothing: for the
    same nodes and start node, the call on the returned edges returns the
    same layout. *)
Theorem layout_again allNodes allEdges startNodeId r :
  calculateAutoLayout allNodes allEdges startNodeId = Returned r →
  calculateAutoLayout allNodes (enhancedEdges r) startNodeId = Returned r.
Proof.
  intros Hr.
  destruct (layout_returned_inv _ _ _ _ Hr) as (gIn & gOut & w & Hg & Hrun & ->).
  set (np := placeRemaining 0
               (filter (fun node => Node.id node ∉ positionedIds w) allNodes)
               (positions w)).
  assert (Forall2 sameEnds allEdges (enhanceEdge np allEdges <$> allEdges)) as Hall.
  { apply Forall2_fmap_r, Forall_Forall2_diag, Forall_forall. intros e _.
    destruct (enhanceEdge_sameButHandles np allEdges e) as (_ & ? & ? & _). by split. }
  rewrite calculateAutoLayout_unfold. unfold graphOf.
  cbn [enhancedEdges finish]. fold np.
  rewrite (fillConnections_ends _ _ Hall). unfold graphOf in Hg. rewrite Hg. cbn.
  rewrite Hrun. f_equal. unfold finish. cbv zeta. fold np. f_equal.
  rewrite <- list_fmap_compose. apply list_fmap_ext. intros i e _. cbn.
  apply enhanceEdge_again.
Qed.

(** *** What depends on the positions of the unreached nodes only *)
Lemma placeRemaining_ids remaining (remaining' : list Node) : ∀ index np,
  nodeIds remaining' = nodeIds remaining →
  placeRemaining index remaining' np = placeRemaining index remaining np.
Proof.
  revert remaining'. induction remaining as [|a l IH]; intros [|a' l'] index np Hids;
    try done.
  unfold nodeIds in Hids. cbn in Hids. injection Hids as Ha Hl. cbn. rewrite Ha.
  by apply IH.
Qed.

Lemma filter_ids (placed : gset string) allNodes (allNodes' : list Node) :
  nodeIds allNodes' = nodeIds allNodes →
  nodeIds (filter (fun node => Node.id node ∉ placed) allNodes')
  = nodeIds (filter (fun node => Node.id node ∉ placed) allNodes).
Proof.
  revert allNodes'. induction allNodes as [|a l IH]; intros [|a' l'] Hids; try done.
  unfold nodeIds in Hids. cbn in Hids. injection Hids as Ha Hl.
  rewrite !filter_cons, Ha. case_decide.
  - unfold nodeIds. rewrite !fmap_cons, Ha. f_equal. by apply IH.
  - by apply IH.
Qed.

Lemma initTables_app_notin allNodes (more : list Node) k :
  k ∉ nodeIds more →
  (initTables (allNodes ++ more)).2 !! k = (initTables allNodes).2 !! k.
Proof.
  induction more as [|last more IH] using rev_ind; intros Hk.
  - by rewrite app_nil_r.
  - unfold nodeIds in Hk. rewrite fmap_app, not_elem_of_app in Hk. destruct Hk as [Hk Hlast].
    rewrite app_assoc, initTables_snoc. rewrite <- IH by done.
    destruct (initTables (allNodes ++ more)) as [[gIn gOut] np]. cbn.
    rewrite lookup_insert_ne; [done|].
    intros Heq'. apply Hlast. cbn. rewrite Heq'. by left.
Qed.

(** Two lists of nodes with the same ids, and the same positions where the
    traversal does not come, are laid out alike. *)
Lemma layout_same_unreached allNodes (allNodes' : list Node) allEdges
    startNodeId r gIn gOut :
  nodeIds allNodes' = nodeIds allNodes →
  calculateAutoLayout allNodes allEdges startNodeId = Returned r →
  graphOf allNodes allEdges = Returned (gIn, gOut) →
  (∀ k, ¬ reachable allEdges (rootNodeIds allNodes gIn startNodeId) k →
        (initTables allNodes').2 !! k = (initTables allNodes).2 !! k) →
  calculateAutoLayout allNodes' allEdges startNodeId = Returned r.
Proof.
  intros Hids Hr Hg Hsame.
  assert (graphOf allNodes' allEdges = Returned (gIn, gOut)) as Hg'
    by (unfold graphOf in *; by rewrite (initTables_ids allNodes allNodes' Hids)).
  pose proof (graphOf_returned_wellformed _ _ _ _ Hg') as Hwf'.
  destruct (layout_returns allNodes' allEdges startNodeId Hwf') as [r' Hr'].
  rewrite Hr'. f_equal.
  pose proof (layout_end _ _ _ _ _ _ Hr Hg) as Hfin.
  pose proof (layout_end _ _ _ _ _ _ Hr' Hg') as Hfin'.
  assert (walkSim (endWalk allNodes gIn gOut startNodeId)
                  (endWalk allNodes' gIn gOut startNodeId)) as (Hq & Hp & Hpos).
  { unfold endWalk.
    rewrite (rootNodeIds_ids allNodes allNodes' gIn startNodeId Hids).
    by apply (walkAt_sim allNodes allNodes' allEdges). }
  assert (positions (endWalk allNodes' gIn gOut startNodeId)
          = positions (endWalk allNodes gIn gOut startNodeId)) as Hposs.
  { apply map_eq. intros k.
    destruct (decide (k ∈ positionedIds (endWalk allNodes gIn gOut startNodeId)))
      as [Hk|Hk]; [by apply Hpos|].
    unfold endWalk in *.
    rewrite (walkAt_untouched allNodes' _ _ _ _ k) by (by rewrite Hp).
    rewrite (walkAt_untouched allNodes _ _ _ _ k) by done.
    apply Hsame. intros Hreach. apply Hk.
    by apply (reachable_positioned allNodes allEdges). }
  rewrite Hfin, Hfin'. unfold finish. cbv zeta. rewrite Hp, Hposs.
  rewrite (placeRemaining_ids
             (filter (fun node => Node.id node
                        ∉ positionedIds (endWalk allNodes gIn gOut startNodeId)) allNodes)
             (filter (fun node => Node.id node
                        ∉ positionedIds (endWalk allNodes gIn gOut startNodeId)) allNodes'));
    [done|].
  by apply filter_ids.
Qed.

Lemma reachable_ends allEdges (allEdges' : list Edge) roots k :
  (∀ e', e' ∈ allEdges' →
         ∃ e, e ∈ allEdges ∧ Edge.source e = Edge.source e'
              ∧ Edge.target e = Edge.target e') →
  reachable allEdges' roots k → reachable allEdges roots k.
Proof.
  intros Hends. induction 1 as [k Hk|e' He' _ IH]; [by apply reach_root|].
  destruct (Hends e' He') as (e & He & Hs & Ht). rewrite <- Ht.
  apply reach_edge; [done|]. by rewrite Hs.
Qed.

Lemma rootNodeIds_start allNodes gIn (s : string) :
  s ≠ "" → s ∈ nodeIds allNodes → rootNodeIds allNodes gIn (Some s) = [s].
Proof.
  intros Hs Hin. unfold rootNodeIds, chosenStart, truthy.
  apply hasNode_true in Hin. rewrite Hin.
  destruct (String.eqb_spec s ""); [done|]. done.
Qed.

End FurtherProperties.

(** ** The further properties on the examples *)

Lemma tree_NoDup : NoDup (nodeIds treeNodes).
Proof.
  apply (bool_decide_unpack _). vm_compute. reflexivity.
Qed.

Lemma tree_graph_from_2 :
  rootNodeIds treeNodes treeIn (Some "2") = ["2"]
  ∧ filter (fun node : Node.t unit =>
              Node.id node ∉ positionedIds (endWalk treeNodes treeIn treeOut (Some "2")))
      treeNodes
    = [room "1" 5 7; room "3" 2 2].
Proof. split; vm_compute; reflexivity. Qed.

(** X1 at the tree, for room 1. *)
Lemma adjacency_maps_witness :
  ("1" ∈ nodeIds treeNodes →
     treeIn !! "1"
     = Some (Edge.source <$> filter (fun e => Edge.target e = "1") treeEdges)
     ∧ treeOut !! "1"
       = Some (Edge.target <$> filter (fun e => Edge.source e = "1") treeEdges))
  ∧ ("1" ∉ nodeIds treeNodes → treeIn !! "1" = None ∧ treeOut !! "1" = None).
Proof. apply (adjacency_maps treeNodes treeEdges treeIn treeOut "1" tree_graph). Defined.

(** X2 at the tree: one root and two edges, three iterations. *)
Lemma traversal_ends_witness :
  queue (walkAt treeNodes treeIn treeOut None 3) = []
  ∧ walkAt treeNodes treeIn treeOut None 3
    = walkAt treeNodes treeIn treeOut None
        (length (rootNodeIds treeNodes treeIn None) + length treeEdges).
Proof.
  apply (traversal_ends treeNodes treeEdges treeIn treeOut None 3 tree_graph).
  vm_compute. lia.
Defined.

(** X3 at the tree. *)
Lemma traversal_reach_witness :
  ∃ r, calculateAutoLayout treeNodes treeEdges None = Returned r
       ∧ r = finish treeNodes treeEdges (endWalk treeNodes treeIn treeOut None)
       ∧ ∀ k, k ∈ positionedIds (endWalk treeNodes treeIn treeOut None)
              ↔ reachable treeEdges (rootNodeIds treeNodes treeIn None) k.
Proof.
  destruct (layout_returns treeNodes treeEdges None tree_wellformed) as [r Hr].
  exists r. split; [exact Hr|].
  apply (traversal_reach treeNodes treeEdges None r treeIn treeOut Hr tree_graph).
Defined.

(** X4 at the tree, for room 3. *)
Lemma layout_keys_witness :
  ∃ r, calculateAutoLayout treeNodes treeEdges None = Returned r
       ∧ (is_Some (nodePositions r !! "3") ↔ "3" ∈ nodeIds treeNodes).
Proof.
  destruct (layout_returns treeNodes treeEdges None tree_wellformed) as [r Hr].
  exists r. split; [exact Hr|].
  apply (layout_keys treeNodes treeEdges None r "3" Hr).
Defined.

(** X9 at the three rooms without exits: rooms 1 and 3 are roots 0 and 2. *)
Lemma roots_spread_witness :
  ∃ r, calculateAutoLayout treeNodes (@nil (Edge.t unit)) None = Returned r
       ∧ nodePositions r !! "1"
         = Some {| NodePosition.x := INR 0 * 300; NodePosition.y := 100 |}
       ∧ nodePositions r !! "3"
         = Some {| NodePosition.x := INR 2 * 300; NodePosition.y := 100 |}
       ∧ (0%nat ≠ 2%nat → "1" ≠ "3" ∧ 300 <= Rabs (INR 0 * 300 - INR 2 * 300)).
Proof.
  destruct (layout_returns treeNodes (@nil (Edge.t unit)) None (Forall_nil_2 _)) as [r Hr].
  exists r. split; [exact Hr|].
  apply (roots_spread treeNodes (@nil (Edge.t unit)) None r 0 2 "1" "3" Hr tree_NoDup).
  - vm_compute. reflexivity.
  - vm_compute. reflexivity.
Defined.

(** X11 at the tree entered at room 2: rooms 1 and 3 are left over, room 3 is
    the second of them. *)
Lemma fallback_placement_witness :
  ∃ r p, calculateAutoLayout treeNodes treeEdges (Some "2") = Returned r
         ∧ nodePositions r !! "3" = Some p
         ∧ NodePosition.y p = 100 + INR 1 * 200
         ∧ 300 <= NodePosition.x p
         ∧ 2 + 300 <= NodePosition.x p.
Proof.
  destruct (layout_returns treeNodes treeEdges (Some "2") tree_wellformed) as [r Hr].
  pose proof (fallback_placement treeNodes treeEdges (Some "2") r treeIn treeOut 1
                (room "3" 2 2) Hr tree_graph tree_NoDup) as H.
  cbv zeta in H. destruct tree_graph_from_2 as [_ Hrem]. rewrite Hrem in H.
  destruct (H eq_refl) as (p & Hp & Hy & Hx & Hown & _).
  exists r, p. split_and!; [exact Hr|exact Hp|exact Hy|exact Hx|exact Hown].
Defined.

(** X5 at the tree. *)
Lemma handles_assigned_witness :
  ∃ r, calculateAutoLayout treeNodes treeEdges None = Returned r
       ∧ ∀ e', e' ∈ enhancedEdges r →
           ∃ sh th, Edge.sourceHandle e' = Some sh ∧ Edge.targetHandle e' = Some th
                    ∧ sh ∈ sourceSlots ∧ th ∈ targetSlots.
Proof.
  destruct (layout_returns treeNodes treeEdges None tree_wellformed) as [r Hr].
  exists r. split; [exact Hr|]. intros e' He'.
  apply (handles_assigned treeNodes treeEdges None r e' Hr He').
Defined.


(** X12 at the tree and the tree with its rooms moved. *)
Lemma carried_positions_ignored_witness :
  ∃ r r', calculateAutoLayout treeNodes treeEdges None = Returned r
          ∧ calculateAutoLayout movedTreeNodes treeEdges None = Returned r'
          ∧ (∀ k, reachable treeEdges (rootNodeIds treeNodes treeIn None) k →
                  nodePositions r' !! k = nodePositions r !! k)
          ∧ ((∀ k, k ∈ nodeIds treeNodes →
                   reachable treeEdges (rootNodeIds treeNodes treeIn None) k) →
             r' = r).
Proof.
  destruct (layout_returns treeNodes treeEdges None tree_wellformed) as [r Hr].
  destruct (carried_positions_ignored treeNodes movedTreeNodes treeEdges None r
              treeIn treeOut eq_refl Hr tree_graph) as (r' & Hr' & H).
  exists r, r'. split_and!; [exact Hr|exact Hr'|apply H|apply H].
Defined.

(** X10 at the tree, for room 3 under room 1. *)
Lemma child_below_parent_witness :
  ∃ r p, calculateAutoLayout treeNodes treeEdges None = Returned r
         ∧ nodePositions r !! "3" = Some p
         ∧ nodePositions r !! "1" = Some (rootPosition 0)
         ∧ NodePosition.y (rootPosition 0) < NodePosition.y p
         ∧ NodePosition.y p <= NodePosition.y (rootPosition 0) + 200
         ∧ Rabs (NodePosition.x p - NodePosition.x (rootPosition 0)) < 150.
Proof.
  destruct (layout_returns treeNodes treeEdges None tree_wellformed) as [r Hr].
  pose proof (child_below_parent treeNodes treeEdges None r treeIn treeOut 0
                "1" [] (rootPosition 0) "3" Hr tree_graph) as H.
  cbv zeta in H. rewrite tree_children in H.
  destruct (H tree_queue tree_parent) as (p & Hp & HP & H1 & H2 & H3 & _).
  - right. by left.
  - exists r, p. split_and!; [exact Hr|exact Hp|exact HP|exact H1|exact H2|exact H3].
Defined.

(** X7 at the tree, for the root. *)
Lemma first_writer_wins_witness :
  ∃ r, calculateAutoLayout treeNodes treeEdges None = Returned r
       ∧ positions (walkAt treeNodes treeIn treeOut None (0 + 2)) !! "1"
         = positions (walkAt treeNodes treeIn treeOut None 0) !! "1"
       ∧ nodePositions r !! "1"
         = positions (walkAt treeNodes treeIn treeOut None 0) !! "1".
Proof.
  destruct (layout_returns treeNodes treeEdges None tree_wellformed) as [r Hr].
  exists r. split; [exact Hr|].
  apply (first_writer_wins treeNodes treeEdges None r treeIn treeOut 0 2 "1" Hr tree_graph).
  vm_compute. reflexivity.
Defined.

(** X8 for one exit and no room. *)
Lemma empty_node_set_witness :
  calculateAutoLayout (@nil (Node.t unit)) (@nil (Edge.t unit)) None
  = Returned {| nodePositions := ∅; enhancedEdges := [] |}
  ∧ calculateAutoLayout (@nil (Node.t unit)) [exit "e" "a" "b"] None = TypeError.
Proof.
  destruct (empty_node_set (ND := unit) [exit "e" "a" "b"] None) as [H1 H2].
  split; [exact H1|]. apply H2. discriminate.
Defined.

(** X13 at the tree. *)
Lemma layout_again_witness :
  ∃ r, calculateAutoLayout treeNodes treeEdges None = Returned r
       ∧ calculateAutoLayout treeNodes (enhancedEdges r) None = Returned r.
Proof.
  destruct (layout_returns treeNodes treeEdges None tree_wellformed) as [r Hr].
  exists r. split; [exact Hr|].
  apply (layout_again treeNodes treeEdges None r Hr).
Defined.






(** * Properties of the loader *)

Lemma prefix_append (p s : string) :
  String.prefix p s = true ↔ ∃ k, s = p +:+ k.
Proof.
  revert s. induction p as [|c p IH]; intros s.
  - split; [intros _; by exists s|]. by destruct s.
  - destruct s as [|c' s]; cbn.
    + split; [done|]. by intros [k Hk].
    + destruct (Ascii.ascii_dec c c') as [->|Hne].
      * rewrite IH. split; intros [k Hk]; exists k; [by rewrite Hk|].
        by injection Hk.
      * split; [done|]. intros [k Hk]. by injection Hk as -> _.
Qed.

Lemma substring_whole (s : string) : String.substring 0 (String.length s) s = s.
Proof. induction s as [|c s IH]; [done|]. cbn. by rewrite IH. Qed.

Lemma substring_append (p k : string) :
  String.substring (String.length p) (String.length k) (p +:+ k) = k.
Proof. induction p as [|c p IH]; cbn; [apply substring_whole|apply IH]. Qed.

Lemma length_append (p k : string) :
  String.length (p +:+ k) = (String.length p + String.length k)%nat.
Proof. induction p as [|c p IH]; [done|]. simpl. f_equal. exact IH. Qed.

(** Where the pattern is at the front, it is what is replaced. *)
Lemma replaceFirst_prefix (p r k : string) :
  replaceFirst p r (p +:+ k) = r +:+ k.
Proof.
  assert (Hpre : String.prefix p (p +:+ k) = true) by (apply prefix_append; eauto).
  destruct (p +:+ k) as [|c s] eqn:Heq; cbn [replaceFirst]; rewrite Hpre;
    rewrite <- Heq, length_append;
    replace (String.length p + String.length k - String.length p)%nat
      with (String.length k) by lia;
    by rewrite substring_append.
Qed.

Lemma append_inj (p k k' : string) : p +:+ k = p +:+ k' → k = k'.
Proof. induction p as [|c p IH]; cbn; [done|]. intros H. injection H. apply IH. Qed.

Section Reduce.
Context {A B : Type}.

(** A [reduce] that sets one key per entry, when no two entries set the
    same key: the result has the entries' keys and values, whatever the
    order of the entries. *)
Lemma reduce_lookup (g : string → string) (h : A → B) (l : list (string * A)) j w :
  NoDup (g <$> l.*1) →
  foldl (fun (acc : gmap string B) '(key, value) => <[g key := h value]> acc) ∅ l !! j
  = Some w
  ↔ ∃ key value, (key, value) ∈ l ∧ g key = j ∧ h value = w.
Proof.
  induction l as [|[k v] l IH] using rev_ind; intros Hnd.
  - cbn. rewrite lookup_empty. split; [done|]. intros (? & ? & Hin & _).
    by apply elem_of_nil in Hin.
  - rewrite foldl_snoc. rewrite fmap_app, fmap_app in Hnd. cbn in Hnd.
    apply NoDup_app in Hnd as (Hnd & Hdisj & _).
    destruct (decide (g k = j)) as [<-|Hne].
    + rewrite lookup_insert_eq. split.
      * intros [= <-]. exists k, v. split; [|done]. apply elem_of_app. right. by left.
      * intros (k' & v' & Hin & Hk & <-). apply elem_of_app in Hin as [Hin|Hin].
        -- exfalso. apply (Hdisj (g k')); [|rewrite Hk; by left].
           apply list_elem_of_fmap. exists k'. split; [done|].
           apply list_elem_of_fmap. by exists (k', v').
        -- apply list_elem_of_singleton in Hin. by injection Hin as -> ->.
    + rewrite lookup_insert_ne by done. rewrite (IH Hnd). split.
      * intros (k' & v' & Hin & Hk). exists k', v'. split; [|done].
        apply elem_of_app. by left.
      * intros (k' & v' & Hin & Hk & Hv). apply elem_of_app in Hin as [Hin|Hin].
        -- by exists k', v'.
        -- apply list_elem_of_singleton in Hin. injection Hin as -> ->. done.
Qed.

End Reduce.

Section Attributes.
Context {V : Type} `{!JsAny V}.

Lemma NoDup_fmap_keys {C} (g : string → string) (l : list (string * C)) :
  NoDup l.*1 →
  (∀ k k', k ∈ l.*1 → k' ∈ l.*1 → g k = g k' → k = k') →
  NoDup (g <$> l.*1).
Proof.
  intros Hnd Hinj. induction Hnd as [|k ks Hk Hnd IH]; [constructor|].
  cbn. constructor.
  - intros Hin. apply list_elem_of_fmap in Hin as (k' & Heq & Hk').
    assert (k = k') as ->; [|done].
    apply Hinj; [by left|by right|done].
  - apply IH. intros a b Ha Hb. apply Hinj; by right.
Qed.

Lemma prefixed_entries (o : gmap string V) (l : list (string * V)) j v :
  l ≡ₚ map_to_list o →
  foldl (fun (acc : gmap string V) '(key, value) => <["attr_" +:+ key := value]> acc) ∅ l
    !! j = Some v
  ↔ ∃ k, j = "attr_" +:+ k ∧ o !! k = Some v.
Proof.
  intros Hl.
  assert (Hnd : NoDup l.*1) by (rewrite Hl; apply NoDup_fst_map_to_list).
  rewrite (reduce_lookup (fun key => "attr_" +:+ key) (fun v => v)).
  - split.
    + intros (k & v' & Hin & <- & <-). exists k. split; [done|].
      apply elem_of_map_to_list. by rewrite <- Hl.
    + intros (k & -> & Hk). exists k, v. split; [|done].
      rewrite Hl. by apply elem_of_map_to_list.
  - apply NoDup_fmap_keys; [done|]. intros k k' _ _. apply append_inj.
Qed.

Lemma prefixedAttributes_lookup (attributes : option (gmap string V)) j v :
  prefixedAttributes attributes !! j = Some v
  ↔ ∃ k, j = "attr_" +:+ k ∧ default ∅ attributes !! k = Some v.
Proof. by apply prefixed_entries. Qed.

Lemma prefixedAttributes_attr (attributes : option (gmap string V)) k :
  prefixedAttributes attributes !! ("attr_" +:+ k) = default ∅ attributes !! k.
Proof.
  apply option_eq. intros v. rewrite prefixedAttributes_lookup. split.
  - intros (k' & Heq & Hk). by apply append_inj in Heq as ->.
  - intros Hk. by exists k.
Qed.

Lemma prefixedAttributes_other (attributes : option (gmap string V)) j :
  String.prefix "attr_" j = false → prefixedAttributes attributes !! j = None.
Proof.
  intros Hj. apply eq_None_not_Some. intros [v Hv].
  apply prefixedAttributes_lookup in Hv as (k & -> & _).
  assert (String.prefix "attr_" ("attr_" +:+ k) = true) by (apply prefix_append; eauto).
  congruence.
Qed.

Lemma extracted_entries (o : gmap string V) (l : list (string * V)) k :
  l ≡ₚ map_to_list o →
  foldl (fun (acc : gmap string string) '(key, value) =>
           <[replaceFirst "attr_" "" key := stringOf value]> acc) ∅
    (filter (fun '(key, _) => String.prefix "attr_" key = true) l) !! k
  = stringOf <$> o !! ("attr_" +:+ k).
Proof.
  intros Hl.
  assert (Hnd : NoDup l.*1) by (rewrite Hl; apply NoDup_fst_map_to_list).
  set (keep := fun '((key, _) : string * V) => String.prefix "attr_" key = true).
  assert (Hsub : ∀ key value, (key, value) ∈ filter keep l
                   ↔ (∃ k', key = "attr_" +:+ k') ∧ o !! key = Some value).
  { intros key value. rewrite list_elem_of_filter. unfold keep.
    rewrite prefix_append, Hl, elem_of_map_to_list. done. }
  apply option_eq. intros w.
  rewrite (reduce_lookup (replaceFirst "attr_" "") stringOf).
  - rewrite fmap_Some. split.
    + intros (key & value & Hin & <- & <-). apply Hsub in Hin as [[k' ->] Hv].
      exists value. split; [|done].
      by rewrite (replaceFirst_prefix "attr_" "" k').
    + intros (value & Hv & ->). exists ("attr_" +:+ k), value. split_and!; [|by rewrite (replaceFirst_prefix "attr_" "" k)|done].
      apply Hsub. split; [by exists k|done].
  - apply NoDup_fmap_keys.
    + assert (Hsl : (filter keep l).*1 `sublist_of` l.*1).
      { apply fmap_sublist, sublist_filter. }
      by apply (sublist_NoDup _ _ Hnd).
    + intros a b Ha Hb.
      apply list_elem_of_fmap in Ha as ([a' va] & -> & Ha).
      apply list_elem_of_fmap in Hb as ([b' vb] & -> & Hb).
      apply Hsub in Ha as [[ka ->] _]. apply Hsub in Hb as [[kb ->] _]. cbn [fst].
      rewrite (replaceFirst_prefix "attr_" "" ka), (replaceFirst_prefix "attr_" "" kb).
      intros Heq. change (ka = kb) in Heq. by rewrite Heq.
Qed.

End Attributes.

Section LoadProperties.
Context {V : Type} `{!JsAny V}.

#[local] Abbreviation Node := (Node.t (NodeFields.t V)).
#[local] Abbreviation Edge := (Edge.t (EdgeFields.t V)).
Implicit Types (random : nat → R) (rooms : list (RoomResponse.t V)).
Implicit Types (exits : list (ExitResponse.t V)).
Implicit Types (existingNodes : list Node) (existingEdges : list Edge).
Implicit Types (ids : gset string).

(** *** The loop over the rooms *)

Lemma addRoom_known random (st : RoomsLoop) room :
  pretty (RoomResponse.id room) ∈ existingNodeIds st → addRoom random st room = st.
Proof. intros Hin. unfold addRoom. by rewrite decide_True. Qed.

Lemma addRoom_new random (st : RoomsLoop) room :
  pretty (RoomResponse.id room) ∉ existingNodeIds st →
  ∃ position,
    newNodes (addRoom random st room)
    = newNodes st ++ [createNodeFromApiRoom room (Some position)]
    ∧ existingNodeIds (addRoom random st room)
      = {[pretty (RoomResponse.id room)]} ∪ existingNodeIds st.
Proof. intros Hin. unfold addRoom. rewrite decide_False by done. by eexists. Qed.

Lemma addRoom_ids random (st : RoomsLoop) room :
  existingNodeIds (addRoom random st room)
  = {[pretty (RoomResponse.id room)]} ∪ existingNodeIds st.
Proof. unfold addRoom. case_decide; cbn; set_solver. Qed.

Lemma addRooms_ids_from random rooms (st : RoomsLoop) :
  existingNodeIds (foldl (addRoom random) st rooms)
  = existingNodeIds st ∪ list_to_set (roomIds rooms).
Proof.
  revert st. induction rooms as [|room rooms IH]; intros st; cbn.
  - set_solver.
  - rewrite IH, addRoom_ids. set_solver.
Qed.

Lemma addRooms_ids random existingNodes rooms :
  existingNodeIds (addRooms random existingNodes rooms) = idsAfter existingNodes rooms.
Proof. unfold addRooms. by rewrite addRooms_ids_from. Qed.

Lemma addRooms_inv random rooms (st : RoomsLoop) ids :
  existingNodeIds st = ids ∪ list_to_set (Node.id <$> newNodes st) →
  NoDup (Node.id <$> newNodes st) →
  (∀ k, k ∈ Node.id <$> newNodes st → k ∉ ids) →
  let st' := foldl (addRoom random) st rooms in
  existingNodeIds st' = ids ∪ list_to_set (Node.id <$> newNodes st')
  ∧ NoDup (Node.id <$> newNodes st')
  ∧ (∀ k, k ∈ Node.id <$> newNodes st' → k ∉ ids).
Proof.
  revert st. induction rooms as [|room rooms IH]; intros st Hids Hnd Hfresh; [done|].
  cbn. destruct (decide (pretty (RoomResponse.id room) ∈ existingNodeIds st)) as [Hin|Hin].
  - rewrite addRoom_known by done. by apply IH.
  - destruct (addRoom_new random st room Hin) as (position & Hnew & Hset).
    apply IH.
    + rewrite Hset, Hnew, fmap_app, list_to_set_app_L, Hids. cbn. set_solver.
    + rewrite Hnew, fmap_app. apply NoDup_app. split_and!; [done| |apply NoDup_singleton].
      intros k Hk Hk'. apply list_elem_of_singleton in Hk'. cbn in Hk'. subst k.
      apply Hin. rewrite Hids. set_solver.
    + intros k. rewrite Hnew, fmap_app, elem_of_app. intros [Hk|Hk]; [by apply Hfresh|].
      apply list_elem_of_singleton in Hk. cbn in Hk. subst k.
      intros Hk. apply Hin. rewrite Hids. set_solver.
Qed.

Lemma addRooms_fresh random existingNodes rooms :
  let st := addRooms random existingNodes rooms in
  NoDup (Node.id <$> newNodes st)
  ∧ (∀ k, k ∈ Node.id <$> newNodes st → k ∉ Node.id <$> existingNodes)
  ∧ idsAfter existingNodes rooms
    = list_to_set (Node.id <$> (existingNodes ++ newNodes st)).
Proof.
  cbv zeta. unfold addRooms.
  destruct (addRooms_inv random rooms
              {| newNodes := []; existingNodeIds := list_to_set (Node.id <$> existingNodes);
                 randomCalls := 0 |} (list_to_set (Node.id <$> existingNodes)))
    as (Hids & Hnd & Hfresh); cbn.
  - set_solver.
  - constructor.
  - intros k Hk. by apply elem_of_nil in Hk.
  - split_and!; [done| |].
    + intros k Hk Hk'. apply (Hfresh k Hk). by apply elem_of_list_to_set.
    + rewrite <- (addRooms_ids random). unfold addRooms. rewrite Hids.
      by rewrite fmap_app, list_to_set_app_L.
Qed.

Lemma addRooms_made random rooms (st : RoomsLoop) node :
  node ∈ newNodes (foldl (addRoom random) st rooms) →
  node ∈ newNodes st
  ∨ ∃ room position, room ∈ rooms ∧ node = createNodeFromApiRoom room (Some position).
Proof.
  revert st. induction rooms as [|room rooms IH]; intros st; cbn; [by left|].
  intros Hin. apply IH in Hin as [Hin|(room' & position & Hroom & ->)].
  - destruct (decide (pretty (RoomResponse.id room) ∈ existingNodeIds st)) as [Hk|Hk].
    + rewrite addRoom_known in Hin by done. by left.
    + destruct (addRoom_new random st room Hk) as (position & Hnew & _).
      rewrite Hnew in Hin. apply elem_of_app in Hin as [Hin|Hin]; [by left|].
      apply list_elem_of_singleton in Hin. right. exists room, position.
      split; [by left|done].
  - right. exists room', position. split; [by right|done].
Qed.

Lemma addRooms_grows random rooms (st : RoomsLoop) :
  (length (newNodes st) ≤ length (newNodes (foldl (addRoom random) st rooms)))%nat.
Proof.
  revert st. induction rooms as [|room rooms IH]; intros st; cbn; [done|].
  etrans; [|apply IH]. unfold addRoom. case_decide; cbn; [done|].
  rewrite length_app. lia.
Qed.

Lemma addRooms_same random rooms (st : RoomsLoop) :
  Forall (fun room => pretty (RoomResponse.id room) ∈ existingNodeIds st) rooms →
  foldl (addRoom random) st rooms = st.
Proof.
  induction 1 as [|room rooms Hroom _ IH]; [done|]. cbn.
  by rewrite addRoom_known.
Qed.

Lemma addRooms_more random rooms (st : RoomsLoop) :
  Exists (fun room => pretty (RoomResponse.id room) ∉ existingNodeIds st) rooms →
  (length (newNodes st) < length (newNodes (foldl (addRoom random) st rooms)))%nat.
Proof.
  induction 1 as [room rooms Hroom|room rooms Hex IH]; cbn.
  - destruct (addRoom_new random st room Hroom) as (position & Hnew & _).
    eapply Nat.lt_le_trans; [|apply addRooms_grows]. rewrite Hnew, length_app. cbn. lia.
  - destruct (decide (pretty (RoomResponse.id room) ∈ existingNodeIds st)) as [Hk|Hk].
    + by rewrite addRoom_known.
    + destruct (addRoom_new random st room Hk) as (position & Hnew & _).
      eapply Nat.lt_le_trans; [|apply addRooms_grows]. rewrite Hnew, length_app. cbn. lia.
Qed.

Lemma addRooms_nil random existingNodes rooms :
  newNodes (addRooms random existingNodes rooms) = []
  ↔ Forall (fun room => pretty (RoomResponse.id room) ∈ Node.id <$> existingNodes) rooms.
Proof.
  unfold addRooms. split.
  - intros Hnil. apply Forall_forall. intros room Hroom.
    destruct (decide (pretty (RoomResponse.id room) ∈ Node.id <$> existingNodes))
      as [|Hk]; [done|]. exfalso.
    assert (Hex : Exists (fun room => pretty (RoomResponse.id room)
                            ∉ existingNodeIds
                                {| newNodes := @nil Node;
                                   existingNodeIds := list_to_set (Node.id <$> existingNodes);
                                   randomCalls := 0 |}) rooms).
    { apply Exists_exists. exists room. split; [done|]. cbn.
      by rewrite elem_of_list_to_set. }
    apply (addRooms_more random) in Hex. rewrite Hnil in Hex. cbn in Hex. lia.
  - intros Hall. rewrite addRooms_same; [done|].
    eapply Forall_impl; [exact Hall|]. intros room Hroom. cbn.
    by apply elem_of_list_to_set.
Qed.

(** *** The loop over the exits *)

Lemma addExit_cases ids (st : ExitsLoop) exit :
  ((edgeIdOf exit ∈ existingEdgeIds st) ∨ looseExit ids exit) ∧ addExit ids st exit = st
  ∨ (edgeIdOf exit ∉ existingEdgeIds st) ∧ ¬ looseExit ids exit
    ∧ newEdges (addExit ids st exit) = newEdges st ++ [createEdgeFromApiExit exit]
    ∧ existingEdgeIds (addExit ids st exit) = {[edgeIdOf exit]} ∪ existingEdgeIds st.
Proof.
  unfold addExit, looseExit, edgeIdOf.
  destruct (decide ("e" +:+ pretty (ExitResponse.id exit) ∈ existingEdgeIds st)) as [Hk|Hk].
  { left. split; [by left|done]. }
  destruct (decide (pretty (ExitResponse.source_id exit) ∈ ids)) as [Hs|Hs].
  - destruct (decide (pretty (ExitResponse.destination_id exit) ∈ ids)) as [Ht|Ht].
    + right. rewrite !bool_decide_eq_true_2 by done. cbn. split_and!; [done| |done|done].
      intros [?|?]; done.
    + left. rewrite (bool_decide_eq_false_2 _ Ht), orb_true_r. split; [|done].
      right. by right.
  - left. rewrite (bool_decide_eq_false_2 _ Hs). cbn. split; [|done]. right. by left.
Qed.

Lemma addExits_inv ids exits (st : ExitsLoop) (taken : gset string) :
  existingEdgeIds st = taken ∪ list_to_set (Edge.id <$> newEdges st) →
  NoDup (Edge.id <$> newEdges st) →
  (∀ k, k ∈ Edge.id <$> newEdges st → k ∉ taken) →
  let st' := foldl (addExit ids) st exits in
  existingEdgeIds st' = taken ∪ list_to_set (Edge.id <$> newEdges st')
  ∧ NoDup (Edge.id <$> newEdges st')
  ∧ (∀ k, k ∈ Edge.id <$> newEdges st' → k ∉ taken).
Proof.
  revert st. induction exits as [|exit exits IH]; intros st Hids Hnd Hfresh; [done|].
  cbn. destruct (addExit_cases ids st exit) as [[_ ->]|(Hk & _ & Hnew & Hset)].
  - by apply IH.
  - apply IH.
    + rewrite Hset, Hnew, fmap_app, list_to_set_app_L, Hids. cbn. set_solver.
    + rewrite Hnew, fmap_app. apply NoDup_app. split_and!; [done| |apply NoDup_singleton].
      intros k Hk1 Hk2. apply list_elem_of_singleton in Hk2. cbn in Hk2. subst k.
      apply Hk. rewrite Hids. set_solver.
    + intros k. rewrite Hnew, fmap_app, elem_of_app. intros [Hk'|Hk']; [by apply Hfresh|].
      apply list_elem_of_singleton in Hk'. cbn in Hk'. subst k.
      intros Hk'. apply Hk. rewrite Hids. set_solver.
Qed.

Lemma addExits_fresh ids existingEdges exits :
  let st := addExits ids existingEdges exits in
  NoDup (Edge.id <$> newEdges st)
  ∧ (∀ k, k ∈ Edge.id <$> newEdges st → k ∉ Edge.id <$> existingEdges)
  ∧ existingEdgeIds st = list_to_set (Edge.id <$> (existingEdges ++ newEdges st)).
Proof.
  cbv zeta. unfold addExits.
  destruct (addExits_inv ids exits
              {| newEdges := []; existingEdgeIds := list_to_set (Edge.id <$> existingEdges) |}
              (list_to_set (Edge.id <$> existingEdges)))
    as (Hids & Hnd & Hfresh); cbn.
  - set_solver.
  - constructor.
  - intros k Hk. by apply elem_of_nil in Hk.
  - split_and!; [done| |].
    + intros k Hk Hk'. apply (Hfresh k Hk). by apply elem_of_list_to_set.
    + rewrite Hids. by rewrite fmap_app, list_to_set_app_L.
Qed.

Lemma addExits_made ids exits (st : ExitsLoop) edge :
  edge ∈ newEdges (foldl (addExit ids) st exits) →
  edge ∈ newEdges st
  ∨ ∃ exit, exit ∈ exits ∧ ¬ looseExit ids exit ∧ edge = createEdgeFromApiExit exit.
Proof.
  revert st. induction exits as [|exit exits IH]; intros st; cbn; [by left|].
  intros Hin. apply IH in Hin as [Hin|(exit' & Hexit & Hloose & ->)].
  - destruct (addExit_cases ids st exit) as [[_ Heq]|(_ & Hloose & Hnew & _)].
    + rewrite Heq in Hin. by left.
    + rewrite Hnew in Hin. apply elem_of_app in Hin as [Hin|Hin]; [by left|].
      apply list_elem_of_singleton in Hin. right. exists exit.
      split_and!; [by left|done|done].
  - right. exists exit'. split_and!; [by right|done|done].
Qed.

Lemma addExits_taken_mono ids exits (st : ExitsLoop) k :
  k ∈ existingEdgeIds st → k ∈ existingEdgeIds (foldl (addExit ids) st exits).
Proof.
  revert st. induction exits as [|exit exits IH]; intros st Hk; cbn; [done|].
  apply IH. destruct (addExit_cases ids st exit) as [[_ ->]|(_ & _ & _ & ->)]; [done|].
  set_solver.
Qed.

(** When the loop is over, every exit of the answer has its id among the
    taken ones, or an end that is no room. *)
Lemma addExits_settled ids exits (st : ExitsLoop) exit :
  exit ∈ exits →
  edgeIdOf exit ∈ existingEdgeIds (foldl (addExit ids) st exits) ∨ looseExit ids exit.
Proof.
  revert st. induction exits as [|exit' exits IH]; intros st Hin.
  { by apply elem_of_nil in Hin. }
  apply elem_of_cons in Hin as [->|Hin]; cbn; [|by apply IH].
  destruct (addExit_cases ids st exit') as [[[Hk|Hloose] ->]|(_ & _ & _ & Hset)].
  - left. by apply addExits_taken_mono.
  - by right.
  - left. apply addExits_taken_mono. rewrite Hset. set_solver.
Qed.

Lemma addExits_grows ids exits (st : ExitsLoop) :
  (length (newEdges st) ≤ length (newEdges (foldl (addExit ids) st exits)))%nat.
Proof.
  revert st. induction exits as [|exit exits IH]; intros st; cbn; [done|].
  etrans; [|apply IH].
  destruct (addExit_cases ids st exit) as [[_ ->]|(_ & _ & -> & _)]; [done|].
  rewrite length_app. lia.
Qed.

Lemma addExits_same ids exits (st : ExitsLoop) :
  Forall (fun exit => (edgeIdOf exit ∈ existingEdgeIds st) ∨ looseExit ids exit) exits →
  foldl (addExit ids) st exits = st.
Proof.
  induction 1 as [|exit exits Hexit _ IH]; [done|]. cbn.
  destruct (addExit_cases ids st exit) as [[_ ->]|(Hk & Hloose & _)]; [done|].
  by destruct Hexit.
Qed.

Lemma addExits_more ids exits (st : ExitsLoop) :
  Exists (fun exit => (edgeIdOf exit ∉ existingEdgeIds st) ∧ ¬ looseExit ids exit) exits →
  (length (newEdges st) < length (newEdges (foldl (addExit ids) st exits)))%nat.
Proof.
  induction 1 as [exit exits [Hk Hloose]|exit exits Hex IH]; cbn.
  - destruct (addExit_cases ids st exit) as [[[?|?] _]|(_ & _ & Hnew & _)]; [done..|].
    eapply Nat.lt_le_trans; [|apply addExits_grows]. rewrite Hnew, length_app. cbn. lia.
  - destruct (addExit_cases ids st exit) as [[_ ->]|(_ & _ & Hnew & _)]; [done|].
    eapply Nat.lt_le_trans; [|apply addExits_grows]. rewrite Hnew, length_app. cbn. lia.
Qed.

Lemma looseExit_dec ids (exit : ExitResponse.t V) : Decision (looseExit ids exit).
Proof. unfold looseExit. apply _. Qed.

Lemma addExits_nil ids existingEdges exits :
  newEdges (addExits ids existingEdges exits) = []
  ↔ Forall (fun exit => (edgeIdOf exit ∈ Edge.id <$> existingEdges) ∨ looseExit ids exit)
      exits.
Proof.
  unfold addExits. split.
  - intros Hnil. apply Forall_forall. intros exit Hexit.
    destruct (decide (edgeIdOf exit ∈ Edge.id <$> existingEdges)) as [|Hk]; [by left|].
    destruct (looseExit_dec ids exit) as [|Hloose]; [by right|]. exfalso.
    assert (Hex : Exists (fun exit => (edgeIdOf exit
                            ∉ existingEdgeIds
                                {| newEdges := @nil Edge;
                                   existingEdgeIds := list_to_set (Edge.id <$> existingEdges) |})
                            ∧ ¬ looseExit ids exit) exits).
    { apply Exists_exists. exists exit. split; [done|]. cbn.
      by rewrite elem_of_list_to_set. }
    apply addExits_more in Hex. rewrite Hnil in Hex. cbn in Hex. lia.
  - intros Hall. rewrite addExits_same; [done|].
    eapply Forall_impl; [exact Hall|]. intros exit [Hexit|Hexit]; [left|by right]. cbn.
    by apply elem_of_list_to_set.
Qed.

End LoadProperties.

Lemma filter_none {A} (P : A → Prop) `{!∀ x, Decision (P x)} (l : list A) :
  Forall (fun x => ¬ P x) l → filter P l = [].
Proof.
  induction 1 as [|x l Hx _ IH]; [done|]. by rewrite filter_cons_False.
Qed.

Lemma filter_all {A} (P : A → Prop) `{!∀ x, Decision (P x)} (l : list A) :
  Forall P l → filter P l = l.
Proof.
  induction 1 as [|x l Hx _ IH]; [done|]. rewrite filter_cons_True by done.
  by rewrite IH.
Qed.

Section LoadTheorems.
Context {V : Type} `{!JsAny V}.

#[local] Abbreviation Node := (Node.t (NodeFields.t V)).
#[local] Abbreviation Edge := (Edge.t (EdgeFields.t V)).
Implicit Types (random : nat → R) (rooms : list (RoomResponse.t V)).
Implicit Types (exits : list (ExitResponse.t V)).
Implicit Types (existingNodes : list Node) (existingEdges : list Edge).
Implicit Types (ids : gset string) (startRoomId : Z).

Lemma isNewEdge_true (newEdges : list Edge) (edge : Edge) :
  isNewEdge newEdges edge = true ↔ Edge.id edge ∈ Edge.id <$> newEdges.
Proof.
  unfold isNewEdge. rewrite existsb_exists, list_elem_of_fmap. split.
  - intros (e & He & Heq). apply bool_decide_eq_true in Heq. exists e.
    split; [done|]. by apply list_elem_of_In.
  - intros (e & Heq & He). exists e. split; [by apply list_elem_of_In|].
    by apply bool_decide_eq_true.
Qed.

Lemma enhanceEdge_id np (allEdges : list Edge) (edge : Edge) :
  Edge.id (enhanceEdge np allEdges edge) = Edge.id edge.
Proof. by destruct (enhanceEdge_sameButHandles np allEdges edge) as (-> & _). Qed.

Lemma enhanceEdge_ids np (allEdges l : list Edge) :
  Edge.id <$> (enhanceEdge np allEdges <$> l) = Edge.id <$> l.
Proof.
  rewrite <- list_fmap_compose. apply list_fmap_ext. intros _ e _. cbn.
  apply enhanceEdge_id.
Qed.

(** The filter by id keeps the enhanced versions of the new edges, and only
    them. *)
Lemma filter_new_edges np (allEdges existingEdges created : list Edge) :
  (∀ k, k ∈ Edge.id <$> created → k ∉ Edge.id <$> existingEdges) →
  filter (fun edge => isNewEdge created edge = true)
    (enhanceEdge np allEdges <$> (existingEdges ++ created))
  = enhanceEdge np allEdges <$> created.
Proof.
  intros Hfresh. rewrite fmap_app, filter_app.
  rewrite filter_none, filter_all; [done| |].
  - apply Forall_forall. intros e' He'. apply isNewEdge_true.
    apply list_elem_of_fmap in He' as (e & -> & He). rewrite enhanceEdge_id.
    apply list_elem_of_fmap. by exists e.
  - apply Forall_forall. intros e' He' Hnew. apply isNewEdge_true in Hnew.
    apply list_elem_of_fmap in He' as (e & -> & He). rewrite enhanceEdge_id in Hnew.
    apply (Hfresh _ Hnew). apply list_elem_of_fmap. by exists e.
Qed.

(** How the call goes on an answer with rooms. *)
Lemma load_unfold random rooms exits startRoomId existingNodes existingEdges :
  rooms ≠ [] →
  let created := newNodes (addRooms random existingNodes rooms) in
  let createdEdges :=
    newEdges (addExits (idsAfter existingNodes rooms) existingEdges exits) in
  loadRoomsFromApi random (Resolved (Some (RoomGraphResponse.mk (Some rooms) (Some exits))))
    startRoomId existingNodes existingEdges
  = if decide (created = [] ∧ createdEdges = []) then
      Resolved {| LoadResult.newNodes := [];
                  LoadResult.newEdges := [];
                  LoadResult.message :=
                    "All rooms and exits already exist in the diagram" |}
    else
      match calculateAutoLayout (existingNodes ++ created) (existingEdges ++ createdEdges)
              (Some (pretty startRoomId)) with
      | Returned layout =>
        Resolved {| LoadResult.newNodes := withPosition (nodePositions layout) <$> created;
                    LoadResult.newEdges :=
                      filter (fun edge => isNewEdge createdEdges edge = true)
                        (enhancedEdges layout);
                    LoadResult.message :=
                      "Added "
                      +:+ pretty (length (withPosition (nodePositions layout) <$> created))
                      +:+ " new rooms and "
                      +:+ pretty (length (filter (fun edge => isNewEdge createdEdges edge = true)
                                            (enhancedEdges layout)))
                      +:+ " new exits" |}
      | TypeError => Rejected TypeErrorThrown
      | OutOfFuel => Rejected FuelExhausted
      end.
Proof.
  intros Hrooms. cbv zeta. unfold loadRoomsFromApi.
  rewrite bool_decide_eq_false_2 by (by destruct rooms).
  rewrite addRooms_ids.
  destruct (newNodes (addRooms random existingNodes rooms)) as [|n ns] eqn:Hn.
  - destruct (newEdges (addExits (idsAfter existingNodes rooms) existingEdges exits))
      as [|e es] eqn:He.
    + by rewrite decide_True.
    + rewrite decide_False by (by intros [_ ?]). done.
  - rewrite decide_False by (by intros [? _]). done.
Qed.

Lemma idsAfter_nodes random existingNodes rooms k :
  k ∈ idsAfter existingNodes rooms
  ↔ k ∈ nodeIds (existingNodes ++ newNodes (addRooms random existingNodes rooms)).
Proof.
  destruct (addRooms_fresh random existingNodes rooms) as (_ & _ & ->).
  by rewrite elem_of_list_to_set.
Qed.

Lemma created_nodes_ids random existingNodes rooms k :
  k ∈ Node.id <$> newNodes (addRooms random existingNodes rooms)
  ↔ k ∈ roomIds rooms ∧ k ∉ Node.id <$> existingNodes.
Proof.
  destruct (addRooms_fresh random existingNodes rooms) as (_ & Hfresh & Hids).
  split.
  - intros Hk. split; [|by apply Hfresh].
    assert (Hin : k ∈ idsAfter existingNodes rooms).
    { rewrite Hids, elem_of_list_to_set, fmap_app, elem_of_app. by right. }
    unfold idsAfter in Hin. apply elem_of_union in Hin as [Hin|Hin].
    + apply elem_of_list_to_set in Hin. by apply Hfresh in Hk.
    + by apply elem_of_list_to_set in Hin.
  - intros [Hk Hnew].
    assert (Hin : k ∈ idsAfter existingNodes rooms).
    { unfold idsAfter. apply elem_of_union. right. by apply elem_of_list_to_set. }
    rewrite Hids, elem_of_list_to_set, fmap_app, elem_of_app in Hin.
    by destruct Hin.
Qed.

Lemma created_edges_ids ids existingEdges exits k :
  k ∈ Edge.id <$> newEdges (addExits ids existingEdges exits)
  ↔ ∃ exit, exit ∈ exits ∧ k = edgeIdOf exit
            ∧ (k ∉ Edge.id <$> existingEdges) ∧ ¬ looseExit ids exit.
Proof.
  destruct (addExits_fresh ids existingEdges exits) as (_ & Hfresh & Hids).
  split.
  - intros Hk. pose proof (Hfresh _ Hk) as Hnew.
    apply list_elem_of_fmap in Hk as (edge & -> & Hedge).
    apply addExits_made in Hedge as [Hedge|(exit & Hexit & Hloose & ->)].
    { by apply elem_of_nil in Hedge. }
    by exists exit.
  - intros (exit & Hexit & -> & Hnew & Hloose).
    destruct (addExits_settled ids exits
                {| newEdges := @nil Edge;
                   existingEdgeIds := list_to_set (Edge.id <$> existingEdges) |}
                exit Hexit) as [Hin|Hin]; [|done].
    fold (addExits ids existingEdges exits) in Hin.
    rewrite Hids, elem_of_list_to_set, fmap_app, elem_of_app in Hin.
    by destruct Hin.
Qed.

Lemma created_edges_wellformed random existingNodes existingEdges rooms exits edge :
  edge ∈ newEdges (addExits (idsAfter existingNodes rooms) existingEdges exits) →
  ¬ dangling (existingNodes ++ newNodes (addRooms random existingNodes rooms)) edge.
Proof.
  intros Hedge. apply addExits_made in Hedge as [Hedge|(exit & _ & Hloose & ->)].
  { by apply elem_of_nil in Hedge. }
  intros [Hd|Hd]; apply Hloose; [left|right]; intros Hin; apply Hd;
    by apply (idsAfter_nodes random).
Qed.

Lemma load_layout_wellformed random existingNodes existingEdges rooms exits :
  Forall (fun e => ¬ dangling
                       (existingNodes ++ newNodes (addRooms random existingNodes rooms)) e)
    (existingEdges ++ newEdges (addExits (idsAfter existingNodes rooms) existingEdges exits))
  ↔ Forall (fun e => ¬ looseEdge (idsAfter existingNodes rooms) e) existingEdges.
Proof.
  rewrite Forall_app. split.
  - intros [Hall _]. eapply Forall_impl; [exact Hall|]. intros e He [Hl|Hl]; apply He;
      [left|right]; intros Hin; apply Hl; by apply (idsAfter_nodes random).
  - intros Hall. split.
    + eapply Forall_impl; [exact Hall|]. intros e He [Hd|Hd]; apply He;
        [left|right]; intros Hin; apply Hd; by apply (idsAfter_nodes random) in Hin.
    + apply Forall_forall. intros e He.
      by apply (created_edges_wellformed random _ existingEdges _ exits).
Qed.

Lemma looseEdge_dec ids (edge : Edge) : Decision (looseEdge ids edge).
Proof. unfold looseEdge. apply _. Qed.

Lemma bringsNew_created random existingNodes existingEdges rooms exits :
  bringsNew existingNodes existingEdges rooms exits
  ↔ ¬ (newNodes (addRooms random existingNodes rooms) = []
       ∧ newEdges (addExits (idsAfter existingNodes rooms) existingEdges exits) = []).
Proof.
  rewrite addRooms_nil, addExits_nil. unfold bringsNew. split.
  - intros [Hex|Hex] [Hrooms Hexits].
    + apply Exists_exists in Hex as (room & Hroom & Hnew).
      rewrite Forall_forall in Hrooms. by apply Hnew, Hrooms.
    + apply Exists_exists in Hex as (exit & Hexit & Hnew & Hloose).
      rewrite Forall_forall in Hexits. by destruct (Hexits _ Hexit).
  - intros Hnot.
    destruct (decide (Forall (fun room => pretty (RoomResponse.id room)
                                ∈ Node.id <$> existingNodes) rooms)) as [Hrooms|Hrooms].
    + assert (Hdec : ∀ exit : ExitResponse.t V,
                {(edgeIdOf exit ∈ Edge.id <$> existingEdges)
                 ∨ looseExit (idsAfter existingNodes rooms) exit}
                + {(edgeIdOf exit ∉ Edge.id <$> existingEdges)
                   ∧ ¬ looseExit (idsAfter existingNodes rooms) exit}).
      { intros exit. destruct (decide (edgeIdOf exit ∈ Edge.id <$> existingEdges));
          [left; by left|].
        destruct (looseExit_dec (idsAfter existingNodes rooms) exit);
          [left; by right|by right]. }
      destruct (Forall_Exists_dec _ _ Hdec exits) as [Hexits|Hexits]; [|by right].
      exfalso. by apply Hnot.
    + left. apply not_Forall_Exists in Hrooms; [|apply _].
      eapply Exists_impl; [exact Hrooms|]. done.
Qed.

(** How the call ends, in terms of what it is given. *)
Lemma load_outcome random rooms exits startRoomId existingNodes existingEdges :
  rooms ≠ [] →
  let outcome :=
    loadRoomsFromApi random (Resolved (Some (RoomGraphResponse.mk (Some rooms) (Some exits))))
      startRoomId existingNodes existingEdges in
  let created := newNodes (addRooms random existingNodes rooms) in
  let createdEdges :=
    newEdges (addExits (idsAfter existingNodes rooms) existingEdges exits) in
  (¬ bringsNew existingNodes existingEdges rooms exits
   ∧ created = [] ∧ createdEdges = []
   ∧ outcome = Resolved {| LoadResult.newNodes := [];
                           LoadResult.newEdges := [];
                           LoadResult.message :=
                             "All rooms and exits already exist in the diagram" |})
  ∨ (bringsNew existingNodes existingEdges rooms exits
     ∧ Exists (looseEdge (idsAfter existingNodes rooms)) existingEdges
     ∧ outcome = Rejected TypeErrorThrown)
  ∨ (bringsNew existingNodes existingEdges rooms exits
     ∧ Forall (fun e => ¬ looseEdge (idsAfter existingNodes rooms) e) existingEdges
     ∧ ∃ layout,
         calculateAutoLayout (existingNodes ++ created) (existingEdges ++ createdEdges)
           (Some (pretty startRoomId)) = Returned layout
         ∧ outcome
           = Resolved
               {| LoadResult.newNodes := withPosition (nodePositions layout) <$> created;
                  LoadResult.newEdges :=
                    enhanceEdge (nodePositions layout) (existingEdges ++ createdEdges)
                    <$> createdEdges;
                  LoadResult.message :=
                    "Added " +:+ pretty (length created) +:+ " new rooms and "
                    +:+ pretty (length createdEdges) +:+ " new exits" |}).
Proof.
  intros Hrooms. cbv zeta. rewrite (load_unfold random) by done.
  case_decide as Hnew.
  { left. destruct Hnew as [Hn He]. split_and!; [|done..].
    rewrite (bringsNew_created random). intros Hnot. by apply Hnot. }
  right. assert (Hbrings : bringsNew existingNodes existingEdges rooms exits)
    by by apply (bringsNew_created random).
  destruct (decide (Forall (fun e => ¬ looseEdge (idsAfter existingNodes rooms) e)
                      existingEdges)) as [Hall|Hall].
  - right. split_and!; [done..|].
    pose proof Hall as Hwf. apply (load_layout_wellformed random _ _ _ exits) in Hwf.
    destruct (layout_returns _ _ (Some (pretty startRoomId)) Hwf) as [layout Hlayout].
    exists layout. split; [done|]. rewrite Hlayout.
    destruct (layout_returned_inv _ _ _ _ Hlayout) as (gIn & gOut & w & _ & _ & Hfin).
    assert (Henh : enhancedEdges layout
                   = enhanceEdge (nodePositions layout)
                       (existingEdges
                        ++ newEdges (addExits (idsAfter existingNodes rooms)
                                       existingEdges exits))
                     <$> (existingEdges
                          ++ newEdges (addExits (idsAfter existingNodes rooms)
                                         existingEdges exits))).
    { by rewrite Hfin. }
    rewrite Henh, filter_new_edges.
    + by rewrite !length_fmap.
    + by destruct (addExits_fresh (idsAfter existingNodes rooms) existingEdges exits)
        as (_ & ? & _).
  - left. apply not_Forall_Exists in Hall; [|intros e; apply not_dec, looseEdge_dec].
    assert (Hloose : Exists (looseEdge (idsAfter existingNodes rooms)) existingEdges).
    { eapply Exists_impl; [exact Hall|]. intros e He.
      by destruct (looseEdge_dec (idsAfter existingNodes rooms) e). }
    split_and!; [done..|].
    rewrite layout_throws; [done|]. apply Exists_app. left.
    eapply Exists_impl; [exact Hloose|]. intros e [Hl|Hl]; [left|right];
      intros Hin; apply Hl; by apply (idsAfter_nodes random).
Qed.

End LoadTheorems.

Section LoadResults.
Context {V : Type} `{!JsAny V}.

#[local] Abbreviation Node := (Node.t (NodeFields.t V)).
#[local] Abbreviation Edge := (Edge.t (EdgeFields.t V)).
Implicit Types (random : nat → R) (rooms : list (RoomResponse.t V)).
Implicit Types (exits : list (ExitResponse.t V)).
Implicit Types (existingNodes : list Node) (existingEdges : list Edge).
Implicit Types (ids : gset string) (startRoomId : Z).

(** *** The data of what is created *)

Lemma apiData_label label (attributes : option (gmap string V)) id :
  apiData label attributes id !! "label" = Some (ofString label).
Proof.
  unfold apiData. rewrite lookup_union_r by (by apply prefixedAttributes_other).
  apply lookup_insert_eq.
Qed.

Lemma apiData_description label (attributes : option (gmap string V)) id :
  apiData label attributes id !! "description"
  = Some (orElse (attributes ≫= (.!! "desc")) (ofString "")).
Proof.
  unfold apiData. rewrite lookup_union_r by (by apply prefixedAttributes_other).
  rewrite lookup_insert_ne by done. apply lookup_insert_eq.
Qed.

Lemma apiData_attr label (attributes : option (gmap string V)) id k :
  apiData label attributes id !! ("attr_" +:+ k) = default ∅ attributes !! k.
Proof.
  unfold apiData. destruct (default ∅ attributes !! k) as [v|] eqn:Hk.
  - apply lookup_union_Some_l. by rewrite prefixedAttributes_attr.
  - rewrite lookup_union_r by (by rewrite prefixedAttributes_attr).
    rewrite !lookup_insert_ne by done. apply lookup_empty.
Qed.

Lemma orElse_again (v : option V) (d : V) : orElse (Some (orElse v d)) d = orElse v d.
Proof.
  unfold orElse. destruct v as [v|]; [destruct (truthyValue v) eqn:Hv|].
  - by rewrite Hv.
  - by destruct (truthyValue d).
  - by destruct (truthyValue d).
Qed.

Lemma apiData_extract label (attributes : option (gmap string V)) id :
  extractAttributes (Some (apiData label attributes id))
  = stringOf <$> default ∅ attributes.
Proof.
  apply map_eq. intros k. unfold extractAttributes.
  rewrite (extracted_entries _ _ k (reflexivity _)), lookup_fmap. cbn.
  by rewrite apiData_attr.
Qed.

(** X14. The attributes a room or an exit came with are what is sent back
    for the node or edge made of it, as strings; the name is the one that
    was shown; the description is the [desc] attribute, not the
    description of the answer. *)
Theorem attributes_round_trip (room : RoomResponse.t V) (exit : ExitResponse.t V)
    position sourceId destId :
  let sentRoom := prepareRoomDataFromNode (createNodeFromApiRoom room position) in
  let sentExit :=
    prepareExitDataFromEdge (createEdgeFromApiExit exit) sourceId destId in
  room_name sentRoom
  = Some (ofString (if decide (RoomResponse.name room = "")
                    then "Room " +:+ pretty (RoomResponse.id room)
                    else RoomResponse.name room))
  ∧ room_description sentRoom
    = orElse (RoomResponse.attributes room ≫= (.!! "desc")) (ofString "")
  ∧ room_attributes sentRoom = stringOf <$> default ∅ (RoomResponse.attributes room)
  ∧ exit_attributes sentExit = stringOf <$> default ∅ (ExitResponse.attributes exit).
Proof.
  cbv zeta. unfold prepareRoomDataFromNode, prepareExitDataFromEdge. cbn.
  rewrite apiData_label, apiData_description, orElse_again, !apiData_extract. done.
Qed.

(** X15. [extractAttributes] returns, under [k], the string of what the
    data has under [attr_k], and nothing else: the other entries of the data
    are dropped. *)
Theorem extracted_attributes (data : option (gmap string V)) k :
  extractAttributes data !! k = stringOf <$> default ∅ data !! ("attr_" +:+ k).
Proof.
  unfold extractAttributes. destruct data as [o|]; cbn [default].
  - by apply extracted_entries.
  - by rewrite (extracted_entries ∅ _ k (reflexivity _)).
Qed.

(** X16. The order in which the entries of an object are listed does not
    matter for the two [reduce] calls: for every order, the prefixed
    attributes and the extracted attributes are the same. *)
Theorem entries_order_irrelevant (o : gmap string V) (entries : list (string * V)) :
  entries ≡ₚ map_to_list o →
  foldl (fun (acc : gmap string V) '(key, value) => <["attr_" +:+ key := value]> acc) ∅
    entries
  = prefixedAttributes (Some o)
  ∧ foldl (fun (acc : gmap string string) '(key, value) =>
             <[replaceFirst "attr_" "" key := stringOf value]> acc) ∅
      (filter (fun '(key, _) => String.prefix "attr_" key = true) entries)
    = extractAttributes (Some o).
Proof.
  intros Hperm. split; apply map_eq; intros j.
  - apply option_eq. intros v.
    by rewrite (prefixed_entries o entries j v Hperm), prefixedAttributes_lookup.
  - unfold extractAttributes. cbn [default].
    by rewrite (extracted_entries o entries j Hperm),
         (extracted_entries o _ j (reflexivity _)).
Qed.

(** *** How the call ends *)

(** X17. The call is rejected in three cases only: with the error of the
    request when [readRoomGraph] is rejected, which is passed on as it is;
    with the error of the invalid answer when the request brings an answer
    and the answer, its rooms or its exits are missing; with a [TypeError]
    when the answer has rooms, brings something new, and an edge of the
    diagram has an end that is no room of the diagram or of the answer.
    The edges made of the exits never make the layout fail. *)
Theorem load_rejected random request startRoomId existingNodes existingEdges e :
  loadRoomsFromApi random request startRoomId existingNodes existingEdges = Rejected e
  ↔ request = Rejected e
    ∨ (e = ErrorWith "Invalid response format from server"
       ∧ ∃ data, request = Resolved data
           ∧ ¬ ∃ rooms exits, data = Some (RoomGraphResponse.mk (Some rooms) (Some exits)))
    ∨ (e = TypeErrorThrown
       ∧ ∃ rooms exits,
           request = Resolved (Some (RoomGraphResponse.mk (Some rooms) (Some exits)))
           ∧ rooms ≠ []
           ∧ bringsNew existingNodes existingEdges rooms exits
           ∧ Exists (looseEdge (idsAfter existingNodes rooms)) existingEdges).
Proof.
  destruct request as [data|error].
  2: { split; [intros [= <-]; by left|].
       intros [[= <-]|[(_ & ? & ? & _)|(_ & ? & ? & ? & _)]]; done. }
  assert (∀ d, ¬ (∃ rooms exits, d = Some (RoomGraphResponse.mk (Some rooms) (Some exits))) →
            loadRoomsFromApi random (Resolved d) startRoomId existingNodes existingEdges
            = Rejected e
            ↔ Resolved d = Rejected e
              ∨ (e = ErrorWith "Invalid response format from server"
                 ∧ ∃ data, Resolved d = Resolved data
                     ∧ ¬ ∃ rooms exits,
                           data = Some (RoomGraphResponse.mk (Some rooms) (Some exits)))
              ∨ (e = TypeErrorThrown
                 ∧ ∃ rooms exits,
                     Resolved d
                     = Resolved (Some (RoomGraphResponse.mk (Some rooms) (Some exits)))
                     ∧ rooms ≠ []
                     ∧ bringsNew existingNodes existingEdges rooms exits
                     ∧ Exists (looseEdge (idsAfter existingNodes rooms)) existingEdges))
    as Hinvalid.
  { intros d Hd.
    assert (loadRoomsFromApi random (Resolved d) startRoomId existingNodes existingEdges
            = Rejected (ErrorWith "Invalid response format from server")) as ->.
    { destruct d as [[[rooms|] [exits|]]|]; try done. exfalso. apply Hd. by eexists _, _. }
    split.
    - intros [= <-]. right. left. split; [done|]. by exists d.
    - intros [?|[[-> _]|(_ & rooms & exits & [= ->] & _)]]; [done|done|].
      exfalso. apply Hd. by eexists _, _. }
  destruct data as [[[rooms|] [exits|]]|].
  2-5: (apply Hinvalid; by intros (? & ? & ?)).
  destruct (decide (rooms = [])) as [->|Hrooms].
  { split; [done|].
    intros [?|[(_ & d & [= <-] & Hnot)|(_ & rooms & exits' & [= <- _] & Hne & _)]];
      [done| |done].
    exfalso. apply Hnot. by eexists _, _. }
  destruct (load_outcome random rooms exits startRoomId existingNodes existingEdges Hrooms)
    as [(Hnew & _ & _ & ->)|[(Hnew & Hloose & ->)|(Hnew & Hall & layout & _ & ->)]].
  - split; [done|].
    intros [?|[(_ & d & [= <-] & Hnot)|(_ & rooms' & exits' & [= <- <-] & _ & Hnew' & _)]];
      [done| |done].
    exfalso. apply Hnot. by eexists _, _.
  - split.
    + intros [= <-]. right. right. split; [done|]. by exists rooms, exits.
    + intros [?|[(_ & d & [= <-] & Hnot)|[-> _]]]; [done| |done].
      exfalso. apply Hnot. by eexists _, _.
  - split; [done|].
    intros [?|[(_ & d & [= <-] & Hnot)|(_ & rooms' & exits' & [= <- <-] & _ & _ & Hloose)]];
      [done| |].
    + exfalso. apply Hnot. by eexists _, _.
    + apply Exists_exists in Hloose as (edge & Hedge & Hloose).
      rewrite Forall_forall in Hall. exfalso. by apply (Hall edge).
Qed.

Lemma withPosition_ids np (l : list Node) :
  PlacedNode.id <$> (withPosition np <$> l) = Node.id <$> l.
Proof. rewrite <- list_fmap_compose. by apply list_fmap_ext. Qed.

(** X18. The nodes the call returns are the rooms of the answer whose ids
    are not in the diagram, each once; every one of them has a position, and
    the data made of its room. *)
Theorem loaded_nodes random rooms exits startRoomId existingNodes existingEdges r :
  loadRoomsFromApi random (Resolved (Some (RoomGraphResponse.mk (Some rooms) (Some exits))))
    startRoomId existingNodes existingEdges = Resolved r →
  NoDup (PlacedNode.id <$> LoadResult.newNodes r)
  ∧ (∀ k, k ∈ PlacedNode.id <$> LoadResult.newNodes r
          ↔ k ∈ roomIds rooms ∧ k ∉ Node.id <$> existingNodes)
  ∧ ∀ node, node ∈ LoadResult.newNodes r →
      is_Some (PlacedNode.position node)
      ∧ ∃ room, room ∈ rooms
                ∧ PlacedNode.id node = pretty (RoomResponse.id room)
                ∧ PlacedNode.data node = Node.data (createNodeFromApiRoom room None).
Proof.
  destruct (decide (rooms = [])) as [->|Hrooms].
  { intros [= <-]. cbn. split_and!; [constructor| |].
    - intros k. split; [by intros ?%elem_of_nil|]. by intros [?%elem_of_nil _].
    - by intros node ?%elem_of_nil. }
  destruct (load_outcome random rooms exits startRoomId existingNodes existingEdges Hrooms)
    as [(_ & Hn & _ & ->)|[(_ & _ & ->)|(_ & _ & layout & Hlayout & ->)]];
    [|done|]; intros [= <-]; cbn.
  - split_and!; [constructor| |by intros node ?%elem_of_nil].
    intros k. rewrite <- (created_nodes_ids random), Hn. done.
  - rewrite withPosition_ids. split_and!.
    + by destruct (addRooms_fresh random existingNodes rooms) as (? & _).
    + apply created_nodes_ids.
    + intros node Hnode. apply list_elem_of_fmap in Hnode as (n & -> & Hn). cbn. split.
      * apply elem_of_dom. rewrite (layout_dom _ _ _ _ Hlayout), elem_of_list_to_set.
        unfold nodeIds. rewrite fmap_app, elem_of_app. right.
        apply list_elem_of_fmap. by exists n.
      * apply addRooms_made in Hn as [Hn|(room & position & Hroom & ->)].
        { by apply elem_of_nil in Hn. }
        by exists room.
Qed.

(** X19. The edges the call returns on an answer with rooms are made of the
    exits of the answer whose ids are not in the diagram and whose ends are
    rooms of the diagram or of the answer, one for each id; both handles of
    every one of them are set, and its ends are nodes of the diagram or of
    the nodes returned with it. *)
Theorem loaded_edges random rooms exits startRoomId existingNodes existingEdges r :
  loadRoomsFromApi random (Resolved (Some (RoomGraphResponse.mk (Some rooms) (Some exits))))
    startRoomId existingNodes existingEdges = Resolved r →
  rooms ≠ [] →
  NoDup (Edge.id <$> LoadResult.newEdges r)
  ∧ (∀ k, k ∈ Edge.id <$> LoadResult.newEdges r
          ↔ ∃ exit, exit ∈ exits ∧ k = edgeIdOf exit
                    ∧ (k ∉ Edge.id <$> existingEdges)
                    ∧ ¬ looseExit (idsAfter existingNodes rooms) exit)
  ∧ ∀ edge, edge ∈ LoadResult.newEdges r →
      is_Some (Edge.sourceHandle edge) ∧ is_Some (Edge.targetHandle edge)
      ∧ Edge.source edge
        ∈ (Node.id <$> existingNodes) ++ (PlacedNode.id <$> LoadResult.newNodes r)
      ∧ Edge.target edge
        ∈ (Node.id <$> existingNodes) ++ (PlacedNode.id <$> LoadResult.newNodes r)
      ∧ ∃ exit, exit ∈ exits ∧ sameButHandles (createEdgeFromApiExit exit) edge.
Proof.
  intros Hr Hrooms. revert Hr.
  destruct (load_outcome random rooms exits startRoomId existingNodes existingEdges Hrooms)
    as [(_ & _ & He & ->)|[(_ & _ & ->)|(_ & _ & layout & Hlayout & ->)]];
    [|done|]; intros [= <-]; cbn.
  - split_and!; [constructor| |by intros edge ?%elem_of_nil].
    intros k. rewrite <- created_edges_ids, He. done.
  - rewrite enhanceEdge_ids, withPosition_ids. split_and!.
    + by destruct (addExits_fresh (idsAfter existingNodes rooms) existingEdges exits)
        as (? & _).
    + apply created_edges_ids.
    + intros edge Hedge. apply list_elem_of_fmap in Hedge as (e0 & -> & He0).
      pose proof (created_edges_wellformed random _ _ _ _ _ He0) as Hwf.
      assert (Hs : Edge.source e0
                   ∈ nodeIds (existingNodes
                              ++ newNodes (addRooms random existingNodes rooms))).
      { destruct (decide (Edge.source e0
                          ∈ nodeIds (existingNodes
                                     ++ newNodes (addRooms random existingNodes rooms))));
          [done|]. exfalso. apply Hwf. by left. }
      assert (Ht : Edge.target e0
                   ∈ nodeIds (existingNodes
                              ++ newNodes (addRooms random existingNodes rooms))).
      { destruct (decide (Edge.target e0
                          ∈ nodeIds (existingNodes
                                     ++ newNodes (addRooms random existingNodes rooms))));
          [done|]. exfalso. apply Hwf. by right. }
      pose proof (layout_dom _ _ _ _ Hlayout) as Hdom.
      assert (is_Some (nodePositions layout !! Edge.source e0)) as [sp Hsp].
      { apply elem_of_dom. rewrite Hdom. by apply elem_of_list_to_set. }
      assert (is_Some (nodePositions layout !! Edge.target e0)) as [tp Htp].
      { apply elem_of_dom. rewrite Hdom. by apply elem_of_list_to_set. }
      pose proof (enhanceEdge_handles (nodePositions layout)
                    (existingEdges
                     ++ newEdges (addExits (idsAfter existingNodes rooms) existingEdges exits))
                    e0 sp tp Hsp Htp) as Hh.
      unfold handlesOf, someHandles in Hh. injection Hh as Hsh Hth.
      pose proof (enhanceEdge_sameButHandles (nodePositions layout)
                    (existingEdges
                     ++ newEdges (addExits (idsAfter existingNodes rooms) existingEdges exits))
                    e0) as Hsame.
      destruct Hsame as (Hid & Hsrc & Htgt & Hdata).
      split_and!.
      * by rewrite Hsh.
      * by rewrite Hth.
      * rewrite Hsrc. unfold nodeIds in Hs. by rewrite fmap_app in Hs.
      * rewrite Htgt. unfold nodeIds in Ht. by rewrite fmap_app in Ht.
      * apply addExits_made in He0 as [He0|(exit & Hexit & _ & ->)].
        { by apply elem_of_nil in He0. }
        exists exit. split; [done|]. by split_and!.
Qed.

(** X20. Loading the same answer again, into the diagram with the returned
    nodes and edges added, brings nothing: no node and no edge is returned,
    whatever the start room and the random numbers. *)
Theorem load_again random random' request startRoomId startRoomId'
    existingNodes existingEdges r (added : list Node) :
  loadRoomsFromApi random request startRoomId existingNodes existingEdges = Resolved r →
  Node.id <$> added = PlacedNode.id <$> LoadResult.newNodes r →
  ∃ message,
    loadRoomsFromApi random' request startRoomId' (existingNodes ++ added)
      (existingEdges ++ LoadResult.newEdges r)
    = Resolved {| LoadResult.newNodes := [];
                  LoadResult.newEdges := [];
                  LoadResult.message := message |}.
Proof.
  destruct request as [[[[rooms|] [exits|]]|]|error]; [|done..].
  destruct (decide (rooms = [])) as [->|Hrooms]; [by eexists|].
  intros Hr Hadded. eexists. rewrite (load_unfold random') by done.
  rewrite decide_True; [done|]. revert Hr Hadded.
  destruct (load_outcome random rooms exits startRoomId existingNodes existingEdges Hrooms)
    as [(_ & Hn & He & ->)|[(_ & _ & ->)|(_ & _ & layout & Hlayout & ->)]];
    [|done|]; intros [= <-]; cbn; intros Hadded.
  - apply fmap_nil_inv in Hadded as ->. rewrite !app_nil_r. split; [|done].
    apply addRooms_nil. by apply (addRooms_nil random).
  - rewrite withPosition_ids in Hadded.
    assert (Hids : idsAfter (existingNodes ++ added) rooms = idsAfter existingNodes rooms).
    { apply set_eq. intros k. unfold idsAfter at 1.
      rewrite fmap_app, Hadded, <- fmap_app, elem_of_union, !elem_of_list_to_set.
      fold (nodeIds (existingNodes ++ newNodes (addRooms random existingNodes rooms))).
      rewrite <- (idsAfter_nodes random). unfold idsAfter.
      rewrite elem_of_union, !elem_of_list_to_set. tauto. }
    split.
    + apply addRooms_nil. apply Forall_forall. intros room Hroom.
      rewrite fmap_app, Hadded, <- fmap_app.
      fold (nodeIds (existingNodes ++ newNodes (addRooms random existingNodes rooms))).
      apply (idsAfter_nodes random). unfold idsAfter. apply elem_of_union. right.
      apply elem_of_list_to_set. unfold roomIds. apply list_elem_of_fmap. by exists room.
    + rewrite Hids. apply addExits_nil. apply Forall_forall. intros exit Hexit.
      destruct (addExits_settled (idsAfter existingNodes rooms) exits
                  {| newEdges := @nil Edge;
                     existingEdgeIds := list_to_set (Edge.id <$> existingEdges) |}
                  exit Hexit) as [Hin|Hin]; [|by right].
      left. fold (addExits (idsAfter existingNodes rooms) existingEdges exits) in Hin.
      destruct (addExits_fresh (idsAfter existingNodes rooms) existingEdges exits)
        as (_ & _ & Hset).
      rewrite Hset, elem_of_list_to_set in Hin.
      by rewrite fmap_app, enhanceEdge_ids, <- fmap_app.
Qed.

End LoadResults.

Lemma pretty_N_go_nonempty (x : N) (s : string) : s ≠ "" → pretty_N_go x s ≠ "".
Proof.
  revert s. induction (N.lt_wf_0 x) as [x _ IH]. intros s Hs.
  destruct (decide (x = 0%N)) as [->|Hx].
  - by rewrite pretty_N_go_0.
  - rewrite pretty_N_go_step by lia. apply IH; [|done].
    apply N.div_lt; lia.
Qed.

(** The decimal notation of an integer is never empty. *)
Lemma pretty_Z_nonempty (z : Z) : pretty z ≠ "".
Proof.
  destruct z as [|p|p]; [done| |done].
  change (pretty (N.pos p) ≠ ""). unfold pretty, pretty_N.
  rewrite decide_False by done. rewrite pretty_N_go_step by lia.
  by apply pretty_N_go_nonempty.
Qed.

Section LoadRandom.
Context {V : Type} `{!JsAny V}.

#[local] Abbreviation Node := (Node.t (NodeFields.t V)).
#[local] Abbreviation Edge := (Edge.t (EdgeFields.t V)).
Implicit Types (random : nat → R) (rooms : list (RoomResponse.t V)).
Implicit Types (exits : list (ExitResponse.t V)).
Implicit Types (existingNodes : list Node) (existingEdges : list Edge).
Implicit Types (ids : gset string) (startRoomId : Z).

(** *** What the random numbers reach *)

(** The random numbers are in the positions of the created nodes, and
    nowhere else. *)
Lemma addRooms_random_from random random' rooms (st st' : RoomsLoop) :
  existingNodeIds st' = existingNodeIds st →
  Forall2 (fun n n' : Node => Node.id n' = Node.id n ∧ Node.data n' = Node.data n)
    (newNodes st) (newNodes st') →
  Forall2 (fun n n' : Node => Node.id n' = Node.id n ∧ Node.data n' = Node.data n)
    (newNodes (foldl (addRoom random) st rooms))
    (newNodes (foldl (addRoom random') st' rooms)).
Proof.
  revert st st'. induction rooms as [|room rooms IH]; intros st st' Hids Hnodes; [done|].
  cbn. apply IH.
  - by rewrite !addRoom_ids, Hids.
  - unfold addRoom. rewrite Hids. case_decide; [done|]. cbn.
    apply Forall2_app; [done|]. by repeat constructor.
Qed.

Lemma addRooms_random random random' existingNodes rooms :
  Forall2 (fun n n' : Node => Node.id n' = Node.id n ∧ Node.data n' = Node.data n)
    (newNodes (addRooms random existingNodes rooms))
    (newNodes (addRooms random' existingNodes rooms)).
Proof. unfold addRooms. apply addRooms_random_from; [done|constructor]. Qed.

Lemma same_ids (l l' : list Node) :
  Forall2 (fun n n' : Node => Node.id n' = Node.id n ∧ Node.data n' = Node.data n) l l' →
  Node.id <$> l' = Node.id <$> l.
Proof. induction 1 as [|n n' l l' [Hid _] _ IH]; [done|]. cbn. by rewrite Hid, IH. Qed.

Lemma same_placed np (l l' : list Node) :
  Forall2 (fun n n' : Node => Node.id n' = Node.id n ∧ Node.data n' = Node.data n) l l' →
  withPosition np <$> l' = withPosition np <$> l.
Proof.
  induction 1 as [|n n' l l' [Hid Hdata] _ IH]; [done|]. cbn. rewrite IH.
  unfold withPosition. by rewrite Hid, Hdata.
Qed.

(** X21. The random numbers decide nothing when every returned node can be
    reached from the start room along the edges of the diagram and the
    returned edges: with any other random numbers the call resolves to the
    same nodes, positions, edges and message. *)
Theorem random_positions_overwritten random random' rooms exits startRoomId
    existingNodes existingEdges r :
  loadRoomsFromApi random (Resolved (Some (RoomGraphResponse.mk (Some rooms) (Some exits))))
    startRoomId existingNodes existingEdges = Resolved r →
  pretty startRoomId
  ∈ (Node.id <$> existingNodes) ++ (PlacedNode.id <$> LoadResult.newNodes r) →
  (∀ k, k ∈ PlacedNode.id <$> LoadResult.newNodes r →
        reachable (existingEdges ++ LoadResult.newEdges r) [pretty startRoomId] k) →
  loadRoomsFromApi random' (Resolved (Some (RoomGraphResponse.mk (Some rooms) (Some exits))))
    startRoomId existingNodes existingEdges = Resolved r.
Proof.
  destruct (decide (rooms = [])) as [->|Hrooms]; [done|].
  pose proof (addRooms_random random random' existingNodes rooms) as Hsim.
  destruct (load_outcome random rooms exits startRoomId existingNodes existingEdges Hrooms)
    as [(Hnew & _ & _ & ->)|[(_ & _ & ->)|(Hnew & Hall & layout & Hlayout & ->)]];
    [|done|]; intros [= <-]; cbn [LoadResult.newNodes LoadResult.newEdges].
  - intros _ _.
    by destruct (load_outcome random' rooms exits startRoomId existingNodes existingEdges
                   Hrooms)
      as [(_ & _ & _ & ->)|[(? & _)|(? & _)]].
  - rewrite withPosition_ids. intros Hstart Hreach.
    destruct (load_outcome random' rooms exits startRoomId existingNodes existingEdges
                Hrooms)
      as [(Hnew' & _)|[(_ & Hloose & _)|(_ & _ & layout' & Hlayout' & ->)]].
    + done.
    + exfalso. apply Exists_exists in Hloose as (edge & Hedge & Hloose).
      rewrite Forall_forall in Hall. by apply (Hall edge).
    + set (created := newNodes (addRooms random existingNodes rooms)) in *.
      set (created' := newNodes (addRooms random' existingNodes rooms)) in *.
      set (createdEdges :=
             newEdges (addExits (idsAfter existingNodes rooms) existingEdges exits)) in *.
      pose proof (same_ids _ _ Hsim) as Hids.
      destruct (layout_returned_inv _ _ _ _ Hlayout) as (gIn & gOut & w & Hg & _ & _).
      assert (Hroots : rootNodeIds (existingNodes ++ created) gIn
                         (Some (pretty startRoomId)) = [pretty startRoomId]).
      { apply rootNodeIds_start; [apply pretty_Z_nonempty|].
        unfold nodeIds. by rewrite fmap_app. }
      assert (Hsame : calculateAutoLayout (existingNodes ++ created')
                        (existingEdges ++ createdEdges) (Some (pretty startRoomId))
                      = Returned layout).
      { apply (layout_same_unreached (existingNodes ++ created) _ _ _ _ gIn gOut);
          [|done|done|].
        - unfold nodeIds. by rewrite !fmap_app, Hids.
        - intros k Hk. rewrite Hroots in Hk.
          assert (Hnot : k ∉ Node.id <$> created).
          { intros Hin. apply Hk.
            apply (reachable_ends _
                     (existingEdges
                      ++ (enhanceEdge (nodePositions layout) (existingEdges ++ createdEdges)
                          <$> createdEdges))); [|by apply Hreach].
            intros e' He'. apply elem_of_app in He' as [He'|He'].
            - exists e'. split; [|done]. apply elem_of_app. by left.
            - apply list_elem_of_fmap in He' as (e & -> & He). exists e.
              split; [apply elem_of_app; by right|].
              by destruct (enhanceEdge_sameButHandles (nodePositions layout)
                             (existingEdges ++ createdEdges) e) as (_ & -> & -> & _). }
          rewrite !initTables_app_notin; [done| |]; unfold nodeIds; by rewrite ?Hids. }
      rewrite Hsame in Hlayout'. injection Hlayout' as <-.
      rewrite (same_placed _ _ _ Hsim).
      by rewrite <- (Forall2_length _ _ _ Hsim).
Qed.


End LoadRandom.

(** ** The loader on the examples *)

(** The answer brings the hall and the cellar and the stairs between them
    into the diagram with the yard. *)
Lemma answer_created :
  Node.id <$> newNodes (addRooms dice [yard] [hall; cellar]) = ["1"; "2"]
  ∧ newEdges (addExits (idsAfter [yard] [hall; cellar]) []
                [stairsDown; door; stairsUp])
    = [createEdgeFromApiExit stairsDown; createEdgeFromApiExit stairsUp].
Proof. split; vm_compute; reflexivity. Qed.

Lemma answer_brings_new (existingEdges : list (Edge.t (EdgeFields.t JsValue))) :
  bringsNew [yard] existingEdges [hall; cellar] [stairsDown; door; stairsUp].
Proof.
  left. apply Exists_cons_hd. apply (bool_decide_unpack _). vm_compute. reflexivity.
Qed.

Lemma answer_loaded :
  ∃ r, loadRoomsFromApi dice (Resolved (Some answer)) 1 [yard] [] = Resolved r
       ∧ PlacedNode.id <$> LoadResult.newNodes r = ["1"; "2"]
       ∧ ∃ e, e ∈ LoadResult.newEdges r ∧ Edge.source e = "1" ∧ Edge.target e = "2".
Proof.
  unfold answer.
  destruct (load_outcome dice [hall; cellar] [stairsDown; door; stairsUp] 1 [yard] []
              ltac:(discriminate))
    as [(Hnew & _)|[(_ & Hloose & _)|(_ & _ & layout & _ & Heq)]].
  - exfalso. apply Hnew, answer_brings_new.
  - exfalso. apply Exists_nil in Hloose. exact Hloose.
  - destruct answer_created as [Hids Hedges].
    rewrite Heq. eexists. split; [reflexivity|].
    cbn [LoadResult.newNodes LoadResult.newEdges].
    rewrite withPosition_ids, Hids, Hedges. split; [reflexivity|].
    exists (enhanceEdge (nodePositions layout)
              ([] ++ [createEdgeFromApiExit stairsDown; createEdgeFromApiExit stairsUp])
              (createEdgeFromApiExit stairsDown)).
    split; [rewrite fmap_cons; apply list_elem_of_here|].
    destruct (enhanceEdge_sameButHandles (nodePositions layout)
                ([] ++ [createEdgeFromApiExit stairsDown; createEdgeFromApiExit stairsUp])
                (createEdgeFromApiExit stairsDown)) as (_ & Hs & Ht & _).
    rewrite Hs, Ht. split; reflexivity.
Qed.

(** X16 at the attributes of the hall, listed backwards. *)
Lemma entries_order_irrelevant_witness :
  foldl (fun (acc : gmap string JsValue) '(key, value) => <["attr_" +:+ key := value]> acc)
    ∅ (reverse (map_to_list hallAttributes))
  = prefixedAttributes (Some hallAttributes)
  ∧ foldl (fun (acc : gmap string string) '(key, value) =>
             <[replaceFirst "attr_" "" key := stringOf value]> acc) ∅
      (filter (fun '(key, _) => String.prefix "attr_" key = true)
         (reverse (map_to_list hallAttributes)))
    = extractAttributes (Some hallAttributes).
Proof.
  apply (entries_order_irrelevant hallAttributes (reverse (map_to_list hallAttributes))).
  apply reverse_Permutation.
Defined.

(** X17 at the diagram with the bridge: the layout fails on it; and at a
    request that failed. *)
Lemma load_rejected_witness :
  loadRoomsFromApi dice (Resolved (Some answer)) 1 [yard] [bridge]
  = Rejected TypeErrorThrown
  ∧ loadRoomsFromApi dice (Rejected (ErrorWith "Network Error")) 1 [yard] [bridge]
    = Rejected (ErrorWith "Network Error").
Proof.
  unfold answer. split.
  - apply load_rejected.
    right. right. split; [reflexivity|].
    exists [hall; cellar], [stairsDown; door; stairsUp].
    split_and!; [reflexivity|discriminate|apply answer_brings_new|].
    apply Exists_cons_hd. right. apply (bool_decide_unpack _). vm_compute. reflexivity.
  - apply load_rejected. left. reflexivity.
Defined.

(** X18 at the answer and the diagram with the yard. *)
Lemma loaded_nodes_witness :
  ∃ r, loadRoomsFromApi dice (Resolved (Some answer)) 1 [yard] [] = Resolved r
       ∧ NoDup (PlacedNode.id <$> LoadResult.newNodes r)
       ∧ (∀ k, k ∈ PlacedNode.id <$> LoadResult.newNodes r
               ↔ k ∈ roomIds [hall; cellar] ∧ k ∉ Node.id <$> [yard])
       ∧ ∀ node, node ∈ LoadResult.newNodes r →
           is_Some (PlacedNode.position node)
           ∧ ∃ room, room ∈ [hall; cellar]
                     ∧ PlacedNode.id node = pretty (RoomResponse.id room)
                     ∧ PlacedNode.data node
                       = Node.data (createNodeFromApiRoom room None).
Proof.
  destruct answer_loaded as (r & Hr & _). exists r. split; [exact Hr|].
  unfold answer in Hr.
  apply (loaded_nodes dice [hall; cellar] [stairsDown; door; stairsUp] 1 [yard] [] r Hr).
Defined.

(** X19 at the answer and the diagram with the yard. *)
Lemma loaded_edges_witness :
  ∃ r, loadRoomsFromApi dice (Resolved (Some answer)) 1 [yard] [] = Resolved r
       ∧ NoDup (Edge.id <$> LoadResult.newEdges r)
       ∧ ∀ edge, edge ∈ LoadResult.newEdges r →
           is_Some (Edge.sourceHandle edge) ∧ is_Some (Edge.targetHandle edge).
Proof.
  destruct answer_loaded as (r & Hr & _). exists r. split; [exact Hr|].
  unfold answer in Hr.
  destruct (loaded_edges dice [hall; cellar] [stairsDown; door; stairsUp] 1 [yard] [] r Hr)
    as (Hnd & _ & Hedges); [discriminate|].
  split; [exact Hnd|]. intros edge Hedge.
  destruct (Hedges edge Hedge) as (Hs & Ht & _). split; [exact Hs|exact Ht].
Defined.

(** X20 at the answer: loaded again with other random numbers and another
    start room. *)
Lemma load_again_witness :
  ∃ r message,
    loadRoomsFromApi dice (Resolved (Some answer)) 1 [yard] [] = Resolved r
    ∧ loadRoomsFromApi (fun _ => 0) (Resolved (Some answer)) 2
        ([yard] ++ ((fun node => Node.mk (PlacedNode.id node) (NodePosition.mk 0 0)
                                   (PlacedNode.data node))
                    <$> LoadResult.newNodes r))
        ([] ++ LoadResult.newEdges r)
      = Resolved {| LoadResult.newNodes := [];
                    LoadResult.newEdges := [];
                    LoadResult.message := message |}.
Proof.
  destruct answer_loaded as (r & Hr & _).
  destruct (load_again dice (fun _ => 0) (Resolved (Some answer)) 1 2 [yard] [] r
              ((fun node => Node.mk (PlacedNode.id node) (NodePosition.mk 0 0)
                              (PlacedNode.data node))
               <$> LoadResult.newNodes r) Hr)
    as [message Hagain].
  - rewrite <- list_fmap_compose. reflexivity.
  - exists r, message. split; [exact Hr|exact Hagain].
Defined.

(** X21 at the answer: the cellar is reached from the hall by the stairs. *)
Lemma random_positions_overwritten_witness :
  ∃ r, loadRoomsFromApi dice (Resolved (Some answer)) 1 [yard] [] = Resolved r
       ∧ loadRoomsFromApi (fun _ => 0) (Resolved (Some answer)) 1 [yard] [] = Resolved r.
Proof.
  destruct answer_loaded as (r & Hr & Hids & e & He & Hs & Ht).
  exists r. split; [exact Hr|]. unfold answer in *.
  apply (random_positions_overwritten dice (fun _ => 0) [hall; cellar]
           [stairsDown; door; stairsUp] 1 [yard] [] r Hr).
  - rewrite Hids. apply (bool_decide_unpack _). vm_compute. reflexivity.
  - rewrite Hids. intros k Hk.
    apply elem_of_cons in Hk as [->|Hk].
    + apply reach_root. apply (bool_decide_unpack _). vm_compute. reflexivity.
    + apply list_elem_of_singleton in Hk as ->. rewrite <- Ht.
      apply reach_edge; [exact He|]. rewrite Hs. apply reach_root.
      apply (bool_decide_unpack _). vm_compute. reflexivity.
Defined.

(** * Properties of the layout inside [loadRooms] *)

Section InlineLayoutProperties.
Context {ND ED : Type}.

#[local] Abbreviation Node := (Node.t ND).
#[local] Abbreviation Edge := (Edge.t ED).
Implicit Types (nodes newNodes allNodes remaining : list Node).
Implicit Types (edges newEdges allEdges : list Edge).
Implicit Types (gIn gOut : GraphConnections) (np : gmap string NodePosition.t).
Implicit Types (random : nat → R) (calls : nat) (w : Walk).

(** *** The tables of the copy *)

Lemma loadRooms_initTables_snoc nodes allNodes (node : Node) :
  loadRooms_initTables nodes (allNodes ++ [node])
  = loadRooms_initNode nodes (loadRooms_initTables nodes allNodes) node.
Proof. unfold loadRooms_initTables. by rewrite foldl_snoc. Qed.

(** The adjacency maps start as in [calculateAutoLayout]. *)
Lemma loadRooms_initTables_graph nodes allNodes :
  (loadRooms_initTables nodes allNodes).1 = (initTables allNodes).1.
Proof.
  induction allNodes as [|node allNodes IH] using rev_ind; [done|].
  rewrite loadRooms_initTables_snoc, initTables_snoc.
  destruct (loadRooms_initTables nodes allNodes) as [[gIn gOut] np].
  destruct (initTables allNodes) as [[gIn' gOut'] np']. cbn in *. by simplify_eq.
Qed.

(** The positions start with the nodes whose id is the id of a node of the
    diagram. *)
Lemma loadRooms_initTables_positions nodes allNodes k :
  is_Some ((loadRooms_initTables nodes allNodes).2 !! k)
  ↔ k ∈ nodeIds allNodes ∧ hasNode nodes k = true.
Proof.
  induction allNodes as [|node allNodes IH] using rev_ind.
  - cbn. rewrite lookup_empty. split; [by intros [? ?]|].
    unfold nodeIds. cbn. by intros [?%elem_of_nil _].
  - rewrite loadRooms_initTables_snoc. unfold nodeIds in *. rewrite fmap_app, elem_of_app.
    cbn [fmap list_fmap]. rewrite list_elem_of_singleton.
    destruct (loadRooms_initTables nodes allNodes) as [[gIn gOut] np]. cbn in *.
    destruct (hasNode nodes (Node.id node)) eqn:Hhas.
    + rewrite lookup_insert. case_decide as Heq.
      * subst k. split; [intros _; split; [by right|done]|eauto].
      * rewrite IH. split; [intros [? ?]; split; [by left|done]|].
        intros [[?|?] ?]; [done|]. by subst.
    + rewrite IH. split; [intros [? ?]; split; [by left|done]|].
      intros [[?| ->] Hk]; [done|]. congruence.
Qed.

Lemma loadRooms_initTables_existing nodes newNodes k :
  is_Some ((loadRooms_initTables nodes (nodes ++ newNodes)).2 !! k)
  ↔ hasNode nodes k = true.
Proof.
  rewrite loadRooms_initTables_positions. split; [by intros [_ ?]|].
  intros Hk. split; [|done]. apply hasNode_true in Hk. unfold nodeIds in *.
  rewrite fmap_app, elem_of_app. by left.
Qed.

(** *** The roots of the copy *)

Lemma connectedIdOf_first np (first : string) rest :
  is_Some (np !! first) → connectedIdOf np first (first :: rest) = first.
Proof.
  intros Hfirst. unfold connectedIdOf. cbn.
  rewrite bool_decide_eq_true_2 by done. by destruct (truthy first).
Qed.

(** A root that is positioned, or is a node of the graph, gets a position;
    no random number is drawn for it. *)
Lemma loadRooms_placeRoot_spec nodes gIn gOut np nodeId :
  (∀ k, hasNode nodes k = true → is_Some (np !! k)) →
  is_Some (np !! nodeId) ∨ (is_Some (gIn !! nodeId) ∧ is_Some (gOut !! nodeId)) →
  ∃ np',
    (∀ random calls,
       loadRooms_placeRoot random nodes gIn gOut (np, calls) nodeId = Returned (np', calls))
    ∧ dom np' = {[nodeId]} ∪ dom np
    ∧ (∀ k, is_Some (np !! k) → np' !! k = np !! k).
Proof.
  intros Hinv Hroot. unfold loadRooms_placeRoot.
  destruct (np !! nodeId) as [p|] eqn:Hp.
  { exists np. split_and!; [done| |done].
    apply elem_of_dom_2 in Hp. set_solver. }
  destruct Hroot as [[? ?]|[[ins Hins] [outs Houts]]]; [done|].
  unfold connectedExistingNodes. rewrite Hins, Houts. cbn.
  destruct (filter (fun id => hasNode nodes id = true) (ins ++ outs))
    as [|first rest] eqn:Hconn.
  - eexists. split_and!; [done| |].
    + by rewrite dom_insert_L.
    + intros k [q Hk]. rewrite lookup_insert_ne; [done|]. congruence.
  - assert (Hfirst : is_Some (np !! first)).
    { apply Hinv.
      assert (first ∈ filter (fun id => hasNode nodes id = true) (ins ++ outs)) as Hin
        by (rewrite Hconn; by left).
      by apply list_elem_of_filter in Hin as [? _]. }
    rewrite connectedIdOf_first by done. destruct Hfirst as [q Hq]. rewrite Hq.
    eexists. split_and!; [done| |].
    + by rewrite dom_insert_L.
    + intros k [q' Hk]. rewrite lookup_insert_ne; [done|]. congruence.
Qed.

Lemma loadRooms_placeRoot_throws random nodes gIn gOut np calls nodeId :
  np !! nodeId = None → gIn !! nodeId = None ∨ gOut !! nodeId = None →
  loadRooms_placeRoot random nodes gIn gOut (np, calls) nodeId = TypeError.
Proof.
  intros Hp Hg. unfold loadRooms_placeRoot, connectedExistingNodes. rewrite Hp.
  destruct Hg as [->| ->]; [done|]. by destruct (gIn !! nodeId).
Qed.

Lemma loadRooms_placeRoots_spec nodes gIn gOut roots : ∀ np,
  (∀ k, hasNode nodes k = true → is_Some (np !! k)) →
  (∀ r, r ∈ roots →
        is_Some (np !! r) ∨ (is_Some (gIn !! r) ∧ is_Some (gOut !! r))) →
  ∃ np',
    (∀ random calls,
       loadRooms_placeRoots random nodes gIn gOut roots (np, calls) = Returned (np', calls))
    ∧ dom np' = list_to_set roots ∪ dom np
    ∧ (∀ k, is_Some (np !! k) → np' !! k = np !! k).
Proof.
  induction roots as [|r roots IH]; intros np Hinv Hroots.
  { exists np. split_and!; [done| |done]. set_solver. }
  destruct (loadRooms_placeRoot_spec nodes gIn gOut np r Hinv) as (np1 & Hrun & Hdom & Hkeep).
  { apply Hroots. by left. }
  destruct (IH np1) as (np' & Hrun' & Hdom' & Hkeep').
  - intros k Hk. apply Hinv in Hk. rewrite Hkeep by done. done.
  - intros r' Hr'. destruct (Hroots r') as [Hp|Hg]; [by right| |by right].
    left. by rewrite Hkeep.
  - exists np'. split_and!.
    + intros random calls. cbn [loadRooms_placeRoots]. rewrite Hrun. cbn [bind].
      apply Hrun'.
    + rewrite Hdom', Hdom. set_solver.
    + intros k Hk. rewrite Hkeep'; [by apply Hkeep|]. by rewrite Hkeep.
Qed.

(** *** The traversal of the copy *)

Lemma loadRooms_placeChildren_spec parentPos n children : ∀ index w,
  queue (loadRooms_placeChildren parentPos n index children w) = queue w ++ children
  ∧ positionedIds (loadRooms_placeChildren parentPos n index children w)
    = list_to_set children ∪ positionedIds w
  ∧ dom (positions (loadRooms_placeChildren parentPos n index children w))
    = list_to_set children ∪ dom (positions w)
  ∧ (∀ k, k ∉ children →
          positions (loadRooms_placeChildren parentPos n index children w) !! k
          = positions w !! k).
Proof.
  induction children as [|c children IH]; intros index w.
  - cbn. rewrite app_nil_r. split_and!; [done|set_solver|set_solver|done].
  - cbn [loadRooms_placeChildren]. destruct (IH (S index)
      {| positions :=
           <[c := handleLoadRooms_childPosition parentPos n index]> (positions w);
         positionedIds := {[c]} ∪ positionedIds w;
         queue := queue w ++ [c] |}) as (Hq & Hp & Hd & Hk).
    cbn in *. split_and!.
    + by rewrite Hq, <- app_assoc.
    + rewrite Hp. set_solver.
    + rewrite Hd, dom_insert_L. set_solver.
    + intros k Hnin. apply not_elem_of_cons in Hnin as [Hne Hnin].
      rewrite Hk by done. by rewrite lookup_insert_ne.
Qed.

Lemma loadRooms_bfsStep_spec gOut w :
  queue (loadRooms_bfsStep gOut w) = tail (queue w) ++ stepChildren gOut w
  ∧ positionedIds (loadRooms_bfsStep gOut w)
    = list_to_set (stepChildren gOut w) ∪ positionedIds w
  ∧ dom (positions (loadRooms_bfsStep gOut w))
    = list_to_set (stepChildren gOut w) ∪ dom (positions w)
  ∧ (∀ k, k ∉ stepChildren gOut w →
          positions (loadRooms_bfsStep gOut w) !! k = positions w !! k).
Proof.
  unfold loadRooms_bfsStep, stepChildren. destruct (queue w) as [|cur rest] eqn:Hq.
  { rewrite Hq. cbn. split_and!; [done|set_solver|set_solver|done]. }
  destruct (positions w !! cur) as [parentPos|]; cbn.
  2: { rewrite app_nil_r. split_and!; [done|set_solver|set_solver|done]. }
  case_decide as Hlen.
  - destruct (loadRooms_placeChildren_spec parentPos
                (length (childrenOf gOut (positionedIds w) cur))
                (childrenOf gOut (positionedIds w) cur) 0
                {| positions := positions w; positionedIds := positionedIds w;
                   queue := rest |}) as (H1 & H2 & H3 & H4).
    done.
  - destruct (childrenOf gOut (positionedIds w) cur); [|cbn in Hlen; lia].
    cbn. rewrite app_nil_r. split_and!; [done|set_solver|set_solver|done].
Qed.

Lemma loadRooms_bfsStep_workLeft gOut w :
  queue w ≠ [] → (workLeft gOut (loadRooms_bfsStep gOut w) < workLeft gOut w)%nat.
Proof.
  intros Hq. pose proof (bfsStep_workLeft gOut w Hq) as Hlt.
  destruct (loadRooms_bfsStep_spec gOut w) as (H1 & H2 & _).
  unfold workLeft in *. rewrite H1, H2.
  by rewrite bfsStep_queue, bfsStep_positionedIds in Hlt.
Qed.

Lemma loadRooms_bfs_fuel fuel gOut : ∀ w,
  (workLeft gOut w ≤ fuel)%nat → is_Some (loadRooms_bfs fuel gOut w).
Proof.
  induction fuel as [|fuel IH]; intros w Hle; cbn.
  - destruct (queue w) as [|cur rest] eqn:Hq; [eauto|].
    unfold workLeft in Hle. rewrite Hq in Hle. cbn in Hle. lia.
  - destruct (queue w) as [|cur rest] eqn:Hq; [eauto|].
    apply IH. pose proof (loadRooms_bfsStep_workLeft gOut w) as Hlt.
    rewrite Hq in Hlt. specialize (Hlt ltac:(done)). lia.
Qed.

(** What is positioned stays where it is, and the set of the positioned ids
    is the set of the keys of the positions. *)
Lemma loadRooms_bfs_keeps fuel gOut : ∀ w w',
  loadRooms_bfs fuel gOut w = Some w' →
  positionedIds w = dom (positions w) →
  positionedIds w' = dom (positions w')
  ∧ (∀ k, is_Some (positions w !! k) → positions w' !! k = positions w !! k).
Proof.
  induction fuel as [|fuel IH]; intros w w' Hrun Hdom; cbn in Hrun.
  - destruct (queue w); [|done]. by simplify_eq.
  - destruct (queue w) eqn:Hq; [by simplify_eq|].
    destruct (loadRooms_bfsStep_spec gOut w) as (_ & H2 & H3 & H4).
    apply IH in Hrun as (Hdom' & Hkeep); [|by rewrite H2, H3, Hdom].
    split; [done|]. intros k Hk.
    rewrite Hkeep.
    + apply H4. intros Hin%stepChildren_unpositioned. apply Hin.
      rewrite Hdom. by apply elem_of_dom.
    + rewrite H4; [done|]. intros Hin%stepChildren_unpositioned. apply Hin.
      rewrite Hdom. by apply elem_of_dom.
Qed.

(** *** The fallback of the copy *)

Lemma loadRooms_placeRemaining_spec remaining : ∀ np,
  dom (loadRooms_placeRemaining remaining np) = list_to_set (nodeIds remaining) ∪ dom np
  ∧ (∀ k, k ∉ nodeIds remaining → loadRooms_placeRemaining remaining np !! k = np !! k).
Proof.
  unfold loadRooms_placeRemaining, nodeIds.
  induction remaining as [|node remaining IH]; intros np; cbn.
  - split; [set_solver|done].
  - destruct (IH (<[Node.id node :=
                      {| NodePosition.x := maxOrZero (xValues np) + 150;
                         NodePosition.y := maxOrZero (yValues np) + 150 |}]> np))
      as [Hd Hk].
    split.
    + rewrite Hd, dom_insert_L. set_solver.
    + intros k Hnin. apply not_elem_of_cons in Hnin as [Hne Hnin].
      rewrite Hk by done. by rewrite lookup_insert_ne.
Qed.

(** *** The positions of the new nodes *)

Lemma loadRooms_applyPosition_spec random np newNodes : ∀ positioned calls,
  (∀ node, node ∈ newNodes → is_Some (np !! Node.id node)) →
  foldl (loadRooms_applyPosition random np) (positioned, calls) newNodes
  = (positioned
     ++ ((fun node => {| Node.id := Node.id node;
                         Node.position := default (Node.position node) (np !! Node.id node);
                         Node.data := Node.data node |}) <$> newNodes),
     calls).
Proof.
  induction newNodes as [|node newNodes IH]; intros positioned calls Hall; cbn.
  - by rewrite app_nil_r.
  - destruct (Hall node) as [p Hp]; [by left|]. rewrite Hp. cbn.
    rewrite IH by (intros n Hn; apply Hall; by right).
    by rewrite <- app_assoc.
Qed.

End InlineLayoutProperties.

Section InlineLayoutResults.
Context {ND ED : Type}.

#[local] Abbreviation Node := (Node.t ND).
#[local] Abbreviation Edge := (Edge.t ED).
Implicit Types (nodes newNodes allNodes remaining : list Node).
Implicit Types (edges newEdges allEdges : list Edge).
Implicit Types (gIn gOut : GraphConnections) (np : gmap string NodePosition.t).
Implicit Types (random : nat → R) (calls : nat) (w : Walk).

Lemma truthy_true (s : string) : truthy s = true ↔ s ≠ "".
Proof.
  unfold truthy. destruct (String.eqb_spec s ""); cbn; split; congruence.
Qed.

Lemma strayStart_dec allNodes (startNodeId : option string) :
  Decision (strayStart allNodes startNodeId).
Proof.
  unfold strayStart. destruct startNodeId as [s|].
  - destruct (decide (s ≠ "" ∧ s ∉ nodeIds allNodes)) as [Hs|Hs].
    + left. exists s. by destruct Hs.
    + right. intros (s' & [= <-] & ? & ?). by apply Hs.
  - right. by intros (s' & ? & _).
Qed.

Lemma loadRooms_rootNodeIds_nodes nodes newNodes gIn (startNodeId : option string) r :
  ¬ strayStart (nodes ++ newNodes) startNodeId →
  r ∈ loadRooms_rootNodeIds newNodes gIn startNodeId →
  r ∈ nodeIds (nodes ++ newNodes).
Proof.
  intros Hstart. unfold loadRooms_rootNodeIds.
  assert (Hothers : r ∈ match noIncoming gIn newNodes, newNodes with
                        | [], first :: _ => [Node.id first]
                        | roots, _ => roots
                        end → r ∈ nodeIds (nodes ++ newNodes)).
  { assert (r ∈ noIncoming gIn newNodes → r ∈ nodeIds (nodes ++ newNodes)) as Hno.
    { unfold noIncoming, nodeIds. intros (n & -> & Hn)%list_elem_of_fmap.
      apply list_elem_of_filter in Hn as [_ Hn]. rewrite fmap_app, elem_of_app. right.
      apply list_elem_of_fmap. eauto. }
    destruct (noIncoming gIn newNodes) as [|a l]; [|done].
    destruct newNodes as [|first rest]; [done|].
    intros ->%list_elem_of_singleton. unfold nodeIds.
    rewrite fmap_app, elem_of_app. right. by left. }
  destruct startNodeId as [s|]; [|done].
  destruct (truthy s) eqn:Hs; [|done]. intros ->%list_elem_of_singleton.
  destruct (decide (s ∈ nodeIds (nodes ++ newNodes))) as [|Hnot]; [done|].
  exfalso. apply Hstart. exists s. split_and!; [done| |done]. by apply truthy_true.
Qed.

(** How the layout of the copy goes. *)
Lemma loadRooms_layout_cases nodes edges newNodes newEdges (startNodeId : option string) :
  let allNodes := nodes ++ newNodes in
  let allEdges := edges ++ newEdges in
  (Exists (dangling allNodes) allEdges
   ∧ ∀ random calls,
       loadRooms_layout random calls nodes edges newNodes newEdges startNodeId
       = TypeError)
  ∨ (Forall (fun e => ¬ dangling allNodes e) allEdges
     ∧ strayStart allNodes startNodeId
     ∧ ∀ random calls,
         loadRooms_layout random calls nodes edges newNodes newEdges startNodeId
         = TypeError)
  ∨ (Forall (fun e => ¬ dangling allNodes e) allEdges
     ∧ ¬ strayStart allNodes startNodeId
     ∧ ∃ gIn gOut np1 np,
         graphOf allNodes allEdges = Returned (gIn, gOut)
         ∧ (∀ random calls,
              loadRooms_placeRoots random nodes gIn gOut
                (loadRooms_rootNodeIds newNodes gIn startNodeId)
                ((loadRooms_initTables nodes allNodes).2, calls)
              = Returned (np1, calls))
         ∧ (∀ k, is_Some (np1 !! k) → np !! k = np1 !! k)
         ∧ (∀ k, k ∈ nodeIds allNodes → is_Some (np !! k))
         ∧ ∀ random calls,
             loadRooms_layout random calls nodes edges newNodes newEdges startNodeId
             = Returned {| positionedNewNodes := placedAt np <$> newNodes;
                           enhancedNewEdges := enhanceEdge np allEdges <$> newEdges |}).
Proof.
  cbv zeta. set (allNodes := nodes ++ newNodes). set (allEdges := edges ++ newEdges).
  assert (Hunfold : ∀ random calls,
    loadRooms_layout random calls nodes edges newNodes newEdges startNodeId
    = bind (graphOf allNodes allEdges) (fun g =>
        bind (loadRooms_placeRoots random nodes g.1 g.2
                (loadRooms_rootNodeIds newNodes g.1 startNodeId)
                ((loadRooms_initTables nodes allNodes).2, calls))
          (fun st =>
             let remainingNewNodes :=
               filter (fun node => Node.id node ∉ (dom st.1 : gset string)) newNodes in
             let w0 := {| positions := st.1; positionedIds := dom st.1;
                          queue := loadRooms_rootNodeIds newNodes g.1 startNodeId |} in
             match (if decide (0 < length remainingNewNodes)%nat
                    then loadRooms_bfs
                           (bfsFuel g.2 (loadRooms_rootNodeIds newNodes g.1 startNodeId))
                           g.2 w0
                    else Some w0) with
             | None => OutOfFuel
             | Some w =>
                 let np :=
                   loadRooms_placeRemaining
                     (filter (fun node => Node.id node ∉ positionedIds w) remainingNewNodes)
                     (positions w) in
                 Returned
                   {| positionedNewNodes :=
                        (foldl (loadRooms_applyPosition random np) ([], st.2) newNodes).1;
                      enhancedNewEdges := enhanceEdge np allEdges <$> newEdges |}
             end))).
  { intros random calls. unfold loadRooms_layout, graphOf.
    fold allNodes. fold allEdges.
    rewrite <- (loadRooms_initTables_graph nodes allNodes).
    destruct (loadRooms_initTables nodes allNodes) as [[gIn0 gOut0] np0]. cbn [fst snd].
    destruct (fillConnections (gIn0, gOut0) allEdges) as [[gIn gOut]| |]; [|done..].
    cbn [bind fst snd].
    destruct (loadRooms_placeRoots _ _ _ _ _ _) as [[np1 calls1]| |]; done. }
  destruct (decide (Forall (fun e => ¬ dangling allNodes e) allEdges)) as [Hwf|Hwf].
  2: { left. apply not_Forall_Exists in Hwf; [|intros e; apply not_dec, dangling_dec].
       assert (Hex : Exists (dangling allNodes) allEdges).
       { eapply Exists_impl; [exact Hwf|]. intros e He.
         by destruct (dangling_dec allNodes e). }
       split; [done|]. intros random calls. rewrite Hunfold. unfold graphOf.
       by rewrite (graph_dangling _ _ Hex). }
  right.
  destruct (graph_wellformed allNodes allEdges Hwf) as (gIn & gOut & Hg & HIn & HOut).
  fold (graphOf allNodes allEdges) in Hg.
  pose proof (loadRooms_initTables_existing nodes newNodes) as Hnp0.
  fold allNodes in Hnp0.
  destruct (strayStart_dec allNodes startNodeId) as [Hstray|Hstart].
  { left. split_and!; [done..|]. intros random calls. rewrite Hunfold, Hg. cbn [bind fst snd].
    destruct Hstray as (s & -> & Hs & Hnot). unfold loadRooms_rootNodeIds.
    rewrite (proj2 (truthy_true s) Hs). cbn [loadRooms_placeRoots].
    rewrite loadRooms_placeRoot_throws; [done| |].
    - apply eq_None_not_Some. intros Hsome. apply Hnp0, hasNode_true in Hsome.
      apply Hnot. unfold allNodes, nodeIds in *. rewrite fmap_app, elem_of_app. by left.
    - left. rewrite HIn. by rewrite decide_False. }
  right. split_and!; [done..|].
  set (roots := loadRooms_rootNodeIds newNodes gIn startNodeId).
  destruct (loadRooms_placeRoots_spec nodes gIn gOut roots
              ((loadRooms_initTables nodes allNodes).2)) as (np1 & Hroots & Hdom1 & Hkeep1).
  { intros k Hk. by apply Hnp0. }
  { intros r Hr. right.
    apply (loadRooms_rootNodeIds_nodes nodes newNodes gIn startNodeId r Hstart) in Hr.
    fold allNodes in Hr. rewrite HIn, HOut. rewrite !decide_True by done. eauto. }
  set (remainingNewNodes :=
         filter (fun node => Node.id node ∉ (dom np1 : gset string)) newNodes).
  set (w0 := {| positions := np1; positionedIds := dom np1; queue := roots |}).
  assert (Hw : ∃ w,
             (if decide (0 < length remainingNewNodes)%nat
              then loadRooms_bfs (bfsFuel gOut roots) gOut w0 else Some w0) = Some w
             ∧ positionedIds w = dom (positions w)
             ∧ (∀ k, is_Some (np1 !! k) → positions w !! k = np1 !! k)).
  { case_decide.
    - destruct (loadRooms_bfs_fuel (bfsFuel gOut roots) gOut w0) as [w Hrun].
      { unfold workLeft, bfsFuel. cbn.
        pose proof (pending_le_total gOut (dom np1)). lia. }
      exists w. split; [done|].
      by apply (loadRooms_bfs_keeps _ _ _ _ Hrun).
    - exists w0. by split_and!. }
  destruct Hw as (w & Hrun & Hdomw & Hkeepw).
  set (np := loadRooms_placeRemaining
               (filter (fun node => Node.id node ∉ positionedIds w) remainingNewNodes)
               (positions w)).
  destruct (loadRooms_placeRemaining_spec
              (filter (fun node => Node.id node ∉ positionedIds w) remainingNewNodes)
              (positions w)) as [Hdomnp Hkeepnp].
  fold np in Hdomnp, Hkeepnp.
  assert (Hkeep : ∀ k, is_Some (np1 !! k) → np !! k = np1 !! k).
  { intros k Hk. rewrite Hkeepnp; [by apply Hkeepw|].
    unfold nodeIds. intros (n & -> & Hn)%list_elem_of_fmap.
    apply list_elem_of_filter in Hn as [Hn _]. apply Hn.
    rewrite Hdomw. apply elem_of_dom. by rewrite Hkeepw. }
  assert (Hcover : ∀ k, k ∈ nodeIds allNodes → is_Some (np !! k)).
  { intros k Hk. destruct (decide (k ∈ dom np1)) as [Hin|Hin].
    { apply elem_of_dom in Hin. by rewrite Hkeep. }
    apply elem_of_dom. rewrite Hdomnp.
    destruct (decide (k ∈ dom (positions w))) as [|Hnw]; [set_solver|].
    apply elem_of_union. left. apply elem_of_list_to_set.
    unfold allNodes, nodeIds in Hk. rewrite fmap_app, elem_of_app in Hk.
    destruct Hk as [Hk|Hk].
    - exfalso. apply Hin. rewrite Hdom1. apply elem_of_union. right.
      apply elem_of_dom, Hnp0. by apply hasNode_true.
    - apply list_elem_of_fmap in Hk as (n & -> & Hn). unfold nodeIds.
      apply list_elem_of_fmap. exists n. split; [done|].
      apply list_elem_of_filter. split; [by rewrite Hdomw|].
      unfold remainingNewNodes. by apply list_elem_of_filter. }
  exists gIn, gOut, np1, np. split_and!; [done|done|done|done|].
  intros random calls. rewrite Hunfold, Hg. cbn [bind fst snd]. fold roots.
  rewrite Hroots. cbn [bind fst snd]. fold remainingNewNodes. fold w0. rewrite Hrun.
  cbv zeta. fold np. rewrite loadRooms_applyPosition_spec; [done|].
  intros node Hnode. apply Hcover. unfold allNodes, nodeIds.
  rewrite fmap_app, elem_of_app. right. apply list_elem_of_fmap. eauto.
Qed.

End InlineLayoutResults.

Lemma foldl_Rmax_ge (values : list R) : ∀ a,
  a <= foldl Rmax a values ∧ ∀ v, v ∈ values → v <= foldl Rmax a values.
Proof.
  induction values as [|b values IH]; intros a; cbn.
  - split; [lra|]. by intros v ?%elem_of_nil.
  - destruct (IH (Rmax a b)) as [H1 H2]. split.
    + pose proof (Rmax_l a b). lra.
    + intros v Hv. apply elem_of_cons in Hv as [->|Hv]; [|by apply H2].
      pose proof (Rmax_r a b). lra.
Qed.

Lemma maxOrZero_ge (values : list R) v : v ∈ values → v <= maxOrZero values.
Proof.
  destruct values as [|a values]; [by intros ?%elem_of_nil|]. cbn.
  destruct (foldl_Rmax_ge values a) as [H1 H2].
  intros Hv. apply elem_of_cons in Hv as [->|Hv]; [done|by apply H2].
Qed.

Section InlineLayoutTheorems.
Context {ND ED : Type}.

#[local] Abbreviation Node := (Node.t ND).
#[local] Abbreviation Edge := (Edge.t ED).
Implicit Types (nodes newNodes allNodes remaining : list Node).
Implicit Types (edges newEdges allEdges : list Edge).
Implicit Types (gIn gOut : GraphConnections) (np : gmap string NodePosition.t).
Implicit Types (random : nat → R) (calls : nat) (w : Walk).

(** X22. The layout inside [loadRooms] raises a [TypeError] exactly when an
    edge has an end that is no node, or the start node is no node; the loop
    of its traversal always ends. *)
Theorem inline_layout_outcome random calls nodes edges newNodes newEdges
    (startNodeId : option string) :
  (loadRooms_layout random calls nodes edges newNodes newEdges startNodeId = TypeError
   ↔ Exists (dangling (nodes ++ newNodes)) (edges ++ newEdges)
     ∨ strayStart (nodes ++ newNodes) startNodeId)
  ∧ loadRooms_layout random calls nodes edges newNodes newEdges startNodeId ≠ OutOfFuel.
Proof.
  destruct (loadRooms_layout_cases nodes edges newNodes newEdges startNodeId)
    as [(Hex & Hrun)|[(Hwf & Hstray & Hrun)|(Hwf & Hstart & gIn & gOut & np1 & np & _
                                             & _ & _ & _ & Hrun)]];
    rewrite (Hrun random calls).
  - split; [|done]. split; [by left|done].
  - split; [|done]. split; [by right|done].
  - split; [|done]. split; [done|]. intros [Hex|Hstray]; [|done].
    apply Exists_exists in Hex as (e & He & Hd). rewrite Forall_forall in Hwf.
    by destruct (Hwf e He).
Qed.

(** X23. The layout inside [loadRooms] never uses a random number: neither
    the random position of a root nor the random position of a new node
    that was left out is ever taken. *)
Theorem inline_layout_random_free random random' calls calls'
    nodes edges newNodes newEdges (startNodeId : option string) :
  loadRooms_layout random calls nodes edges newNodes newEdges startNodeId
  = loadRooms_layout random' calls' nodes edges newNodes newEdges startNodeId.
Proof.
  destruct (loadRooms_layout_cases nodes edges newNodes newEdges startNodeId)
    as [(_ & Hrun)|[(_ & _ & Hrun)|(_ & _ & gIn & gOut & np1 & np & _ & _ & _ & _ & Hrun)]];
    by rewrite (Hrun random calls), (Hrun random' calls').
Qed.

(** X24. The new nodes come back in their order with their ids and data,
    the new edges with their ids, ends and data and with both handles set. *)
Theorem inline_layout_frame random calls nodes edges newNodes newEdges
    (startNodeId : option string) r :
  loadRooms_layout random calls nodes edges newNodes newEdges startNodeId = Returned r →
  Forall2 (fun n n' : Node => Node.id n' = Node.id n ∧ Node.data n' = Node.data n)
    newNodes (positionedNewNodes r)
  ∧ Forall2 (fun e e' : Edge =>
               sameButHandles e e'
               ∧ is_Some (Edge.sourceHandle e') ∧ is_Some (Edge.targetHandle e'))
      newEdges (enhancedNewEdges r).
Proof.
  destruct (loadRooms_layout_cases nodes edges newNodes newEdges startNodeId)
    as [(_ & Hrun)|[(_ & _ & Hrun)|(Hwf & _ & gIn & gOut & np1 & np & _ & _ & _
                                    & Hcover & Hrun)]];
    rewrite (Hrun random calls); [done..|]. intros [= <-].
  cbn [positionedNewNodes enhancedNewEdges]. split.
  - apply Forall2_fmap_r, Forall_Forall2_diag, Forall_forall. by intros n _.
  - apply Forall2_fmap_r, Forall_Forall2_diag, Forall_forall. intros e He.
    assert (Hin : e ∈ edges ++ newEdges) by (apply elem_of_app; by right).
    rewrite Forall_forall in Hwf. pose proof (Hwf e Hin) as Hnd.
    assert (is_Some (np !! Edge.source e)) as [sp Hsp].
    { apply Hcover. destruct (decide (Edge.source e ∈ nodeIds (nodes ++ newNodes)));
        [done|]. exfalso. apply Hnd. by left. }
    assert (is_Some (np !! Edge.target e)) as [tp Htp].
    { apply Hcover. destruct (decide (Edge.target e ∈ nodeIds (nodes ++ newNodes)));
        [done|]. exfalso. apply Hnd. by right. }
    pose proof (enhanceEdge_handles np (edges ++ newEdges) e sp tp Hsp Htp) as Hh.
    unfold handlesOf, someHandles in Hh. injection Hh as Hsh Hth.
    unfold compose. rewrite Hsh, Hth. split; [apply enhanceEdge_sameButHandles|]. by split.
Qed.

Lemma loadRooms_initTables_same nodes allNodes :
  (∀ n, n ∈ allNodes → hasNode nodes (Node.id n) = true) →
  (loadRooms_initTables nodes allNodes).2 = (initTables allNodes).2.
Proof.
  induction allNodes as [|node allNodes IH] using rev_ind; intros Hall; [done|].
  rewrite loadRooms_initTables_snoc, initTables_snoc.
  assert (Heq : (loadRooms_initTables nodes allNodes).2 = (initTables allNodes).2).
  { apply IH. intros n Hn. apply Hall, elem_of_app. by left. }
  destruct (loadRooms_initTables nodes allNodes) as [[gIn gOut] np].
  destruct (initTables allNodes) as [[gIn' gOut'] np']. cbn in *.
  rewrite Hall by (apply elem_of_app; right; by left). by rewrite Heq.
Qed.

Lemma loadRooms_initTables_new nodes allNodes newNodes :
  (∀ n, n ∈ newNodes → hasNode nodes (Node.id n) = false) →
  (loadRooms_initTables nodes (allNodes ++ newNodes)).2
  = (loadRooms_initTables nodes allNodes).2.
Proof.
  induction newNodes as [|node newNodes IH] using rev_ind; intros Hall.
  - by rewrite app_nil_r.
  - rewrite app_assoc, loadRooms_initTables_snoc.
    rewrite <- IH by (intros n Hn; apply Hall, elem_of_app; by left).
    destruct (loadRooms_initTables nodes (allNodes ++ newNodes)) as [[gIn gOut] np].
    cbn. by rewrite Hall by (apply elem_of_app; right; by left).
Qed.

(** The positions start with the positions of the nodes of the diagram. *)
Lemma loadRooms_initTables_position nodes newNodes (node : Node) :
  NoDup (nodeIds (nodes ++ newNodes)) → node ∈ nodes →
  (loadRooms_initTables nodes (nodes ++ newNodes)).2 !! Node.id node
  = Some (Node.position node).
Proof.
  unfold nodeIds. rewrite fmap_app. intros (Hnd & Hdisj & _)%NoDup_app Hnode.
  rewrite loadRooms_initTables_new, loadRooms_initTables_same.
  - by apply initTables_position.
  - intros n Hn. apply hasNode_true. apply list_elem_of_fmap. eauto.
  - intros n Hn. destruct (hasNode nodes (Node.id n)) eqn:Hhas; [|done].
    apply hasNode_true in Hhas. exfalso. apply (Hdisj _ Hhas).
    apply list_elem_of_fmap. eauto.
Qed.

(** Where a start node that is new is put. *)
Lemma loadRooms_start_position random calls nodes edges newNodes newEdges
    (s : string) r :
  loadRooms_layout random calls nodes edges newNodes newEdges (Some s) = Returned r →
  s ≠ "" → s ∉ nodeIds nodes →
  ∃ p,
    (∀ node, node ∈ positionedNewNodes r → Node.id node = s → Node.position node = p)
    ∧ loadRooms_placeRoot random nodes
        (<[s := sourcesInto (edges ++ newEdges) s]> ∅)
        (<[s := targetsFrom (edges ++ newEdges) s]> ∅)
        ((loadRooms_initTables nodes (nodes ++ newNodes)).2, calls) s
      = Returned (<[s := p]> ((loadRooms_initTables nodes (nodes ++ newNodes)).2), calls).
Proof.
  intros Hr Hs Hnew. revert Hr.
  destruct (loadRooms_layout_cases nodes edges newNodes newEdges (Some s))
    as [(_ & Hrun)|[(_ & _ & Hrun)|(Hwf & Hstart & gIn & gOut & np1 & np & Hg & Hroots
                                    & Hkeep & Hcover & Hrun)]];
    rewrite (Hrun random calls); [done..|]. intros [= <-]. cbn [positionedNewNodes].
  assert (Hin : s ∈ nodeIds (nodes ++ newNodes)).
  { destruct (decide (s ∈ nodeIds (nodes ++ newNodes))); [done|].
    exfalso. apply Hstart. by exists s. }
  destruct (graphOf_lookup _ _ _ _ Hg) as [HIn HOut].
  specialize (Hroots random calls). unfold loadRooms_rootNodeIds in Hroots.
  rewrite (proj2 (truthy_true s) Hs) in Hroots. cbn [loadRooms_placeRoots] in Hroots.
  assert (Hnone : (loadRooms_initTables nodes (nodes ++ newNodes)).2 !! s = None).
  { apply eq_None_not_Some. intros Hsome.
    apply loadRooms_initTables_existing, hasNode_true in Hsome. done. }
  unfold loadRooms_placeRoot, connectedExistingNodes in *.
  rewrite Hnone in Hroots. rewrite (HIn s), (HOut s) in Hroots.
  rewrite !(decide_True _ _ Hin) in Hroots.
  rewrite Hnone, !lookup_insert_eq.
  cbn [bind] in *.
  destruct (filter (fun id => hasNode nodes id = true)
              (sourcesInto (edges ++ newEdges) s ++ targetsFrom (edges ++ newEdges) s))
    as [|first rest].
  - injection Hroots as <-. eexists. split; [|done].
    intros node (n & -> & Hn)%list_elem_of_fmap Hid. cbn in *.
    rewrite Hid, Hkeep by (rewrite lookup_insert_eq; eauto).
    by rewrite lookup_insert_eq.
  - destruct ((loadRooms_initTables nodes (nodes ++ newNodes)).2
                !! connectedIdOf _ first (first :: rest)) as [q|].
    + injection Hroots as <-. eexists. split; [|done].
      intros node (n & -> & Hn)%list_elem_of_fmap Hid. cbn in *.
      rewrite Hid, Hkeep by (rewrite lookup_insert_eq; eauto).
      by rewrite lookup_insert_eq.
    + injection Hroots as _ Hcalls. lia.
Qed.

(** X25. A start node that is new and joined to a node of the diagram is
    put 300 to the right of the first node of the diagram it is joined to,
    at the same height. *)
Theorem start_room_anchored random calls nodes edges newNodes newEdges
    (s : string) r (anchor : Node) (rest : list string) :
  loadRooms_layout random calls nodes edges newNodes newEdges (Some s) = Returned r →
  s ≠ "" → s ∉ nodeIds nodes →
  NoDup (nodeIds (nodes ++ newNodes)) →
  anchor ∈ nodes →
  anchorsOf nodes (edges ++ newEdges) s = Node.id anchor :: rest →
  ∀ node, node ∈ positionedNewNodes r → Node.id node = s →
          Node.position node
          = {| NodePosition.x := NodePosition.x (Node.position anchor) + 300;
               NodePosition.y := NodePosition.y (Node.position anchor) |}.
Proof.
  intros Hr Hs Hnew Hnd Hanchor Hanchors node Hnode Hid.
  destruct (loadRooms_start_position _ _ _ _ _ _ _ _ Hr Hs Hnew) as (p & Hp & Hroot).
  rewrite (Hp node Hnode Hid).
  pose proof (loadRooms_initTables_position nodes newNodes anchor Hnd Hanchor) as Hpos.
  assert (Hnone : (loadRooms_initTables nodes (nodes ++ newNodes)).2 !! s = None).
  { apply eq_None_not_Some. intros Hsome.
    apply loadRooms_initTables_existing, hasNode_true in Hsome. done. }
  unfold loadRooms_placeRoot, connectedExistingNodes in Hroot.
  rewrite Hnone, !lookup_insert_eq in Hroot. cbn [bind] in Hroot.
  unfold anchorsOf in Hanchors. rewrite Hanchors in Hroot.
  rewrite connectedIdOf_first in Hroot by (rewrite Hpos; eauto).
  rewrite Hpos in Hroot. injection Hroot as Hroot.
  assert (Heq : <[s := {| NodePosition.x :=
                            NodePosition.x (Node.position anchor) + horizontalSpacing;
                          NodePosition.y := NodePosition.y (Node.position anchor) |}]>
                  ((loadRooms_initTables nodes (nodes ++ newNodes)).2) !! s
                = <[s := p]> ((loadRooms_initTables nodes (nodes ++ newNodes)).2) !! s)
    by (by rewrite Hroot).
  rewrite !lookup_insert_eq in Heq. injection Heq as <-. done.
Qed.

(** X26. A start node that is new and joined to no node of the diagram is
    put at height 100, 300 or more to the right of every node of the
    diagram, and at 300 when the diagram is empty. *)
Theorem start_room_apart random calls nodes edges newNodes newEdges
    (s : string) r :
  loadRooms_layout random calls nodes edges newNodes newEdges (Some s) = Returned r →
  s ≠ "" → s ∉ nodeIds nodes →
  NoDup (nodeIds (nodes ++ newNodes)) →
  anchorsOf nodes (edges ++ newEdges) s = [] →
  ∀ node, node ∈ positionedNewNodes r → Node.id node = s →
          NodePosition.y (Node.position node) = 100
          ∧ (∀ n, n ∈ nodes →
                  NodePosition.x (Node.position n) + 300
                  <= NodePosition.x (Node.position node))
          ∧ (nodes = [] → NodePosition.x (Node.position node) = 300).
Proof.
  intros Hr Hs Hnew Hnd Hanchors node Hnode Hid.
  destruct (loadRooms_start_position _ _ _ _ _ _ _ _ Hr Hs Hnew) as (p & Hp & Hroot).
  rewrite (Hp node Hnode Hid).
  assert (Hnone : (loadRooms_initTables nodes (nodes ++ newNodes)).2 !! s = None).
  { apply eq_None_not_Some. intros Hsome.
    apply loadRooms_initTables_existing, hasNode_true in Hsome. done. }
  unfold loadRooms_placeRoot, connectedExistingNodes in Hroot.
  rewrite Hnone, !lookup_insert_eq in Hroot. cbn [bind] in Hroot.
  unfold anchorsOf in Hanchors. rewrite Hanchors in Hroot.
  injection Hroot as Hroot.
  assert (Heq : <[s := {| NodePosition.x :=
                            maxOrZero (xValues (loadRooms_initTables nodes
                                                  (nodes ++ newNodes)).2)
                            + horizontalSpacing;
                          NodePosition.y := 100 |}]>
                  ((loadRooms_initTables nodes (nodes ++ newNodes)).2) !! s
                = <[s := p]> ((loadRooms_initTables nodes (nodes ++ newNodes)).2) !! s)
    by (by rewrite Hroot).
  rewrite !lookup_insert_eq in Heq. injection Heq as <-. cbn.
  unfold horizontalSpacing. split_and!; [done| |].
  - intros n Hn.
    pose proof (loadRooms_initTables_position nodes newNodes n Hnd Hn) as Hpos.
    assert (NodePosition.x (Node.position n)
            <= maxOrZero (xValues (loadRooms_initTables nodes (nodes ++ newNodes)).2));
      [|lra].
    apply maxOrZero_ge. unfold xValues. apply list_elem_of_fmap.
    exists (Node.id n, Node.position n). split; [done|]. by apply elem_of_map_to_list.
  - intros ->.
    assert ((loadRooms_initTables [] ([] ++ newNodes)).2 = ∅) as ->.
    { apply map_empty. intros k. apply eq_None_not_Some. intros Hsome.
      by apply (loadRooms_initTables_existing [] newNodes) in Hsome. }
    unfold xValues. rewrite map_to_list_empty. cbn. lra.
Qed.

End InlineLayoutTheorems.

(** ** The layout inside [loadRooms] on the examples *)

Lemma lodge_wellformed : Forall (fun e => ¬ dangling (lodge ++ treeNodes) e) treeEdges.
Proof.
  apply Forall_forall. intros e He [H|H]; apply H; unfold nodeIds; cbn;
    repeat (apply elem_of_cons in He as [->|He]; [cbn; set_solver|]);
    by apply elem_of_nil in He.
Qed.

Lemma inline_returns (nodes newNodes : list (Node.t unit)) (newEdges : list (Edge.t unit))
    (s : string) :
  Forall (fun e => ¬ dangling (nodes ++ newNodes) e) ([] ++ newEdges) →
  s ∈ nodeIds (nodes ++ newNodes) →
  ∃ r, loadRooms_layout dice 4 nodes [] newNodes newEdges (Some s) = Returned r.
Proof.
  intros Hwf Hs.
  destruct (loadRooms_layout_cases nodes [] newNodes newEdges (Some s))
    as [(Hex & _)|[(_ & Hstray & _)|(_ & _ & gIn & gOut & np1 & np & _ & _ & _ & _ & Hrun)]].
  - exfalso. apply Exists_exists in Hex as (e & He & Hd). rewrite Forall_forall in Hwf.
    by apply (Hwf e He).
  - exfalso. destruct Hstray as (s' & [= <-] & _ & Hnot). by apply Hnot.
  - eexists. apply Hrun.
Qed.

Lemma tree_rest_returns :
  ∃ r, loadRooms_layout dice 4 treeTop [] treeRest treeEdges (Some "2") = Returned r.
Proof.
  apply inline_returns; [exact tree_wellformed|].
  apply (bool_decide_unpack _). vm_compute. reflexivity.
Qed.

Lemma lodge_returns :
  ∃ r, loadRooms_layout dice 4 lodge [] treeNodes treeEdges (Some "1") = Returned r.
Proof.
  apply inline_returns; [exact lodge_wellformed|].
  apply (bool_decide_unpack _). vm_compute. reflexivity.
Qed.

(** X24 at the tree whose first room is in the diagram. *)
Lemma inline_layout_frame_witness :
  ∃ r, loadRooms_layout dice 4 treeTop [] treeRest treeEdges (Some "2") = Returned r
       ∧ Forall2 (fun n n' : Node.t unit =>
                    Node.id n' = Node.id n ∧ Node.data n' = Node.data n)
           treeRest (positionedNewNodes r)
       ∧ Forall2 (fun e e' : Edge.t unit =>
                    sameButHandles e e'
                    ∧ is_Some (Edge.sourceHandle e') ∧ is_Some (Edge.targetHandle e'))
           treeEdges (enhancedNewEdges r).
Proof.
  destruct tree_rest_returns as [r Hr]. exists r. split; [exact Hr|].
  apply (inline_layout_frame dice 4 treeTop [] treeRest treeEdges (Some "2") r Hr).
Defined.

(** X25 at the tree whose first room is in the diagram, entered at room 2:
    room 2 is put beside room 1. *)
Lemma start_room_anchored_witness :
  ∃ r, loadRooms_layout dice 4 treeTop [] treeRest treeEdges (Some "2") = Returned r
       ∧ ∀ node, node ∈ positionedNewNodes r → Node.id node = "2" →
           Node.position node
           = {| NodePosition.x := NodePosition.x (Node.position (room "1" 5 7)) + 300;
                NodePosition.y := NodePosition.y (Node.position (room "1" 5 7)) |}.
Proof.
  destruct tree_rest_returns as [r Hr]. exists r. split; [exact Hr|].
  apply (start_room_anchored dice 4 treeTop [] treeRest treeEdges "2" r
           (room "1" 5 7) [] Hr).
  - discriminate.
  - apply (bool_decide_unpack _). vm_compute. reflexivity.
  - apply tree_NoDup.
  - apply list_elem_of_here.
  - vm_compute. reflexivity.
Defined.

(** X26 at the tree that is new to the diagram with the lodge. *)
Lemma start_room_apart_witness :
  ∃ r, loadRooms_layout dice 4 lodge [] treeNodes treeEdges (Some "1") = Returned r
       ∧ ∀ node, node ∈ positionedNewNodes r → Node.id node = "1" →
           NodePosition.y (Node.position node) = 100
           ∧ (∀ n, n ∈ lodge →
                   NodePosition.x (Node.position n) + 300
                   <= NodePosition.x (Node.position node))
           ∧ (lodge = [] → NodePosition.x (Node.position node) = 300).
Proof.
  destruct lodge_returns as [r Hr]. exists r. split; [exact Hr|].
  apply (start_room_apart dice 4 lodge [] treeNodes treeEdges "1" r Hr).
  - discriminate.
  - apply (bool_decide_unpack _). vm_compute. reflexivity.
  - apply (bool_decide_unpack _). vm_compute. reflexivity.
  - vm_compute. reflexivity.
Defined.

(** * Properties of the attribute schema *)

Section SchemaProperties.
Context {V : Type} `{!JsAny V}.
Implicit Types (nodeData : gmap string V) (item : AttributeSchemaItem.t V).
Implicit Types (schema : list (AttributeSchemaItem.t V)).

(** One item: the data is kept, at most the key of the item is added, and
    it is added when the item brings a value. *)
Lemma applySchemaItem_spec nodeData item :
  let key := "attr_" +:+ AttributeSchemaItem.name item in
  (∀ k, is_Some (nodeData !! k) → applySchemaItem nodeData item !! k = nodeData !! k)
  ∧ (∀ k, k ≠ key → applySchemaItem nodeData item !! k = nodeData !! k)
  ∧ (bringsValue item → is_Some (applySchemaItem nodeData item !! key))
  ∧ (¬ bringsValue item → applySchemaItem nodeData item = nodeData).
Proof.
  cbv zeta. unfold applySchemaItem, bringsValue.
  destruct (decide (is_Some (nodeData !! ("attr_" +:+ AttributeSchemaItem.name item))))
    as [Hin|Hin].
  { split_and!; try done. }
  destruct (AttributeSchemaItem.default item) as [value|].
  { split_and!.
    - intros k Hk. rewrite lookup_insert_ne; [done|]. by intros <-.
    - intros k Hk. by rewrite lookup_insert_ne.
    - intros _. rewrite lookup_insert_eq. eauto.
    - intros Hnot. exfalso. apply Hnot. left. eauto. }
  destruct (AttributeSchemaItem.type item); cbn.
  1-4: (split_and!;
        [intros k Hk; rewrite lookup_insert_ne; [done|]; by intros <-
        |intros k Hk; by rewrite lookup_insert_ne
        |intros _; rewrite lookup_insert_eq; eauto
        |intros Hnot; exfalso; apply Hnot; by right]).
  split_and!; try done. intros [[? ?]|?]; done.
Qed.

Lemma applySchema_keeps nodeData schema k :
  is_Some (nodeData !! k) → applySchemaToNodeData nodeData schema !! k = nodeData !! k.
Proof.
  unfold applySchemaToNodeData. revert nodeData.
  induction schema as [|item schema IH]; intros nodeData Hk; [done|]. cbn.
  destruct (applySchemaItem_spec nodeData item) as (Hkeep & _). cbv zeta in Hkeep.
  rewrite IH; [by apply Hkeep|]. by rewrite Hkeep.
Qed.

Lemma applySchema_added nodeData schema k :
  is_Some (applySchemaToNodeData nodeData schema !! k) →
  is_Some (nodeData !! k)
  ∨ ∃ item, item ∈ schema ∧ k = "attr_" +:+ AttributeSchemaItem.name item.
Proof.
  unfold applySchemaToNodeData. revert nodeData.
  induction schema as [|item schema IH]; intros nodeData Hk; [by left|]. cbn in Hk.
  apply IH in Hk as [Hk|(item' & Hitem & ->)].
  - destruct (applySchemaItem_spec nodeData item) as (_ & Hother & _). cbv zeta in Hother.
    destruct (decide (k = "attr_" +:+ AttributeSchemaItem.name item)) as [->|Hne].
    + right. exists item. split; [by left|done].
    + left. by rewrite <- Hother.
  - right. exists item'. split; [by right|done].
Qed.

Lemma applySchema_present nodeData schema item :
  item ∈ schema → bringsValue item →
  is_Some (applySchemaToNodeData nodeData schema
             !! ("attr_" +:+ AttributeSchemaItem.name item)).
Proof.
  unfold applySchemaToNodeData. revert nodeData.
  induction schema as [|item' schema IH]; intros nodeData Hin Hbrings.
  { by apply elem_of_nil in Hin. }
  apply elem_of_cons in Hin as [->|Hin]; cbn; [|by apply IH].
  destruct (applySchemaItem_spec nodeData item') as (_ & _ & Hset & _). cbv zeta in Hset.
  specialize (Hset Hbrings).
  fold (applySchemaToNodeData (applySchemaItem nodeData item') schema).
  by rewrite applySchema_keeps.
Qed.

(** What has a value for every item that brings one is left as it is. *)
Lemma applySchema_fixed nodeData schema :
  (∀ item, item ∈ schema → bringsValue item →
           is_Some (nodeData !! ("attr_" +:+ AttributeSchemaItem.name item))) →
  applySchemaToNodeData nodeData schema = nodeData.
Proof.
  unfold applySchemaToNodeData. induction schema as [|item schema IH]; intros Hall; [done|].
  cbn.
  assert (Hitem : applySchemaItem nodeData item = nodeData).
  { destruct (decide (is_Some (nodeData !! ("attr_" +:+ AttributeSchemaItem.name item))))
      as [Hin|Hin].
    - unfold applySchemaItem. by rewrite decide_True.
    - destruct (applySchemaItem_spec nodeData item) as (_ & _ & _ & Hnot).
      apply Hnot. intros Hb. apply Hin, Hall; [by left|done]. }
  rewrite Hitem. apply IH. intros item' Hin. apply Hall. by right.
Qed.

(** X27. No existing entry of the data is changed by the schema: what the
    data has under a key, it still has afterwards. *)
Theorem schema_keeps_data nodeData schema k v :
  nodeData !! k = Some v → applySchemaToNodeData nodeData schema !! k = Some v.
Proof. intros Hk. rewrite applySchema_keeps; [done|]. by rewrite Hk. Qed.

(** X28. Applying the schema twice is applying it once. *)
Theorem schema_idempotent nodeData schema :
  applySchemaToNodeData (applySchemaToNodeData nodeData schema) schema
  = applySchemaToNodeData nodeData schema.
Proof.
  apply applySchema_fixed. intros item Hitem Hbrings. by apply applySchema_present.
Qed.

(** X29. After the schema is applied the data has an entry for every item
    with a default or with a type other than [choices], and no key that was
    not in the data or is not [attr_] and the name of an item. *)
Theorem schema_entries nodeData schema :
  (∀ item, item ∈ schema → bringsValue item →
           is_Some (applySchemaToNodeData nodeData schema
                      !! ("attr_" +:+ AttributeSchemaItem.name item)))
  ∧ (∀ k, is_Some (applySchemaToNodeData nodeData schema !! k) →
          is_Some (nodeData !! k)
          ∨ ∃ item, item ∈ schema ∧ k = "attr_" +:+ AttributeSchemaItem.name item).
Proof.
  split.
  - intros item Hitem Hbrings. by apply applySchema_present.
  - intros k. apply applySchema_added.
Qed.

End SchemaProperties.

(** X27 at the data of the hall, whose level the schema leaves alone. *)
Lemma schema_keeps_data_witness :
  applySchemaToNodeData hallData [levelItem; lockedItem; moodItem] !! "attr_level"
  = Some (JsNumber 2).
Proof.
  apply (schema_keeps_data hallData [levelItem; lockedItem; moodItem] "attr_level"
           (JsNumber 2)).
  vm_compute. reflexivity.
Defined.

(** X29 at the data of the hall: the flag is added, the choice is not. *)
Lemma schema_entries_witness :
  is_Some (applySchemaToNodeData hallData [levelItem; lockedItem; moodItem]
             !! ("attr_" +:+ AttributeSchemaItem.name lockedItem))
  ∧ applySchemaToNodeData hallData [levelItem; lockedItem; moodItem] !! "attr_mood" = None.
Proof.
  split.
  - apply (proj1 (schema_entries hallData [levelItem; lockedItem; moodItem])).
    + apply list_elem_of_further, list_elem_of_here.
    + right. discriminate.
  - vm_compute. reflexivity.
Defined.
